(** * ChessMoveAnalyzer: a shallow embedding of the engine core

    The first part follows the C++ sources file by file:
    - [types.h]            squares, colours, pieces, bitboard primitives;
    - [move.h], [move.cpp] the 16-bit move word and its UCI codec;
    - [position.cpp], [position_moves.cpp]  the board, the FEN codec,
      [makeMove], [isSquareAttacked], [isInCheck];
    - [bitboard_attacks.cpp], [move_generator.cpp]  attack sets and the
      pseudo-legal / legal generators;
    - [evaluator.cpp]      the endgame switch;
    - [chess_analyzer.cpp] the alpha-beta search;
    - [pgn_parser.cpp]     SAN resolution and move-text interpretation.

    The second part states and proves the properties C1 - C10 of the
    specification, each against the functions above.

    Machine integers are modelled as [Z] with the wrap-around written
    out: a [Bitboard] is a [uint64_t], a move word is a [uint16_t].
    Squares, pieces and scores are C++ [int]s and stay well inside the
    range of [int] in everything that is proved below.  Vectors that a
    routine fills by [emplace_back] are the lists it returns.

    [position.cpp] also carries stubs of [makeMove], [isInCheck] and
    [isSquareAttacked]; the definitions of [position_moves.cpp] are the
    ones embedded. *)

From Stdlib Require Import ZArith List String Ascii Bool Lia DecimalString.
From Stdlib Require Import Permutation Sorted.
Import ListNotations.

Local Open Scope string_scope.
Local Open Scope list_scope.
Local Open Scope Z_scope.

(* ================================================================= *)
(** ** types.h *)

Definition Bitboard := Z.
Definition Square := Z.
Definition Piece := Z.

Definition two64 : Z := 18446744073709551616.
Definition wrap64 (z : Z) : Bitboard := z mod two64.

Definition NO_SQUARE : Square := -1.
Definition A1 : Square := 0.
Definition B1 : Square := 1.
Definition C1 : Square := 2.
Definition D1 : Square := 3.
Definition E1 : Square := 4.
Definition F1 : Square := 5.
Definition G1 : Square := 6.
Definition H1 : Square := 7.
Definition A8 : Square := 56.
Definition B8 : Square := 57.
Definition C8 : Square := 58.
Definition D8 : Square := 59.
Definition E8 : Square := 60.
Definition F8 : Square := 61.
Definition G8 : Square := 62.
Definition H8 : Square := 63.

Inductive Color := WHITE | BLACK.

(** [enum PieceType : uint8_t].  [NO_PIECE_TYPE] also stands for the
    out-of-range value that [typeOf] produces on [NO_PIECE]; like that
    value it differs from the six real types and indexes outside the
    six-entry bitboard arrays. *)
Inductive PieceType :=
  PAWN | KNIGHT | BISHOP | ROOK | QUEEN | KING | NO_PIECE_TYPE.

Definition NO_PIECE : Piece := 0.
Definition W_PAWN : Piece := 1.
Definition W_KNIGHT : Piece := 2.
Definition W_BISHOP : Piece := 3.
Definition W_ROOK : Piece := 4.
Definition W_QUEEN : Piece := 5.
Definition W_KING : Piece := 6.
Definition B_PAWN : Piece := 9.
Definition B_KNIGHT : Piece := 10.
Definition B_BISHOP : Piece := 11.
Definition B_ROOK : Piece := 12.
Definition B_QUEEN : Piece := 13.
Definition B_KING : Piece := 14.

Definition NO_CASTLING : Z := 0.
Definition WHITE_OO : Z := 1.
Definition WHITE_OOO : Z := 2.
Definition BLACK_OO : Z := 4.
Definition BLACK_OOO : Z := 8.
Definition ALL_CASTLING : Z := 15.

Inductive MoveType := NORMAL | PROMOTION | EN_PASSANT | CASTLING.

Inductive PromotionType :=
  PROMOTE_TO_QUEEN | PROMOTE_TO_ROOK | PROMOTE_TO_BISHOP | PROMOTE_TO_KNIGHT.

Definition Color_eqb (a b : Color) : bool :=
  match a, b with
  | WHITE, WHITE | BLACK, BLACK => true
  | _, _ => false
  end.

Definition PieceType_to_Z (pt : PieceType) : Z :=
  match pt with
  | PAWN => 0 | KNIGHT => 1 | BISHOP => 2 | ROOK => 3
  | QUEEN => 4 | KING => 5 | NO_PIECE_TYPE => 6
  end.

Definition PieceType_of_Z (z : Z) : PieceType :=
  match z with
  | 0 => PAWN | 1 => KNIGHT | 2 => BISHOP | 3 => ROOK
  | 4 => QUEEN | 5 => KING | _ => NO_PIECE_TYPE
  end.

Definition PieceType_eqb (a b : PieceType) : bool :=
  PieceType_to_Z a =? PieceType_to_Z b.

Definition MoveType_to_Z (t : MoveType) : Z :=
  match t with
  | NORMAL => 0 | PROMOTION => 1 | EN_PASSANT => 2 | CASTLING => 3
  end.

Definition MoveType_of_Z (z : Z) : MoveType :=
  match z with
  | 0 => NORMAL | 1 => PROMOTION | 2 => EN_PASSANT | _ => CASTLING
  end.

Definition PromotionType_to_Z (p : PromotionType) : Z :=
  match p with
  | PROMOTE_TO_QUEEN => 0 | PROMOTE_TO_ROOK => 1
  | PROMOTE_TO_BISHOP => 2 | PROMOTE_TO_KNIGHT => 3
  end.

Definition PromotionType_of_Z (z : Z) : PromotionType :=
  match z with
  | 0 => PROMOTE_TO_QUEEN | 1 => PROMOTE_TO_ROOK
  | 2 => PROMOTE_TO_BISHOP | _ => PROMOTE_TO_KNIGHT
  end.

(** [operator~(Color)] *)
Definition opp (c : Color) : Color :=
  match c with WHITE => BLACK | BLACK => WHITE end.

Definition makeSquare (file rank : Z) : Square := rank * 8 + file.
Definition fileOf (sq : Square) : Z := Z.land sq 7.
Definition rankOf (sq : Square) : Z := Z.shiftr sq 3.

(** Characters are handled through their codes. *)
Definition char_code (c : ascii) : Z := Z.of_N (N_of_ascii c).
Definition code_char (z : Z) : ascii := ascii_of_N (Z.to_N (z mod 256)).

Definition squareToString (sq : Square) : string :=
  if sq =? NO_SQUARE then "-"
  else String (code_char (char_code "a" + fileOf sq))
        (String (code_char (char_code "1" + rankOf sq)) EmptyString).

Definition stringToSquare (str : string) : Square :=
  match str with
  | String c0 (String c1 EmptyString) =>
      let file := char_code c0 - char_code "a" in
      let rank := char_code c1 - char_code "1" in
      if (file <? 0) || (file >? 7) || (rank <? 0) || (rank >? 7)
      then NO_SQUARE
      else makeSquare file rank
  | _ => NO_SQUARE
  end.

(** [1ULL << sq].  The shift is undefined in C++ unless [0 <= sq < 64];
    the model yields the empty bitboard there. *)
Definition squareBB (sq : Square) : Bitboard := wrap64 (Z.shiftl 1 sq).

Fixpoint pos_ctz (p : positive) : Z :=
  match p with
  | xO q => 1 + pos_ctz q
  | _ => 0
  end.

(** [__builtin_ctzll]; undefined on 0, where the model answers 0.
    Properties that are to hold of the program call it on non-empty
    bitboards only, by their hypotheses. *)
Definition lsb (b : Bitboard) : Square :=
  match b with
  | Zpos p => pos_ctz p
  | _ => 0
  end.

(** [popLsb]: the square and the updated bitboard. *)
Definition popLsb (b : Bitboard) : Square * Bitboard :=
  (lsb b, Z.land b (wrap64 (b - 1))).

Fixpoint pos_popcount (p : positive) : Z :=
  match p with
  | xH => 1
  | xO q => pos_popcount q
  | xI q => 1 + pos_popcount q
  end.

Definition popcount (b : Bitboard) : Z :=
  match b with
  | Zpos p => pos_popcount p
  | _ => 0
  end.

(** The squares a [while (b) { sq = popLsb(b); ... }] loop visits, in
    order: the set bits of [b] from the least significant one up. *)
Fixpoint pos_squares (p : positive) (i : Z) : list Square :=
  match p with
  | xH => [i]
  | xO q => pos_squares q (i + 1)
  | xI q => i :: pos_squares q (i + 1)
  end.

Definition squares_of (b : Bitboard) : list Square :=
  match b with
  | Zpos p => pos_squares p 0
  | _ => []
  end.

(** [(p - 1) % 6] with C++ truncating remainder, cast to the enum. *)
Definition typeOf (p : Piece) : PieceType :=
  PieceType_of_Z (Z.rem (p - 1) 6).

Definition colorOf (p : Piece) : Color :=
  if p <? B_PAWN then WHITE else BLACK.

Definition makePiece (c : Color) (pt : PieceType) : Piece :=
  (match c with WHITE => W_PAWN | BLACK => B_PAWN end) + PieceType_to_Z pt.

(* ================================================================= *)
(** ** move.h, move.cpp *)

Record Move := mkMove { data : Z }.

Definition two16 : Z := 65536.

Definition encodeMove (from to : Square) (type : MoveType)
    (promotion : PromotionType) : Z :=
  (Z.lor (Z.lor (Z.lor from (Z.shiftl to 6))
                (Z.shiftl (PromotionType_to_Z promotion) 12))
         (Z.shiftl (MoveType_to_Z type) 14)) mod two16.

Definition NULL_MOVE : Move := mkMove 0.

(** [Move(from, to)] *)
Definition Move2 (from to : Square) : Move :=
  mkMove (encodeMove from to NORMAL PROMOTE_TO_QUEEN).

(** [Move(from, to, type, promotion)] *)
Definition Move4 (from to : Square) (type : MoveType)
    (promotion : PromotionType) : Move :=
  mkMove (encodeMove from to type promotion).

(** [Move(from, to, type)] with the default promotion argument *)
Definition Move3 (from to : Square) (type : MoveType) : Move :=
  Move4 from to type PROMOTE_TO_QUEEN.

Definition from (m : Move) : Square := Z.land (data m) 63.
Definition to (m : Move) : Square := Z.land (Z.shiftr (data m) 6) 63.
Definition type (m : Move) : MoveType :=
  MoveType_of_Z (Z.land (Z.shiftr (data m) 14) 3).
Definition promotionType (m : Move) : PromotionType :=
  PromotionType_of_Z (Z.land (Z.shiftr (data m) 12) 3).

Definition isNull (m : Move) : bool := data m =? 0.
Definition isPromotion (m : Move) : bool :=
  match type m with PROMOTION => true | _ => false end.
Definition isEnPassant (m : Move) : bool :=
  match type m with EN_PASSANT => true | _ => false end.
Definition isCastling (m : Move) : bool :=
  match type m with CASTLING => true | _ => false end.

(** [Move::operator==] *)
Definition Move_eqb (a b : Move) : bool := data a =? data b.

Definition toUCI (m : Move) : string :=
  if isNull m then "0000"
  else
    let uci := (squareToString (from m) ++ squareToString (to m))%string in
    if isPromotion m then
      match promotionType m with
      | PROMOTE_TO_QUEEN => (uci ++ "q")%string
      | PROMOTE_TO_ROOK => (uci ++ "r")%string
      | PROMOTE_TO_BISHOP => (uci ++ "b")%string
      | PROMOTE_TO_KNIGHT => (uci ++ "n")%string
      end
    else uci.

(** [std::tolower] in the "C" locale *)
Definition tolower (c : ascii) : ascii :=
  let z := char_code c in
  if (65 <=? z) && (z <=? 90) then code_char (z + 32) else c.

Definition toupper (c : ascii) : ascii :=
  let z := char_code c in
  if (97 <=? z) && (z <=? 122) then code_char (z - 32) else c.

Definition isdigit (c : ascii) : bool :=
  let z := char_code c in (48 <=? z) && (z <=? 57).

Definition isupper (c : ascii) : bool :=
  let z := char_code c in (65 <=? z) && (z <=? 90).

Definition strlen (s : string) : Z := Z.of_nat (String.length s).

Definition fromUCI (uci : string) : Move :=
  if (strlen uci <? 4) || (strlen uci >? 5) then NULL_MOVE
  else
    let from := stringToSquare (substring 0 2 uci) in
    let to := stringToSquare (substring 2 2 uci) in
    if (from =? NO_SQUARE) || (to =? NO_SQUARE) then NULL_MOVE
    else if strlen uci =? 5 then
      match String.get 4 uci with
      | Some c =>
          let l := tolower c in
          if Ascii.eqb l "q" then Move4 from to PROMOTION PROMOTE_TO_QUEEN
          else if Ascii.eqb l "r" then Move4 from to PROMOTION PROMOTE_TO_ROOK
          else if Ascii.eqb l "b" then Move4 from to PROMOTION PROMOTE_TO_BISHOP
          else if Ascii.eqb l "n" then Move4 from to PROMOTION PROMOTE_TO_KNIGHT
          else NULL_MOVE
      | None => NULL_MOVE
      end
    else if (Z.abs (to - from) =? 2) && ((from =? E1) || (from =? E8))
    then Move3 from to CASTLING
    else Move2 from to.

(* ================================================================= *)
(** ** position.h, position.cpp *)

(** [std::array<std::array<Bitboard, 6>, 2>], indexed [color][piece].
    An index outside the array is undefined behaviour in C++; in the
    model a read there yields 0 and a write is dropped. *)
Definition Boards := list (list Bitboard).

Record Position := mkPosition {
  pieceBitboards : Boards;
  sideToMove : Color;
  castlingRights : Z;
  enPassantSquare : Square;
  halfmoveClock : Z;
  fullmoveNumber : Z;
  zobristHash : Z
}.

Definition color_index (c : Color) : nat :=
  match c with WHITE => 0%nat | BLACK => 1%nat end.

Definition piece_index (pt : PieceType) : nat := Z.to_nat (PieceType_to_Z pt).

Fixpoint update_nth {A : Type} (n : nat) (f : A -> A) (l : list A) : list A :=
  match l, n with
  | [], _ => []
  | x :: r, O => f x :: r
  | x :: r, S k => x :: update_nth k f r
  end.

Definition boards_get (b : Boards) (c : Color) (pt : PieceType) : Bitboard :=
  nth (piece_index pt) (nth (color_index c) b []) 0.

Definition empty_boards : Boards :=
  [[0; 0; 0; 0; 0; 0]; [0; 0; 0; 0; 0; 0]].

Definition not64 (b : Bitboard) : Bitboard := wrap64 (Z.lnot b).

(** [pieceBitboards[color][piece] |= squareBB(square)].  With [piece]
    outside [PAWN .. KING], as [typeOf(NO_PIECE)] is, the C++ writes
    outside the six-entry array, which is undefined; the model drops
    the write.  Properties that are to hold of the program keep clear
    of it by their hypotheses. *)
Definition putPiece (square : Square) (piece : PieceType) (color : Color)
    (b : Boards) : Boards :=
  update_nth (color_index color)
    (update_nth (piece_index piece) (fun bb => Z.lor bb (squareBB square))) b.

Definition clearSquare (square : Square) (b : Boards) : Boards :=
  let sqBB := squareBB square in
  map (map (fun bb => Z.land bb (not64 sqBB))) b.

Definition getPieceBitboard (pos : Position) (piece : PieceType)
    (color : Color) : Bitboard :=
  boards_get (pieceBitboards pos) color piece.

Definition all_piece_types : list PieceType :=
  [PAWN; KNIGHT; BISHOP; ROOK; QUEEN; KING].

Definition getColorBitboard (pos : Position) (color : Color) : Bitboard :=
  fold_left (fun bb pt => Z.lor bb (getPieceBitboard pos pt color))
            all_piece_types 0.

Definition getOccupiedBitboard (pos : Position) : Bitboard :=
  Z.lor (getColorBitboard pos WHITE) (getColorBitboard pos BLACK).

(** The first (colour, type) whose bitboard holds the square. *)
Fixpoint first_piece_on (b : Boards) (sqBB : Bitboard)
    (cands : list (Color * PieceType)) : Piece :=
  match cands with
  | [] => NO_PIECE
  | (c, pt) :: rest =>
      if negb (Z.land (boards_get b c pt) sqBB =? 0) then makePiece c pt
      else first_piece_on b sqBB rest
  end.

Definition piece_scan_order : list (Color * PieceType) :=
  map (pair WHITE) all_piece_types ++ map (pair BLACK) all_piece_types.

Definition getPieceAt (pos : Position) (square : Square) : Piece :=
  first_piece_on (pieceBitboards pos) (squareBB square) piece_scan_order.

(** *** Formatted input from a [std::istringstream]

    The stream is the list of characters still unread together with its
    fail bit.  Once the fail bit is set every later extraction leaves
    its target alone: a string keeps its initial empty value, and an
    [int] member, which the constructor never initialises, is read as 0
    in the model. *)
Record istream := mkStream { rest : list ascii; failed : bool }.

Definition isspace (c : ascii) : bool :=
  let z := char_code c in (z =? 32) || ((9 <=? z) && (z <=? 13)).

Fixpoint skip_ws (l : list ascii) : list ascii :=
  match l with
  | c :: r => if isspace c then skip_ws r else l
  | [] => []
  end.

Fixpoint take_word (l : list ascii) : list ascii * list ascii :=
  match l with
  | c :: r =>
      if isspace c then ([], l)
      else let '(w, r') := take_word r in (c :: w, r')
  | [] => ([], [])
  end.

(** [ss >> str] *)
Definition read_word (ss : istream) : list ascii * istream :=
  if failed ss then ([], ss)
  else
    match skip_ws (rest ss) with
    | [] => ([], mkStream [] true)
    | l => let '(w, r) := take_word l in (w, mkStream r false)
    end.

Fixpoint take_digits (l : list ascii) (acc : Z) (seen : bool)
    : Z * bool * list ascii :=
  match l with
  | c :: r =>
      if isdigit c then take_digits r (acc * 10 + (char_code c - 48)) true
      else (acc, seen, l)
  | [] => (acc, seen, [])
  end.

(** [ss >> n] for an [int]; a value that does not fit an [int] is outside
    the model. *)
Definition read_int (ss : istream) : Z * istream :=
  if failed ss then (0, ss)
  else
    let l := skip_ws (rest ss) in
    let '(sign, body) :=
      match l with
      | c :: r =>
          if Ascii.eqb c "-" then (-1, r)
          else if Ascii.eqb c "+" then (1, r)
          else (1, l)
      | [] => (1, l)
      end in
    let '(v, seen, r) := take_digits body 0 false in
    if seen then (sign * v, mkStream r false) else (0, mkStream r true).

Definition piece_type_of_char (ch : ascii) : option PieceType :=
  if Ascii.eqb ch "p" then Some PAWN
  else if Ascii.eqb ch "n" then Some KNIGHT
  else if Ascii.eqb ch "b" then Some BISHOP
  else if Ascii.eqb ch "r" then Some ROOK
  else if Ascii.eqb ch "q" then Some QUEEN
  else if Ascii.eqb ch "k" then Some KING
  else None.

(** One iteration of the board loop of [initializeFromFEN]. *)
Definition fen_board_step (st : Square * Boards) (ch : ascii)
    : Square * Boards :=
  let '(sq, b) := st in
  if Ascii.eqb ch "/" then (sq - 16, b)
  else if isdigit ch then (sq + (char_code ch - char_code "0"), b)
  else
    let c := if isupper ch then WHITE else BLACK in
    match piece_type_of_char (tolower ch) with
    | Some pt => (sq + 1, putPiece sq pt c b)
    | None => (sq, b)
    end.

Definition fen_castling_step (rights : Z) (ch : ascii) : Z :=
  if Ascii.eqb ch "K" then Z.lor rights WHITE_OO
  else if Ascii.eqb ch "Q" then Z.lor rights WHITE_OOO
  else if Ascii.eqb ch "k" then Z.lor rights BLACK_OO
  else if Ascii.eqb ch "q" then Z.lor rights BLACK_OOO
  else rights.

Definition initializeFromFEN (fen : string) : Position :=
  let ss0 := mkStream (list_ascii_of_string fen) false in
  let '(board, ss1) := read_word ss0 in
  let '(color, ss2) := read_word ss1 in
  let '(castling, ss3) := read_word ss2 in
  let '(enPassant, ss4) := read_word ss3 in
  let '(halfmove, ss5) := read_int ss4 in
  let '(fullmove, _) := read_int ss5 in
  let '(_, b) := fold_left fen_board_step board (A8, empty_boards) in
  let ep := string_of_list_ascii enPassant in
  mkPosition b
    (if String.eqb (string_of_list_ascii color) "w" then WHITE else BLACK)
    (fold_left fen_castling_step castling NO_CASTLING)
    (if String.eqb ep "-" then NO_SQUARE else stringToSquare ep)
    halfmove fullmove 0.

Definition STARTING_FEN : string :=
  "rnbqkbnr/pppppppp/8/8/8/8/PPPPPPPP/RNBQKBNR w KQkq - 0 1".

(** [Position::Position()] *)
Definition startpos : Position := initializeFromFEN STARTING_FEN.

(** [fen << n] for an [int] *)
Definition int_to_string (n : Z) : string :=
  NilZero.string_of_int (Z.to_int n).

Definition char_to_string (c : ascii) : string := String c EmptyString.

Definition fen_piece_char (p : Piece) : ascii :=
  let ch :=
    match typeOf p with
    | PAWN => "p" | KNIGHT => "n" | BISHOP => "b"
    | ROOK => "r" | QUEEN => "q" | KING => "k"
    | NO_PIECE_TYPE => "?"
    end%char in
  match colorOf p with
  | WHITE => toupper ch
  | BLACK => ch
  end.

(** The inner [file] loop of [toFEN] over one rank: the text written so
    far and the running [emptyCount]. *)
Definition fen_file_step (pos : Position) (rank : Z)
    (st : string * Z) (file : Z) : string * Z :=
  let '(out, emptyCount) := st in
  let p := getPieceAt pos (makeSquare file rank) in
  if p =? NO_PIECE then (out, emptyCount + 1)
  else
    let out1 :=
      if emptyCount >? 0 then (out ++ int_to_string emptyCount)%string
      else out in
    ((out1 ++ char_to_string (fen_piece_char p))%string, 0).

Definition files_0_7 : list Z := [0; 1; 2; 3; 4; 5; 6; 7].
Definition ranks_7_0 : list Z := [7; 6; 5; 4; 3; 2; 1; 0].

Definition fen_rank_step (pos : Position) (out : string) (rank : Z)
    : string :=
  let '(out1, emptyCount) :=
    fold_left (fen_file_step pos rank) files_0_7 (out, 0) in
  let out2 :=
    if emptyCount >? 0 then (out1 ++ int_to_string emptyCount)%string
    else out1 in
  if rank >? 0 then (out2 ++ "/")%string else out2.

Definition has_flag (rights flag : Z) : bool :=
  negb (Z.land rights flag =? 0).

Definition toFEN (pos : Position) : string :=
  let board := fold_left (fen_rank_step pos) ranks_7_0 "" in
  let side := match sideToMove pos with WHITE => "w" | BLACK => "b" end in
  let r := castlingRights pos in
  let castling :=
    if r =? NO_CASTLING then "-"
    else ((if has_flag r WHITE_OO then "K" else "") ++
          (if has_flag r WHITE_OOO then "Q" else "") ++
          (if has_flag r BLACK_OO then "k" else "") ++
          (if has_flag r BLACK_OOO then "q" else ""))%string in
  let ep :=
    if enPassantSquare pos =? NO_SQUARE then "-"
    else squareToString (enPassantSquare pos) in
  (board ++ " " ++ side ++ " " ++ castling ++ " " ++ ep ++ " " ++
   int_to_string (halfmoveClock pos) ++ " " ++
   int_to_string (fullmoveNumber pos))%string.

(** [std::array::operator==] on the two-level array *)
Fixpoint list_eqb {A : Type} (eqb : A -> A -> bool) (l1 l2 : list A) : bool :=
  match l1, l2 with
  | [], [] => true
  | x :: r1, y :: r2 => eqb x y && list_eqb eqb r1 r2
  | _, _ => false
  end.

Definition Boards_eqb : Boards -> Boards -> bool := list_eqb (list_eqb Z.eqb).

(** [Position::operator==] *)
Definition Position_eqb (p other : Position) : bool :=
  Boards_eqb (pieceBitboards p) (pieceBitboards other) &&
  Color_eqb (sideToMove p) (sideToMove other) &&
  (castlingRights p =? castlingRights other) &&
  (enPassantSquare p =? enPassantSquare other).

(** [Position::isDraw] *)
Definition isDraw (pos : Position) : bool := halfmoveClock pos >=? 100.

(* ================================================================= *)
(** ** bitboard_attacks.h, bitboard_attacks.cpp *)

Module Direction.
Definition NORTH : Z := 8.
Definition SOUTH : Z := -8.
Definition EAST : Z := 1.
Definition WEST : Z := -1.
Definition NORTH_EAST : Z := 9.
Definition NORTH_WEST : Z := 7.
Definition SOUTH_EAST : Z := -7.
Definition SOUTH_WEST : Z := -9.
End Direction.

Definition FILE_A : Bitboard := 0x0101010101010101.
Definition FILE_H : Bitboard := 0x8080808080808080.

(** [shift<Direction>(b)] *)
Definition shift (d : Z) (b : Bitboard) : Bitboard :=
  if d =? Direction.NORTH then wrap64 (Z.shiftl b 8)
  else if d =? Direction.SOUTH then Z.shiftr b 8
  else if d =? Direction.EAST then wrap64 (Z.shiftl (Z.land b (not64 FILE_H)) 1)
  else if d =? Direction.WEST then Z.shiftr (Z.land b (not64 FILE_A)) 1
  else if d =? Direction.NORTH_EAST
       then wrap64 (Z.shiftl (Z.land b (not64 FILE_H)) 9)
  else if d =? Direction.NORTH_WEST
       then wrap64 (Z.shiftl (Z.land b (not64 FILE_A)) 7)
  else if d =? Direction.SOUTH_EAST then Z.shiftr (Z.land b (not64 FILE_H)) 7
  else if d =? Direction.SOUTH_WEST then Z.shiftr (Z.land b (not64 FILE_A)) 9
  else 0.

Definition on_board (newRank newFile : Z) : bool :=
  (newRank >=? 0) && (newRank <? 8) && (newFile >=? 0) && (newFile <? 8).

(** The body shared by the table initialisers: or together the squares
    reached by the (rank, file) offsets that stay on the board. *)
Definition offsets_attacks (offsets : list (Z * Z)) (sq : Square) : Bitboard :=
  let rank := rankOf sq in
  let file := fileOf sq in
  fold_left
    (fun attacks m =>
       let newRank := rank + fst m in
       let newFile := file + snd m in
       if on_board newRank newFile
       then Z.lor attacks (squareBB (makeSquare newFile newRank))
       else attacks)
    offsets 0.

Definition knight_offsets : list (Z * Z) :=
  [(-2, -1); (-2, 1); (-1, -2); (-1, 2); (1, -2); (1, 2); (2, -1); (2, 1)].

(** One ray of a sliding piece: [n] is the number of iterations the
    [for] loop can make before its bound fails, [(r, f)] the current
    square, [(dr, df)] the step; the loop leaves after the first
    occupied square. *)
Fixpoint ray_walk (n : nat) (r f dr df : Z) (occupied attacks : Bitboard)
    : Bitboard :=
  match n with
  | O => attacks
  | S k =>
      let s := makeSquare f r in
      let attacks' := Z.lor attacks (squareBB s) in
      if negb (Z.land occupied (squareBB s) =? 0) then attacks'
      else ray_walk k (r + dr) (f + df) dr df occupied attacks'
  end.

Definition ray_steps (a b : Z) : nat := Z.to_nat (Z.min a b).

Definition bishop_rays (sq : Square) (occupied : Bitboard) : Bitboard :=
  let rank := rankOf sq in
  let file := fileOf sq in
  (* Northeast: r < 8 && f < 8 *)
  let a1 := ray_walk (ray_steps (7 - rank) (7 - file))
                     (rank + 1) (file + 1) 1 1 occupied 0 in
  (* Southeast: r >= 0 && f < 8 *)
  let a2 := ray_walk (ray_steps rank (7 - file))
                     (rank - 1) (file + 1) (-1) 1 occupied a1 in
  (* Southwest: r >= 0 && f >= 0 *)
  let a3 := ray_walk (ray_steps rank file)
                     (rank - 1) (file - 1) (-1) (-1) occupied a2 in
  (* Northwest: r < 8 && f >= 0 *)
  ray_walk (ray_steps (7 - rank) file)
           (rank + 1) (file - 1) 1 (-1) occupied a3.

Definition rook_rays (sq : Square) (occupied : Bitboard) : Bitboard :=
  let rank := rankOf sq in
  let file := fileOf sq in
  (* North: r < 8 *)
  let a1 := ray_walk (Z.to_nat (7 - rank)) (rank + 1) file 1 0 occupied 0 in
  (* South: r >= 0 *)
  let a2 := ray_walk (Z.to_nat rank) (rank - 1) file (-1) 0 occupied a1 in
  (* East: f < 8 *)
  let a3 := ray_walk (Z.to_nat (7 - file)) rank (file + 1) 0 1 occupied a2 in
  (* West: f >= 0 *)
  ray_walk (Z.to_nat file) rank (file - 1) 0 (-1) occupied a3.

Module Attacks.

(** [initKnightAttacks]: the entry [knightAttacks[sq]] *)
Definition knightAttacks (sq : Square) : Bitboard :=
  offsets_attacks knight_offsets sq.

(** [initKingAttacks]: the nested [dr], [df] loops skipping (0, 0) *)
Definition king_offsets : list (Z * Z) :=
  [(-1, -1); (-1, 0); (-1, 1); (0, -1); (0, 1); (1, -1); (1, 0); (1, 1)].

Definition kingAttacks (sq : Square) : Bitboard :=
  offsets_attacks king_offsets sq.

Definition pawnAttacksBB (pawns : Bitboard) (c : Color) : Bitboard :=
  match c with
  | WHITE => Z.lor (shift Direction.NORTH_WEST pawns)
                   (shift Direction.NORTH_EAST pawns)
  | BLACK => Z.lor (shift Direction.SOUTH_WEST pawns)
                   (shift Direction.SOUTH_EAST pawns)
  end.

Definition knightAttacksBB (sq : Square) : Bitboard := knightAttacks sq.
Definition bishopAttacksBB : Square -> Bitboard -> Bitboard := bishop_rays.
Definition rookAttacksBB : Square -> Bitboard -> Bitboard := rook_rays.
Definition queenAttacksBB (sq : Square) (occupied : Bitboard) : Bitboard :=
  Z.lor (bishopAttacksBB sq occupied) (rookAttacksBB sq occupied).
Definition kingAttacksBB (sq : Square) : Bitboard := kingAttacks sq.

End Attacks.

(* ================================================================= *)
(** ** position_moves.cpp *)

Definition nonzero (b : Z) : bool := negb (b =? 0).

Definition isSquareAttacked (pos : Position) (square : Square)
    (byColor : Color) : bool :=
  let occupied := getOccupiedBitboard pos in
  let enemyPawns := getPieceBitboard pos PAWN byColor in
  let pawnHit :=
    match byColor with
    | WHITE =>
        nonzero (Z.land (Z.lor (shift Direction.SOUTH_WEST (squareBB square))
                               (shift Direction.SOUTH_EAST (squareBB square)))
                        enemyPawns)
    | BLACK =>
        nonzero (Z.land (Z.lor (shift Direction.NORTH_WEST (squareBB square))
                               (shift Direction.NORTH_EAST (squareBB square)))
                        enemyPawns)
    end in
  if pawnHit then true
  else if nonzero (Z.land (Attacks.knightAttacksBB square)
                          (getPieceBitboard pos KNIGHT byColor)) then true
  else if nonzero (Z.land (Attacks.bishopAttacksBB square occupied)
                          (Z.lor (getPieceBitboard pos BISHOP byColor)
                                 (getPieceBitboard pos QUEEN byColor)))
       then true
  else if nonzero (Z.land (Attacks.rookAttacksBB square occupied)
                          (Z.lor (getPieceBitboard pos ROOK byColor)
                                 (getPieceBitboard pos QUEEN byColor)))
       then true
  else if nonzero (Z.land (Attacks.kingAttacksBB square)
                          (getPieceBitboard pos KING byColor)) then true
  else false.

Definition isInCheck (pos : Position) : bool :=
  let kingSquare := lsb (getPieceBitboard pos KING (sideToMove pos)) in
  isSquareAttacked pos kingSquare (opp (sideToMove pos)).

Definition clear_flags (rights flags : Z) : Z := Z.land rights (Z.lnot flags).

(** The castling-rights section of [makeMove]. *)
Definition updateCastlingRights (rights : Z) (pieceType : PieceType)
    (us : Color) (from_ to_ : Square) : Z :=
  let r1 :=
    match pieceType with
    | KING =>
        match us with
        | WHITE => clear_flags rights (Z.lor WHITE_OO WHITE_OOO)
        | BLACK => clear_flags rights (Z.lor BLACK_OO BLACK_OOO)
        end
    | ROOK =>
        if from_ =? A1 then clear_flags rights WHITE_OOO
        else if from_ =? H1 then clear_flags rights WHITE_OO
        else if from_ =? A8 then clear_flags rights BLACK_OOO
        else if from_ =? H8 then clear_flags rights BLACK_OO
        else rights
    | _ => rights
    end in
  if to_ =? A1 then clear_flags r1 WHITE_OOO
  else if to_ =? H1 then clear_flags r1 WHITE_OO
  else if to_ =? A8 then clear_flags r1 BLACK_OOO
  else if to_ =? H8 then clear_flags r1 BLACK_OO
  else r1.

Definition promotedPieceOf (p : PromotionType) : PieceType :=
  match p with
  | PROMOTE_TO_QUEEN => QUEEN
  | PROMOTE_TO_ROOK => ROOK
  | PROMOTE_TO_BISHOP => BISHOP
  | PROMOTE_TO_KNIGHT => KNIGHT
  end.

Definition makeMove (pos : Position) (move : Move) : Position :=
  let from_ := from move in
  let to_ := to move in
  let movedPiece := getPieceAt pos from_ in
  let capturedPiece := getPieceAt pos to_ in
  let pieceType := typeOf movedPiece in
  let us := sideToMove pos in
  let them := opp us in
  (* clear the source square *)
  let b1 := clearSquare from_ (pieceBitboards pos) in
  (* captures *)
  let '(b2, hm2) :=
    if negb (capturedPiece =? NO_PIECE)
    then (clearSquare to_ b1, 0)
    else (b1, halfmoveClock pos + 1) in
  (* special moves *)
  let '(b3, hm3) :=
    if isCastling move then
      let bk := putPiece to_ KING us b2 in
      if to_ >? from_ then
        let rookFrom := match us with WHITE => H1 | BLACK => H8 end in
        let rookTo := match us with WHITE => F1 | BLACK => F8 end in
        (putPiece rookTo ROOK us (clearSquare rookFrom bk), hm2)
      else
        let rookFrom := match us with WHITE => A1 | BLACK => A8 end in
        let rookTo := match us with WHITE => D1 | BLACK => D8 end in
        (putPiece rookTo ROOK us (clearSquare rookFrom bk), hm2)
    else if isEnPassant move then
      let bp := putPiece to_ PAWN us b2 in
      let capturedPawnSq :=
        match us with WHITE => to_ - 8 | BLACK => to_ + 8 end in
      (clearSquare capturedPawnSq bp, 0)
    else if isPromotion move then
      (putPiece to_ (promotedPieceOf (promotionType move)) us b2, 0)
    else
      (putPiece to_ pieceType us b2,
       if PieceType_eqb pieceType PAWN then 0 else hm2) in
  let rights :=
    updateCastlingRights (castlingRights pos) pieceType us from_ to_ in
  let ep :=
    if PieceType_eqb pieceType PAWN && (Z.abs (to_ - from_) =? 16)
    then match us with WHITE => from_ + 8 | BLACK => from_ - 8 end
    else NO_SQUARE in
  mkPosition b3 them rights ep hm3
    (match us with
     | BLACK => fullmoveNumber pos + 1
     | WHITE => fullmoveNumber pos
     end)
    (wrap64 (zobristHash pos + 1)).

(* ================================================================= *)
(** ** move_generator.cpp *)

Module Gen.

(** *** The file-local attack tables *)

Definition pawnAttacks (c : Color) (sq : Square) : Bitboard :=
  let sqBB := squareBB sq in
  let file := fileOf sq in
  match c with
  | WHITE =>
      Z.lor (if file >? 0 then wrap64 (Z.shiftl sqBB 7) else 0)
            (if file <? 7 then wrap64 (Z.shiftl sqBB 9) else 0)
  | BLACK =>
      Z.lor (if file >? 0 then Z.shiftr sqBB 9 else 0)
            (if file <? 7 then Z.shiftr sqBB 7 else 0)
  end.

Definition knightAttacks (sq : Square) : Bitboard :=
  offsets_attacks knight_offsets sq.

Definition kingMoves : list (Z * Z) :=
  [(-1, -1); (-1, 0); (-1, 1); (0, -1); (0, 1); (1, -1); (1, 0); (1, 1)].

Definition kingAttacks (sq : Square) : Bitboard :=
  offsets_attacks kingMoves sq.

Definition getRookAttacks : Square -> Bitboard -> Bitboard := rook_rays.
Definition getBishopAttacks : Square -> Bitboard -> Bitboard := bishop_rays.

(** *** [MoveGenerator::Impl]

    Each [generate...] routine appends to the vector [moves]; here it
    returns the moves it appends, in order. *)

Definition promotions (from_ to_ : Square) : list Move :=
  [Move4 from_ to_ PROMOTION PROMOTE_TO_QUEEN;
   Move4 from_ to_ PROMOTION PROMOTE_TO_ROOK;
   Move4 from_ to_ PROMOTION PROMOTE_TO_BISHOP;
   Move4 from_ to_ PROMOTION PROMOTE_TO_KNIGHT].

(** The body of the [while (pawns)] loop for the pawn on [from_]. *)
Definition pawnMovesFrom (pos : Position) (us : Color)
    (theirPieces occupied : Bitboard) (from_ : Square) : list Move :=
  let pawnPush := match us with WHITE => 8 | BLACK => -8 end in
  let doublePush := match us with WHITE => 16 | BLACK => -16 end in
  let rank2 := match us with WHITE => 0xFF00 | BLACK => 0x00FF000000000000 end in
  let rank7 := match us with WHITE => 0x00FF000000000000 | BLACK => 0xFF00 end in
  let to_ := from_ + pawnPush in
  let pushes :=
    if negb (nonzero (Z.land occupied (squareBB to_))) then
      if nonzero (Z.land (squareBB from_) rank7) then promotions from_ to_
      else
        Move2 from_ to_ ::
        (if nonzero (Z.land (squareBB from_) rank2) &&
            negb (nonzero (Z.land occupied (squareBB (from_ + doublePush))))
         then [Move2 from_ (from_ + doublePush)]
         else [])
    else [] in
  let attacks := Z.land (pawnAttacks us from_) theirPieces in
  let captures :=
    flat_map
      (fun captureSq =>
         if nonzero (Z.land (squareBB from_) rank7)
         then promotions from_ captureSq
         else [Move2 from_ captureSq])
      (squares_of attacks) in
  let epSquare := enPassantSquare pos in
  let enPassant :=
    if negb (epSquare =? NO_SQUARE) &&
       nonzero (Z.land (pawnAttacks us from_) (squareBB epSquare))
    then [Move3 from_ epSquare EN_PASSANT]
    else [] in
  pushes ++ captures ++ enPassant.

Definition generatePawnMoves (pos : Position) (us : Color)
    (ourPieces theirPieces occupied : Bitboard) : list Move :=
  flat_map (pawnMovesFrom pos us theirPieces occupied)
           (squares_of (getPieceBitboard pos PAWN us)).

(** [getAttacks<PT>] *)
Definition getAttacks (PT : PieceType) (sq : Square) (occupied : Bitboard)
    : Bitboard :=
  match PT with
  | KNIGHT => knightAttacks sq
  | BISHOP => getBishopAttacks sq occupied
  | ROOK => getRookAttacks sq occupied
  | QUEEN => Z.lor (getBishopAttacks sq occupied) (getRookAttacks sq occupied)
  | _ => 0
  end.

(** [generatePieceMoves<PT>] *)
Definition generatePieceMoves (PT : PieceType) (pos : Position) (us : Color)
    (ourPieces occupied : Bitboard) : list Move :=
  flat_map
    (fun from_ =>
       let attacks := Z.land (getAttacks PT from_ occupied) (not64 ourPieces) in
       map (fun to_ => Move2 from_ to_) (squares_of attacks))
    (squares_of (getPieceBitboard pos PT us)).

Definition generateKingMoves (pos : Position) (us : Color)
    (ourPieces occupied : Bitboard) : list Move :=
  let kingSquare := lsb (getPieceBitboard pos KING us) in
  let attacks := Z.land (kingAttacks kingSquare) (not64 ourPieces) in
  map (fun to_ => Move2 kingSquare to_) (squares_of attacks).

Definition generateCastlingMoves (pos : Position) (us : Color)
    (occupied : Bitboard) : list Move :=
  if isInCheck pos then []
  else
    let rights := castlingRights pos in
    match us with
    | WHITE =>
        (if has_flag rights WHITE_OO &&
            negb (nonzero (Z.land occupied (Z.lor (squareBB F1) (squareBB G1)))) &&
            negb (isSquareAttacked pos F1 BLACK) &&
            negb (isSquareAttacked pos G1 BLACK)
         then [Move3 E1 G1 CASTLING] else [])
        ++
        (if has_flag rights WHITE_OOO &&
            negb (nonzero (Z.land occupied
                     (Z.lor (Z.lor (squareBB B1) (squareBB C1)) (squareBB D1)))) &&
            negb (isSquareAttacked pos C1 BLACK) &&
            negb (isSquareAttacked pos D1 BLACK)
         then [Move3 E1 C1 CASTLING] else [])
    | BLACK =>
        (if has_flag rights BLACK_OO &&
            negb (nonzero (Z.land occupied (Z.lor (squareBB F8) (squareBB G8)))) &&
            negb (isSquareAttacked pos F8 WHITE) &&
            negb (isSquareAttacked pos G8 WHITE)
         then [Move3 E8 G8 CASTLING] else [])
        ++
        (if has_flag rights BLACK_OOO &&
            negb (nonzero (Z.land occupied
                     (Z.lor (Z.lor (squareBB B8) (squareBB C8)) (squareBB D8)))) &&
            negb (isSquareAttacked pos C8 WHITE) &&
            negb (isSquareAttacked pos D8 WHITE)
         then [Move3 E8 C8 CASTLING] else [])
    end.

Definition generateAllMoves (pos : Position) : list Move :=
  let us := sideToMove pos in
  let ourPieces := getColorBitboard pos us in
  let theirPieces := getColorBitboard pos (opp us) in
  let occupied := Z.lor ourPieces theirPieces in
  generatePawnMoves pos us ourPieces theirPieces occupied ++
  generatePieceMoves KNIGHT pos us ourPieces occupied ++
  generatePieceMoves BISHOP pos us ourPieces occupied ++
  generatePieceMoves ROOK pos us ourPieces occupied ++
  generatePieceMoves QUEEN pos us ourPieces occupied ++
  generateKingMoves pos us ourPieces occupied ++
  generateCastlingMoves pos us occupied.

End Gen.

(** *** [MoveGenerator] *)

Definition generatePseudoLegalMoves (position : Position) : list Move :=
  Gen.generateAllMoves position.

Definition generateLegalMoves (position : Position) : list Move :=
  filter (fun move => negb (isInCheck (makeMove position move)))
         (generatePseudoLegalMoves position).

(** The predicate of [generateCaptures] *)
Definition isCaptureMove (position : Position) (move : Move) : bool :=
  negb (getPieceAt position (to move) =? NO_PIECE) || isEnPassant move.

(** The predicate of [generateQuietMoves] *)
Definition isQuietMove (position : Position) (move : Move) : bool :=
  (getPieceAt position (to move) =? NO_PIECE) && negb (isEnPassant move).

Definition generateCaptures (position : Position) : list Move :=
  filter (isCaptureMove position) (generatePseudoLegalMoves position).

Definition generateQuietMoves (position : Position) : list Move :=
  filter (isQuietMove position) (generatePseudoLegalMoves position).

Definition isLegal (position : Position) (move : Move) : bool :=
  negb (isInCheck (makeMove position move)).

(* ================================================================= *)
(** ** evaluator.h, evaluator.cpp *)

Module PieceValue.
Definition PAWN : Z := 100.
Definition KNIGHT : Z := 320.
Definition BISHOP : Z := 330.
Definition ROOK : Z := 500.
Definition QUEEN : Z := 900.
Definition KING : Z := 20000.
End PieceValue.

(** [Evaluator::Impl::isEndgame] *)
Definition isEndgame (pos : Position) : bool :=
  let t0 := 0 in
  let t1 := t0 + popcount (getPieceBitboard pos QUEEN WHITE) * PieceValue.QUEEN in
  let t2 := t1 + popcount (getPieceBitboard pos QUEEN BLACK) * PieceValue.QUEEN in
  let t3 := t2 + popcount (getPieceBitboard pos ROOK WHITE) * PieceValue.ROOK in
  let totalMaterial :=
    t3 + popcount (getPieceBitboard pos ROOK BLACK) * PieceValue.ROOK in
  totalMaterial <? 2000.

(* ================================================================= *)
(** ** chess_analyzer.cpp *)

Record SearchResult := mkSearchResult { move : Move; score : Z }.

Definition INT_MAX : Z := 2147483647.

(** The comparator handed to [std::sort] in [search]:
    [aCapture > bCapture] on [bool]s. *)
Definition captureFirst (pos : Position) (a b : Move) : bool :=
  let aCapture := negb (getPieceAt pos (to a) =? NO_PIECE) in
  let bCapture := negb (getPieceAt pos (to b) =? NO_PIECE) in
  aCapture && negb bCapture.

(** What the C++ standard asks of a comparator. *)
Definition strict_weak_order {A : Type} (comp : A -> A -> bool) : Prop :=
  (forall x, comp x x = false) /\
  (forall x y z, comp x y = true -> comp y z = true -> comp x z = true) /\
  (forall x y z,
     comp x y = false -> comp y x = false ->
     comp y z = false -> comp z y = false ->
     comp x z = false /\ comp z x = false).

(** What the C++ standard promises of [std::sort]: the range is permuted
    and no element is ordered before one that precedes it.  The order
    of equivalent elements is left open. *)
Definition sorted_by {A : Type} (comp : A -> A -> bool) (l : list A) : Prop :=
  StronglySorted (fun x y => comp y x = false) l.

Definition sort_contract
    (sort : (Move -> Move -> bool) -> list Move -> list Move) : Prop :=
  forall comp l,
    strict_weak_order comp ->
    Permutation l (sort comp l) /\ sorted_by comp (sort comp l).

Section Search.

(** [Evaluator::evaluate], an [int]-valued function of the position;
    the search is modelled for any such function. *)
Variable evaluate : Position -> Z.

(** [std::sort] *)
Variable std_sort : (Move -> Move -> bool) -> list Move -> list Move.

(** The [for (const Move& move : moves)] loop of [search]; [rec] is
    the recursive call at [depth - 1]. *)
Fixpoint search_loop (rec : Position -> Z -> Z -> SearchResult)
    (pos : Position) (moves : list Move) (alpha beta : Z)
    (best : SearchResult) : SearchResult :=
  match moves with
  | [] => best
  | m :: rest =>
      let newPos := makeMove pos m in
      let result := rec newPos (- beta) (- alpha) in
      let result_score := - score result in
      let best' :=
        if result_score >? score best
        then mkSearchResult m result_score
        else best in
      let alpha' := Z.max alpha result_score in
      if alpha' >=? beta then best'
      else search_loop rec pos rest alpha' beta best'
  end.

(** [ChessAnalyzer::Impl::search]; [depth] is the non-negative [int]
    of the C++ code. *)
Fixpoint search (depth : nat) (pos : Position) (alpha beta : Z)
    : SearchResult :=
  match depth with
  | O => mkSearchResult NULL_MOVE (evaluate pos)
  | S d =>
      let moves := generateLegalMoves pos in
      match moves with
      | [] =>
          if isInCheck pos
          then mkSearchResult NULL_MOVE (-20000 + Z.of_nat depth)
          else mkSearchResult NULL_MOVE 0
      | m0 :: _ =>
          let best := mkSearchResult m0 (- INT_MAX) in
          let moves' := std_sort (captureFirst pos) moves in
          search_loop (search d) pos moves' alpha beta best
      end
  end.

(** [ChessAnalyzer::findBestMove] *)
Definition findBestMove (position : Position) (depth : nat) : Move :=
  move (search depth position (- INT_MAX) INT_MAX).

End Search.

(** A conforming [std::sort]: straight insertion, which is what
    libstdc++ runs on ranges of at most sixteen elements. *)
Fixpoint insert_by {A : Type} (comp : A -> A -> bool) (x : A) (l : list A)
    : list A :=
  match l with
  | [] => [x]
  | y :: r => if comp x y then x :: l else y :: insert_by comp x r
  end.

Definition insertion_sort {A : Type} (comp : A -> A -> bool) (l : list A)
    : list A :=
  fold_left (fun acc x => insert_by comp x acc) l [].

(** An evaluator to run the search with: the material balance from the
    side to move's point of view. *)
Definition material_eval (pos : Position) : Z :=
  let count c pt v := popcount (getPieceBitboard pos pt c) * v in
  let side c :=
    count c PAWN PieceValue.PAWN + count c KNIGHT PieceValue.KNIGHT +
    count c BISHOP PieceValue.BISHOP + count c ROOK PieceValue.ROOK +
    count c QUEEN PieceValue.QUEEN + count c KING PieceValue.KING in
  match sideToMove pos with
  | WHITE => side WHITE - side BLACK
  | BLACK => side BLACK - side WHITE
  end.

(* ================================================================= *)
(** ** pgn_parser.cpp *)

(** [std::string] values are handled as character lists here. *)
Definition chars := list ascii.

Definition chars_eqb (a : chars) (b : string) : bool :=
  String.eqb (string_of_list_ascii a) b.

Fixpoint find_char (c : ascii) (l : chars) : option nat :=
  match l with
  | [] => None
  | d :: r =>
      if Ascii.eqb d c then Some O
      else match find_char c r with
           | Some n => Some (S n)
           | None => None
           end
  end.

(** [str.erase(pos, 1)] *)
Fixpoint erase_at (n : nat) (l : chars) : chars :=
  match l, n with
  | [], _ => []
  | _ :: r, O => r
  | d :: r, S k => d :: erase_at k r
  end.

Definition char_in_range (lo hi c : ascii) : bool :=
  (char_code lo <=? char_code c) && (char_code c <=? char_code hi).

(** The [matches] flag of the disambiguation loop. *)
Definition disambiguation_matches (m : Move) (str : chars) : bool :=
  forallb
    (fun c =>
       if char_in_range "a" "h" c
       then fileOf (from m) =? char_code c - char_code "a"
       else if char_in_range "1" "8" c
       then rankOf (from m) =? char_code c - char_code "1"
       else true)
    str.

(** The filter of the candidate loop. *)
Definition san_candidate (pos : Position) (to_ : Square)
    (pieceType : PieceType) (isCapture isPromo : bool)
    (promotion : PromotionType) (m : Move) : bool :=
  if negb (to m =? to_) then false
  else if negb (PieceType_eqb (typeOf (getPieceAt pos (from m))) pieceType)
  then false
  else if isCapture && (getPieceAt pos to_ =? NO_PIECE) && negb (isEnPassant m)
  then false
  else if negb isCapture &&
          (negb (getPieceAt pos to_ =? NO_PIECE) || isEnPassant m)
  then false
  else if isPromo && negb (isPromotion m) then false
  else if negb isPromo && isPromotion m then false
  else if isPromo &&
          negb (PromotionType_to_Z (promotionType m) =?
                PromotionType_to_Z promotion)
  then false
  else true.

(** The part of [parseAlgebraicMoveImpl] after the destination square
    has been split off: piece letter, candidates, disambiguation. *)
Definition san_resolve (pos : Position) (to_ : Square) (str : chars)
    (isCapture isPromo : bool) (promotion : PromotionType) : Move :=
  let piece :=
    match str with
    | c :: r =>
        if isupper c then
          if Ascii.eqb c "N" then Some (KNIGHT, r)
          else if Ascii.eqb c "B" then Some (BISHOP, r)
          else if Ascii.eqb c "R" then Some (ROOK, r)
          else if Ascii.eqb c "Q" then Some (QUEEN, r)
          else if Ascii.eqb c "K" then Some (KING, r)
          else None
        else Some (PAWN, str)
    | [] => Some (PAWN, str)
    end in
  match piece with
  | None => NULL_MOVE
  | Some (pieceType, str') =>
      let legalMoves := generateLegalMoves pos in
      let candidates :=
        filter (san_candidate pos to_ pieceType isCapture isPromo promotion)
               legalMoves in
      let candidates' :=
        if (1 <? Z.of_nat (List.length candidates)) &&
           negb (Nat.eqb (List.length str') 0)
        then filter (fun m => disambiguation_matches m str') candidates
        else candidates in
      match candidates' with
      | [m] => m
      | _ => NULL_MOVE
      end
  end.

Definition parseAlgebraicMoveImpl (pos : Position) (moveStr : string) : Move :=
  let s0 := list_ascii_of_string moveStr in
  if Nat.eqb (List.length s0) 0 then NULL_MOVE
  else if String.eqb moveStr "O-O" || String.eqb moveStr "0-0" then
    let kingSquare := match sideToMove pos with WHITE => E1 | BLACK => E8 end in
    let targetSquare := match sideToMove pos with WHITE => G1 | BLACK => G8 end in
    Move3 kingSquare targetSquare CASTLING
  else if String.eqb moveStr "O-O-O" || String.eqb moveStr "0-0-0" then
    let kingSquare := match sideToMove pos with WHITE => E1 | BLACK => E8 end in
    let targetSquare := match sideToMove pos with WHITE => C1 | BLACK => C8 end in
    Move3 kingSquare targetSquare CASTLING
  else
    (* remove check / checkmate symbols *)
    let back1 := last s0 "000"%char in
    let s1 :=
      if Ascii.eqb back1 "+" || Ascii.eqb back1 "#" then removelast s0
      else s0 in
    (* extract promotion *)
    let n1 := List.length s1 in
    let hasPromo :=
      (2 <=? n1)%nat && Ascii.eqb (nth (n1 - 2) s1 "000"%char) "=" in
    let promo :=
      if hasPromo then
        let l := tolower (last s1 "000"%char) in
        if Ascii.eqb l "q" then Some PROMOTE_TO_QUEEN
        else if Ascii.eqb l "r" then Some PROMOTE_TO_ROOK
        else if Ascii.eqb l "b" then Some PROMOTE_TO_BISHOP
        else if Ascii.eqb l "n" then Some PROMOTE_TO_KNIGHT
        else None
      else Some PROMOTE_TO_QUEEN in
    match promo with
    | None => NULL_MOVE
    | Some promotion =>
        let s2 := if hasPromo then firstn (n1 - 2) s1 else s1 in
        (* extract capture *)
        let capturePos := find_char "x" s2 in
        let isCapture := match capturePos with Some _ => true | None => false end in
        let s3 := match capturePos with Some k => erase_at k s2 | None => s2 end in
        (* extract destination square *)
        let n3 := List.length s3 in
        if (n3 <? 2)%nat then NULL_MOVE
        else
          let destStr := skipn (n3 - 2) s3 in
          let to_ := stringToSquare (string_of_list_ascii destStr) in
          if to_ =? NO_SQUARE then NULL_MOVE
          else san_resolve pos to_ (firstn (n3 - 2) s3)
                           isCapture hasPromo promotion
    end.

(** [removeCommentsAndVariations] *)
Definition strip_step (st : Z * Z * chars) (c : ascii) : Z * Z * chars :=
  let '(braceLevel, parenLevel, result) := st in
  if Ascii.eqb c "{" then (braceLevel + 1, parenLevel, result)
  else if Ascii.eqb c "}" then (braceLevel - 1, parenLevel, result)
  else if Ascii.eqb c "(" then (braceLevel, parenLevel + 1, result)
  else if Ascii.eqb c ")" then (braceLevel, parenLevel - 1, result)
  else if (braceLevel =? 0) && (parenLevel =? 0)
  then (braceLevel, parenLevel, (result ++ [c])%list)
  else st.

Definition removeCommentsAndVariations (text : chars) : chars :=
  snd (fold_left strip_step text (0, 0, [])).

(** The tokens that [while (stream >> token)] reads: the maximal runs
    of non-space characters; [cur] is the run being read, reversed. *)
Fixpoint split_ws (l : chars) (cur : chars) : list chars :=
  match l with
  | [] => match cur with [] => [] | _ => [rev cur] end
  | c :: r =>
      if isspace c then
        match cur with
        | [] => split_ws r []
        | _ => rev cur :: split_ws r []
        end
      else split_ws r (c :: cur)
  end.

(** The body of the loop of [tokenize] for one token. *)
Definition split_move_number (token : chars) : list chars :=
  match find_char "." token with
  | Some dotPos =>
      if (dotPos + 1 <? List.length token)%nat
      then [firstn (dotPos + 1) token; skipn (dotPos + 1) token]
      else [token]
  | None => [token]
  end.

Definition tokenize (text : chars) : list chars :=
  flat_map split_move_number (split_ws text []).

(** The test that makes the loop of [parseMoveText] [continue].
    [token[0]] of an empty string is the terminating null character. *)
Definition skipToken (token : chars) : bool :=
  isdigit (hd "000"%char token) ||
  chars_eqb token "1-0" || chars_eqb token "0-1" ||
  chars_eqb token "1/2-1/2" || chars_eqb token "*".

(** The state the loop of [parseMoveText] carries: the running
    position, the moves pushed so far and [lastError]. *)
Fixpoint interpretTokens (tokens : list chars) (pos : Position)
    (moves : list Move) (lastError : string) : list Move * string :=
  match tokens with
  | [] => (moves, lastError)
  | token :: rest =>
      if skipToken token then interpretTokens rest pos moves lastError
      else
        let m := parseAlgebraicMoveImpl pos (string_of_list_ascii token) in
        if negb (isNull m)
        then interpretTokens rest (makeMove pos m) (moves ++ [m])%list lastError
        else (moves,
              ("Invalid move: " ++ string_of_list_ascii token)%string)
  end.

(** [PGNParser::Impl::parseMoveText]; [lastError] is the member the
    method may overwrite, passed in and returned. *)
Definition parseMoveText (moveText initialFEN : string) (lastError : string)
    : list Move * string :=
  let pos :=
    initializeFromFEN
      (if String.eqb initialFEN "" then STARTING_FEN else initialFEN) in
  let cleanText :=
    removeCommentsAndVariations (list_ascii_of_string moveText) in
  let tokens := tokenize cleanText in
  interpretTokens tokens pos [] lastError.

(* ================================================================= *)
(** ** Notions used to state the properties *)

(** *** Lists and ranges *)

(** The integers [start], [start + 1], ... ([n] of them). *)
Fixpoint Z_range (n : nat) (start : Z) : list Z :=
  match n with
  | O => []
  | S k => start :: Z_range k (start + 1)
  end.

(** [l] merges [l1] and [l2], keeping the order inside each. *)
Inductive Interleave {A : Type} : list A -> list A -> list A -> Prop :=
| Interleave_nil : Interleave [] [] []
| Interleave_left x l1 l2 l :
    Interleave l1 l2 l -> Interleave (x :: l1) l2 (x :: l)
| Interleave_right x l1 l2 l :
    Interleave l1 l2 l -> Interleave l1 (x :: l2) (x :: l).

(** No element satisfying [P] comes after an element satisfying [Q]. *)
Definition never_after {A : Type} (P Q : A -> bool) (l : list A) : Prop :=
  forall pre b post,
    l = pre ++ b :: post -> Q b = true ->
    forall a, In a post -> P a = false.

(** [sorted_by] as a test. *)
Fixpoint sorted_byb {A : Type} (comp : A -> A -> bool) (l : list A) : bool :=
  match l with
  | [] => true
  | x :: r => forallb (fun y => negb (comp y x)) r && sorted_byb comp r
  end.

(** Another conforming [std::sort]: it reverses the order of
    equivalent elements. *)
Definition reversing_sort {A : Type} (comp : A -> A -> bool) (l : list A)
    : list A :=
  insertion_sort comp (rev l).

(** *** Bitboards *)

(** Every bitboard of the position is a [uint64_t] value. *)
Definition wf_bitboardsb (pos : Position) : bool :=
  forallb (forallb (fun bb => (0 <=? bb) && (bb <? two64))) (pieceBitboards pos).

Definition wf_bitboards (pos : Position) : Prop := wf_bitboardsb pos = true.

(** The squares of [b], numbered from [i] on. *)
Definition squares_from (b : Z) (i : Z) : list Square :=
  match b with
  | Zpos p => pos_squares p i
  | _ => []
  end.

(** An attack table entry is a [uint64_t] that misses its own square. *)
Definition attack_table_ok (table : Square -> Bitboard) (sq : Square) : bool :=
  (0 <=? table sq) && (table sq <? two64) && negb (Z.testbit (table sq) sq).

(** No black pawn stands on the first rank (it could only be pushed
    off the board). *)
Definition no_black_pawn_on_rank_1 (pos : Position) : Prop :=
  Z.land (getPieceBitboard pos PAWN BLACK) 255 = 0.

Definition black_rank_7 : Bitboard := 0x00FF000000000000.

(** Number of pieces of a type on the board, both colours. *)
Definition count_pieces (pos : Position) (pt : PieceType) : Z :=
  Z.of_nat (List.length (squares_of (getPieceBitboard pos pt WHITE))) +
  Z.of_nat (List.length (squares_of (getPieceBitboard pos pt BLACK))).

(** Total material that is neither pawn nor king. *)
Definition nonPawnNonKingMaterial (pos : Position) : Z :=
  count_pieces pos KNIGHT * PieceValue.KNIGHT +
  count_pieces pos BISHOP * PieceValue.BISHOP +
  count_pieces pos ROOK * PieceValue.ROOK +
  count_pieces pos QUEEN * PieceValue.QUEEN.

(** *** Move words *)

(** A [uint16_t] move word. *)
Definition move_word (m : Move) : Prop := 0 <= data m < two16.

(** Bits 12-13 of the move word. *)
Definition promotion_bits (m : Move) : Z := Z.land (Z.shiftr (data m) 12) 3.

(** The king's two-square step that [fromUCI] reads as castling. *)
Definition king_step_shape (m : Move) : bool :=
  (Z.abs (to m - from m) =? 2) && ((from m =? E1) || (from m =? E8)).

(** The moves that survive a UCI round trip: promotions, and normal
    moves with clear promotion bits that do not have the shape of a
    king's castling step. *)
Definition uci_plain (m : Move) : bool :=
  match type m with
  | PROMOTION => true
  | NORMAL => (promotion_bits m =? 0) && negb (king_step_shape m)
  | EN_PASSANT | CASTLING => false
  end.

(** The check behind the UCI round trip, on a raw move word. *)
Definition uci_roundtrip_check (d : Z) : bool :=
  negb (uci_plain (mkMove d)) ||
  Move_eqb (fromUCI (toUCI (mkMove d))) (mkMove d).

(** The shape of a move that the pawn, piece and king routines emit:
    built from a square of the board to another square, at least [lo],
    with a type other than castling.  A pawn on its last rank would be
    pushed off the board, hence the slack around [0 .. 63]. *)
Definition generated_shape (lo : Z) (m : Move) : Prop :=
  exists f t ty pr,
    m = Move4 f t ty pr /\ 0 <= f < 64 /\ lo <= t < 80 /\ t <> f /\
    ty <> CASTLING.

(** The four moves that [generateCastlingMoves] can emit. *)
Definition castling_moves : list Move :=
  [Move3 E1 G1 CASTLING; Move3 E1 C1 CASTLING;
   Move3 E8 G8 CASTLING; Move3 E8 C8 CASTLING].

Definition castling_words : list Z := map data castling_moves.

(** What every move word of the generated shape is tested for: it is
    not the null move, it is none of the four castling words, and its
    type bits do not read as castling when the destination is not
    negative. *)
Definition shape_check (f t : Z) : bool :=
  (t =? f) ||
  forallb
    (fun ty =>
       forallb
         (fun pr =>
            let m := Move4 f t ty pr in
            negb (isNull m) &&
            negb (existsb (Z.eqb (data m)) castling_words) &&
            ((t <? 0) || negb (isCastling m)))
         [PROMOTE_TO_QUEEN; PROMOTE_TO_ROOK; PROMOTE_TO_BISHOP;
          PROMOTE_TO_KNIGHT])
    [NORMAL; PROMOTION; EN_PASSANT].

(** *** Castling conditions *)

Definition squares_empty (pos : Position) (sqs : list Square) : Prop :=
  Forall (fun sq => getPieceAt pos sq = NO_PIECE) sqs.

Definition squares_safe (pos : Position) (sqs : list Square) : Prop :=
  Forall (fun sq => isSquareAttacked pos sq (opp (sideToMove pos)) = false) sqs.

(** The square [isInCheck] and the king routines take for the king. *)
Definition kingSquareOf (pos : Position) : Square :=
  lsb (getPieceBitboard pos KING (sideToMove pos)).

(** The side to move is not in check, holds the right, the squares
    [between] king and rook are empty, and neither the king's square
    nor the squares [crossed] on the way to the destination (included)
    are attacked by the other side. *)
Definition castling_allowed (pos : Position) (right : Z)
    (between crossed : list Square) : Prop :=
  isInCheck pos = false /\
  has_flag (castlingRights pos) right = true /\
  squares_empty pos between /\
  squares_safe pos (kingSquareOf pos :: crossed).

(** *** Move ordering *)

Definition destinationOccupied (pos : Position) (m : Move) : bool :=
  negb (getPieceAt pos (to m) =? NO_PIECE).

(** Captures first, stably: the captures (destination occupied or en
    passant) in generator order, then the other moves in generator
    order. *)
Definition capturesFirstStable (pos : Position) (l : list Move) : list Move :=
  filter (isCaptureMove pos) l ++
  filter (fun m => negb (isCaptureMove pos m)) l.

(** *** Move-text interpretation, rule by rule *)

Definition first_char (token : chars) : ascii := hd "000"%char token.

(** A move number: it starts with a digit and ends with a dot. *)
Definition isMoveNumberToken (token : chars) : bool :=
  isdigit (first_char token) && Ascii.eqb (last token "000"%char) ".".

Definition isResultToken (token : chars) : bool :=
  chars_eqb token "1-0" || chars_eqb token "0-1" ||
  chars_eqb token "1/2-1/2" || chars_eqb token "*".

Definition token_text (token : chars) : string := string_of_list_ascii token.

(** [Interprets tokens pos moves err r]: reading [tokens] from the
    running position [pos], with [moves] gathered so far and [err] in
    [lastError], ends with the moves and the error text [r].  Move
    numbers and result tokens are passed over; a token that does not
    start with a digit and is not a result is resolved as SAN and
    applied; the first such token that does not resolve stops the
    reading.  Other tokens that start with a digit are not covered. *)
Inductive Interprets :
  list chars -> Position -> list Move -> string ->
  list Move * string -> Prop :=
| Interprets_end pos moves err :
    Interprets [] pos moves err (moves, err)
| Interprets_skip token rest pos moves err r :
    isMoveNumberToken token = true \/ isResultToken token = true ->
    Interprets rest pos moves err r ->
    Interprets (token :: rest) pos moves err r
| Interprets_move token rest pos moves err r m :
    isdigit (first_char token) = false ->
    isResultToken token = false ->
    parseAlgebraicMoveImpl pos (token_text token) = m ->
    isNull m = false ->
    Interprets rest (makeMove pos m) (moves ++ [m]) err r ->
    Interprets (token :: rest) pos moves err r
| Interprets_stop token rest pos moves err :
    isdigit (first_char token) = false ->
    isResultToken token = false ->
    isNull (parseAlgebraicMoveImpl pos (token_text token)) = true ->
    Interprets (token :: rest) pos moves err
      (moves, ("Invalid move: " ++ token_text token)%string).

(** The position [parseMoveText] starts from. *)
Definition initialPosition (initialFEN : string) : Position :=
  initializeFromFEN
    (if String.eqb initialFEN "" then STARTING_FEN else initialFEN).

(** The tokens [parseMoveText] loops over. *)
Definition moveTextTokens (moveText : string) : list chars :=
  tokenize (removeCommentsAndVariations (list_ascii_of_string moveText)).

(** *** Positions used in examples *)

(** Kings, four knights, four bishops and two rooks. *)
Definition minor_piece_position : Position :=
  initializeFromFEN "1nb1kbn1/r7/8/8/8/8/R7/1NB1KBN1 w - - 0 1".

(** A rook on e1 that can slide to g1. *)
Definition rook_on_e1_position : Position :=
  initializeFromFEN "4k3/8/8/8/8/8/8/K3R3 w - - 0 1".

(** Both sides may still castle either way; Black to move. *)
Definition black_castling_position : Position :=
  initializeFromFEN "r3k2r/8/8/8/8/8/8/R3K2R b KQkq - 0 1".

(** White may castle king's side. *)
Definition white_kingside_fen : string := "4k3/8/8/8/8/8/8/4K2R w K - 0 1".

Definition white_kingside_position : Position :=
  initializeFromFEN white_kingside_fen.

(** White may capture en passant on d6 or take the pawn on h7. *)
Definition en_passant_position : Position :=
  initializeFromFEN "4k3/7p/8/3pP3/8/8/8/4K2R w - d6 0 1".

(** A board on which White, to move, has no pseudo-legal move. *)
Definition immobile_position : Position :=
  initializeFromFEN
    "kBBBBBBB/PRPPPPPP/PPPPPPPP/PPPPPPPP/PPPPPPPP/PPPPPPPP/PPPPPPPP/KBBBBBBB w - - 0 1".

(** Black to move: king a8 against queen b6 and king h1. *)
Definition queen_stalemate_position : Position :=
  initializeFromFEN "k7/8/1Q6/8/8/8/8/7K b - - 0 1".

(** White to move: king a8 against queen b6 and king h1.  The king
    is not attacked, and each of its three steps ends on a square the
    queen attacks. *)
Definition white_stalemate_position : Position :=
  initializeFromFEN "K7/8/1q6/8/8/8/8/7k w - - 0 1".

(** Legality as the specification defines it, to compare the filter of
    [generateLegalMoves] with: after the move the mover's own king is
    not attacked by the other side. *)
Definition spec_legal (pos : Position) (m : Move) : bool :=
  let newPos := makeMove pos m in
  let us := sideToMove pos in
  negb (isSquareAttacked newPos (lsb (getPieceBitboard newPos KING us))
                         (opp us)).

(** *** Move words, field by field *)

Definition all_move_types : list MoveType :=
  [NORMAL; PROMOTION; EN_PASSANT; CASTLING].

Definition all_promotion_types : list PromotionType :=
  [PROMOTE_TO_QUEEN; PROMOTE_TO_ROOK; PROMOTE_TO_BISHOP; PROMOTE_TO_KNIGHT].

Definition MoveType_eqb (a b : MoveType) : bool :=
  MoveType_to_Z a =? MoveType_to_Z b.

Definition PromotionType_eqb (a b : PromotionType) : bool :=
  PromotionType_to_Z a =? PromotionType_to_Z b.

(** The four accessors give back the arguments of the constructor, for
    every type and promotion piece. *)
Definition fields_check (f t : Z) : bool :=
  forallb
    (fun ty =>
       forallb
         (fun pr =>
            let m := Move4 f t ty pr in
            (from m =? f) && (to m =? t) && MoveType_eqb (type m) ty &&
            PromotionType_eqb (promotionType m) pr)
         all_promotion_types)
    all_move_types.

(** The constructor applied to the four fields of a word gives the
    word back. *)
Definition rebuild_check (d : Z) : bool :=
  let m := mkMove d in
  (data (Move4 (from m) (to m) (type m) (promotionType m)) =? d) &&
  (0 <=? from m) && (from m <? 64) && (0 <=? to m) && (to m <? 64).

(** *** UCI text *)

(** The text with its fifth character, if any, in lower case. *)
Definition lowerPromotionLetter (uci : string) : string :=
  match String.get 4 uci with
  | Some c => (substring 0 4 uci ++ String (tolower c) EmptyString)%string
  | None => uci
  end.

(** *** types.h: the bitboard loop and [moreThanOne] *)

(** [while (b) { sq = popLsb(b); ... }] written with [popLsb] itself:
    the squares handed out, for at most [n] turns. *)
Fixpoint popLsb_loop (n : nat) (b : Bitboard) : list Square :=
  match n with
  | O => []
  | S k =>
      if b =? 0 then []
      else let '(sq, b') := popLsb b in sq :: popLsb_loop k b'
  end.

(** [moreThanOne]: [b & (b - 1)] converted to [bool]. *)
Definition moreThanOne (b : Bitboard) : bool :=
  nonzero (Z.land b (wrap64 (b - 1))).

(** *** Boards of the right shape *)

(** Two colours, six piece types each, every entry a [uint64_t]. *)
Definition boards_wfb (b : Boards) : bool :=
  (List.length b =? 2)%nat &&
  forallb
    (fun row =>
       (List.length row =? 6)%nat &&
       forallb (fun bb => (0 <=? bb) && (bb <? two64)) row)
    b.

Definition wf_position (pos : Position) : Prop :=
  boards_wfb (pieceBitboards pos) = true.

(** The position with another board. *)
Definition withBoards (pos : Position) (b : Boards) : Position :=
  mkPosition b (sideToMove pos) (castlingRights pos) (enPassantSquare pos)
             (halfmoveClock pos) (fullmoveNumber pos) (zobristHash pos).

(** [getPieceAt] as a function of the board alone. *)
Definition pieceOn (b : Boards) (sq : Square) : Piece :=
  first_piece_on b (squareBB sq) piece_scan_order.

(** Every castling right held in [r] is held in [r0]. *)
Definition rights_within (r r0 : Z) : Prop :=
  forall flag, has_flag r flag = true -> has_flag r0 flag = true.

(** *** FEN fields *)

(** The [n]-th word that [ss >> word] reads, counting from 0. *)
Fixpoint nth_word (n : nat) (ss : istream) : chars :=
  match n with
  | O => fst (read_word ss)
  | S k => nth_word k (snd (read_word ss))
  end.

Definition fenField (n : nat) (fen : string) : chars :=
  nth_word n (mkStream (list_ascii_of_string fen) false).

(** The letter of each castling right. *)
Definition castling_letters : list (ascii * Z) :=
  [("K"%char, WHITE_OO); ("Q"%char, WHITE_OOO);
   ("k"%char, BLACK_OO); ("q"%char, BLACK_OOO)].

(** *** Castling on the board *)

(** Side, king's square, king's destination, rook's square, rook's
    destination. *)
Definition castling_table : list (Color * Square * Square * Square * Square) :=
  [(WHITE, E1, G1, H1, F1); (WHITE, E1, C1, A1, D1);
   (BLACK, E8, G8, H8, F8); (BLACK, E8, C8, A8, D8)].

(** *** A position to promote in *)

(** White's pawn on e7 may advance to e8 or take the rook on d8. *)
Definition promotion_sample : Position :=
  initializeFromFEN "3r3k/4P3/8/8/8/8/8/4K3 w - - 0 1".

(** *** Where [makeMove] is defined, and what it keeps *)

(** Where the C++ of [makeMove] is defined.  In the branch of a normal
    move [typeOf(movedPiece)] indexes the bitboard array, so the source
    square must hold a piece: on an empty one the index is 255 and
    [putPiece] writes outside the array, a write the model drops.  The
    square of the pawn captured en passant must be a square of the
    board, as [squareBB] shifts by it.  The two [int] counters must
    have room for their increment. *)
Definition makeMove_defined (pos : Position) (m : Move) : bool :=
  (if isCastling m then true
   else if isEnPassant m then
     let capturedPawnSq :=
       match sideToMove pos with WHITE => to m - 8 | BLACK => to m + 8 end in
     (0 <=? capturedPawnSq) && (capturedPawnSq <? 64)
   else if isPromotion m then true
   else negb (getPieceAt pos (from m) =? NO_PIECE)) &&
  (negb (getPieceAt pos (to m) =? NO_PIECE) ||
   (halfmoveClock pos <? INT_MAX)) &&
  match sideToMove pos with
  | WHITE => true
  | BLACK => fullmoveNumber pos <? INT_MAX
  end.

(** The square the rook of a castling move is put on. *)
Definition castlingRookTo (us : Color) (m : Move) : Square :=
  if to m >? from m
  then match us with WHITE => F1 | BLACK => F8 end
  else match us with WHITE => D1 | BLACK => D8 end.

(** A castling move has room: the rook's destination is empty and is
    not the king's destination.  Other moves need none. *)
Definition castling_room (pos : Position) (m : Move) : bool :=
  if isCastling m
  then negb (to m =? castlingRookTo (sideToMove pos) m) &&
       (getPieceAt pos (castlingRookTo (sideToMove pos) m) =? NO_PIECE)
  else true.

(** The twelve piece bitboards are pairwise disjoint: no square holds
    two pieces. *)
Definition boards_disjoint (b : Boards) : bool :=
  forallb
    (fun cp1 =>
       forallb
         (fun cp2 =>
            (Color_eqb (fst cp1) (fst cp2) &&
             PieceType_eqb (snd cp1) (snd cp2)) ||
            (Z.land (boards_get b (fst cp1) (snd cp1))
                    (boards_get b (fst cp2) (snd cp2)) =? 0))
         piece_scan_order)
    piece_scan_order.

(** A line of moves each of which, where it is played, [makeMove] is
    defined on and has room. *)
Fixpoint playable (pos : Position) (line : list Move) : bool :=
  match line with
  | [] => true
  | m :: rest =>
      makeMove_defined pos m && castling_room pos m &&
      playable (makeMove pos m) rest
  end.

(** No square holds two pieces, bit by bit. *)
Definition Apart (b : Boards) : Prop :=
  forall s c1 pt1 c2 pt2,
    pt1 <> NO_PIECE_TYPE -> pt2 <> NO_PIECE_TYPE ->
    Z.testbit (boards_get b c1 pt1) s = true ->
    Z.testbit (boards_get b c2 pt2) s = true ->
    c1 = c2 /\ pt1 = pt2.

(** The square holds no piece. *)
Definition Vacant (b : Boards) (sq : Square) : Prop :=
  forall c pt, pt <> NO_PIECE_TYPE -> Z.testbit (boards_get b c pt) sq = false.

(** *** bitboard_attacks.cpp: the pawn table *)

Module AttackTable.

(** [initPawnAttacks]: the entry [pawnAttacks[c][sq]] *)
Definition pawnAttacks (c : Color) (sq : Square) : Bitboard :=
  let rank := rankOf sq in
  let file := fileOf sq in
  match c with
  | WHITE =>
      if rank <? 7 then
        let w1 := if file >? 0
                  then Z.lor 0 (squareBB (makeSquare (file - 1) (rank + 1)))
                  else 0 in
        if file <? 7
        then Z.lor w1 (squareBB (makeSquare (file + 1) (rank + 1)))
        else w1
      else 0
  | BLACK =>
      if rank >? 0 then
        let b1 := if file >? 0
                  then Z.lor 0 (squareBB (makeSquare (file - 1) (rank - 1)))
                  else 0 in
        if file <? 7
        then Z.lor b1 (squareBB (makeSquare (file + 1) (rank - 1)))
        else b1
      else 0
  end.

End AttackTable.

(** *** Attack geometry *)

Definition rankDistance (a b : Square) : Z := Z.abs (rankOf b - rankOf a).
Definition fileDistance (a b : Square) : Z := Z.abs (fileOf b - fileOf a).

(** One rank and two files away, or two ranks and one file. *)
Definition knight_jump (a b : Square) : bool :=
  ((rankDistance a b =? 1) && (fileDistance a b =? 2)) ||
  ((rankDistance a b =? 2) && (fileDistance a b =? 1)).

(** A neighbouring square. *)
Definition king_step (a b : Square) : bool :=
  (rankDistance a b <=? 1) && (fileDistance a b <=? 1) && negb (a =? b).

(** One rank ahead, as the colour counts it, and one file aside. *)
Definition pawn_capture (c : Color) (a b : Square) : bool :=
  (rankOf b =? rankOf a + match c with WHITE => 1 | BLACK => -1 end) &&
  (fileDistance a b =? 1).

(** What is tested on every pair of squares: the three tables hold
    the geometric targets, and the three computations of a pawn's
    attacks agree. *)
Definition tables_check (a b : Square) : bool :=
  Bool.eqb (Z.testbit (Gen.knightAttacks a) b) (knight_jump a b) &&
  Bool.eqb (Z.testbit (Gen.kingAttacks a) b) (king_step a b) &&
  forallb
    (fun c =>
       Bool.eqb (Z.testbit (Gen.pawnAttacks c a) b) (pawn_capture c a b))
    [WHITE; BLACK].

Definition pawn_tables_check (a : Square) : bool :=
  forallb
    (fun c =>
       (AttackTable.pawnAttacks c a =? Gen.pawnAttacks c a) &&
       (Attacks.pawnAttacksBB (squareBB a) c =? Gen.pawnAttacks c a))
    [WHITE; BLACK].

(** *** Sliding *)

(** The square [k] steps from [a] in direction [(dr, df)]. *)
Definition step_from (a : Square) (dr df k : Z) : Square :=
  makeSquare (fileOf a + k * df) (rankOf a + k * dr).

Definition rook_directions : list (Z * Z) :=
  [(1, 0); (-1, 0); (0, 1); (0, -1)].

Definition bishop_directions : list (Z * Z) :=
  [(1, 1); (-1, 1); (-1, -1); (1, -1)].

(** A slider on [a] reaches [t] over the occupancy [occ]: [t] is
    [k >= 1] steps away in one of the directions, on the board, and
    the squares passed on the way are unoccupied. *)
Definition slides (dirs : list (Z * Z)) (a : Square) (occ : Bitboard)
    (t : Square) : Prop :=
  exists dr df k,
    In (dr, df) dirs /\ 1 <= k /\
    on_board (rankOf a + k * dr) (fileOf a + k * df) = true /\
    t = step_from a dr df k /\
    forall j, 1 <= j < k -> Z.testbit occ (step_from a dr df j) = false.

(** The squares that a piece of colour [c] and type [pt] on [p]
    attacks, as the move generator computes them. *)
Definition attacksFrom (c : Color) (pt : PieceType) (p : Square)
    (occ : Bitboard) : Bitboard :=
  match pt with
  | PAWN => Gen.pawnAttacks c p
  | KING => Gen.kingAttacks p
  | _ => Gen.getAttacks pt p occ
  end.

(** Black's king on e8 and rook on a8, White's king on e1, queen on
    a4 and knight on f6. *)
Definition attack_sample : Position :=
  initializeFromFEN "r3k3/8/5N2/8/Q7/8/8/4K3 b q - 0 1".

(** *** What the generator relies on *)

(** The square belongs to the side to move. *)
Definition ownSquare (pos : Position) (sq : Square) : bool :=
  Z.testbit (getColorBitboard pos (sideToMove pos)) sq.

(** The rank a pawn of the colour cannot stand on: it would be pushed
    off the board. *)
Definition last_rank (c : Color) : Bitboard :=
  match c with
  | WHITE => 0xFF00000000000000
  | BLACK => 0xFF
  end.

Definition kingHome (c : Color) : Square :=
  match c with WHITE => E1 | BLACK => E8 end.

Definition holdsCastlingRight (pos : Position) (c : Color) : bool :=
  match c with
  | WHITE => has_flag (castlingRights pos) WHITE_OO ||
             has_flag (castlingRights pos) WHITE_OOO
  | BLACK => has_flag (castlingRights pos) BLACK_OO ||
             has_flag (castlingRights pos) BLACK_OOO
  end.

(** The conditions on a position under which the generator's moves
    make sense: 64-bit bitboards; no square held by both colours; the
    side to move has a king, no pawn on its last rank and, if it
    holds a castling right, its king on the home square; the
    en-passant square, if any, is not one of its own squares. *)
Definition generator_ready (pos : Position) : bool :=
  let us := sideToMove pos in
  let ours := getColorBitboard pos us in
  wf_bitboardsb pos &&
  (Z.land ours (getColorBitboard pos (opp us)) =? 0) &&
  nonzero (getPieceBitboard pos KING us) &&
  (Z.land (getPieceBitboard pos PAWN us) (last_rank us) =? 0) &&
  (negb (holdsCastlingRight pos us) ||
   Z.testbit (getPieceBitboard pos KING us) (kingHome us)) &&
  ((enPassantSquare pos =? NO_SQUARE) ||
   negb (Z.testbit ours (enPassantSquare pos))).

(** The same conditions, as the facts the proofs use. *)
Record Ready (pos : Position) : Prop := mkReady {
  ready_wf : wf_bitboards pos;
  ready_apart :
    forall s, Z.testbit (getColorBitboard pos (opp (sideToMove pos))) s = true ->
              ownSquare pos s = false;
  ready_king : getPieceBitboard pos KING (sideToMove pos) <> 0;
  ready_pawns :
    forall f, Z.testbit (getPieceBitboard pos PAWN (sideToMove pos)) f = true ->
              match sideToMove pos with WHITE => f < 56 | BLACK => 8 <= f end;
  ready_castling :
    holdsCastlingRight pos (sideToMove pos) = true ->
    ownSquare pos (kingHome (sideToMove pos)) = true;
  ready_en_passant :
    enPassantSquare pos <> NO_SQUARE ->
    ownSquare pos (enPassantSquare pos) = false
}.

(** *** The value the search is to find *)

(** Plain negamax to the same depth, with no window and no move
    ordering: the evaluation at depth 0, the mate or stalemate score
    where there is no legal move, and otherwise the greatest of the
    negated values of the positions after each legal move. *)
Fixpoint negamax (evaluate : Position -> Z) (depth : nat) (pos : Position)
    : Z :=
  match depth with
  | O => evaluate pos
  | S d =>
      let value m := - negamax evaluate d (makeMove pos m) in
      match generateLegalMoves pos with
      | [] => if isInCheck pos then -20000 + Z.of_nat depth else 0
      | m0 :: rest =>
          fold_left (fun best m => Z.max best (value m)) rest (value m0)
      end
  end.

(** The running maximum of [value] over a list of moves. *)
Definition maxOver (value : Move -> Z) (l : list Move) (init : Z) : Z :=
  fold_left (fun best m => Z.max best (value m)) l init.

(** What a search with window [(alpha, beta)] that returns the score
    [g] tells about the value [v]: a score inside the window is the
    value; a score at or below [alpha] is an upper bound of it; a
    score at or above [beta] a lower bound. *)
Definition informs (alpha beta g v : Z) : Prop :=
  (g <= alpha -> v <= g) /\ (alpha < g < beta -> v = g) /\
  (beta <= g -> g <= v).

(** An evaluator with values inside the range of the search window:
    the material balance, cut off at 30000. *)
Definition bounded_material_eval (pos : Position) : Z :=
  Z.max (-30000) (Z.min 30000 (material_eval pos)).

(** *** PGN text *)

(** One of the four characters that open or close a comment or a
    variation. *)
Definition isBracket (c : ascii) : bool :=
  Ascii.eqb c "{" || Ascii.eqb c "}" || Ascii.eqb c "(" || Ascii.eqb c ")".

Definition isCastlingText (s : string) : bool :=
  String.eqb s "O-O" || String.eqb s "0-0" ||
  String.eqb s "O-O-O" || String.eqb s "0-0-0".

(** The moves can be played in turn from [pos], each one being, where
    it is played, a legal move or a move of castling type. *)
Inductive Replays : Position -> list Move -> Prop :=
| Replays_nil pos : Replays pos []
| Replays_cons pos m rest :
    isCastling m = true \/ In m (generateLegalMoves pos) ->
    Replays (makeMove pos m) rest ->
    Replays pos (m :: rest).

(* ================================================================= *)
(** ** evaluator.cpp: the evaluation terms *)

Module Evaluator.

(** *** The piece-square tables *)

Definition pawnTable : list Z :=
  [0; 0; 0; 0; 0; 0; 0; 0;
   50; 50; 50; 50; 50; 50; 50; 50;
   10; 10; 20; 30; 30; 20; 10; 10;
   5; 5; 10; 25; 25; 10; 5; 5;
   0; 0; 0; 20; 20; 0; 0; 0;
   5; (-5); (-10); 0; 0; (-10); (-5); 5;
   5; 10; 10; (-20); (-20); 10; 10; 5;
   0; 0; 0; 0; 0; 0; 0; 0].

Definition knightTable : list Z :=
  [(-50); (-40); (-30); (-30); (-30); (-30); (-40); (-50);
   (-40); (-20); 0; 0; 0; 0; (-20); (-40);
   (-30); 0; 10; 15; 15; 10; 0; (-30);
   (-30); 5; 15; 20; 20; 15; 5; (-30);
   (-30); 0; 15; 20; 20; 15; 0; (-30);
   (-30); 5; 10; 15; 15; 10; 5; (-30);
   (-40); (-20); 0; 5; 5; 0; (-20); (-40);
   (-50); (-40); (-30); (-30); (-30); (-30); (-40); (-50)].

Definition bishopTable : list Z :=
  [(-20); (-10); (-10); (-10); (-10); (-10); (-10); (-20);
   (-10); 0; 0; 0; 0; 0; 0; (-10);
   (-10); 0; 5; 10; 10; 5; 0; (-10);
   (-10); 5; 5; 10; 10; 5; 5; (-10);
   (-10); 0; 10; 10; 10; 10; 0; (-10);
   (-10); 10; 10; 10; 10; 10; 10; (-10);
   (-10); 5; 0; 0; 0; 0; 5; (-10);
   (-20); (-10); (-10); (-10); (-10); (-10); (-10); (-20)].

Definition rookTable : list Z :=
  [0; 0; 0; 0; 0; 0; 0; 0;
   5; 10; 10; 10; 10; 10; 10; 5;
   (-5); 0; 0; 0; 0; 0; 0; (-5);
   (-5); 0; 0; 0; 0; 0; 0; (-5);
   (-5); 0; 0; 0; 0; 0; 0; (-5);
   (-5); 0; 0; 0; 0; 0; 0; (-5);
   (-5); 0; 0; 0; 0; 0; 0; (-5);
   0; 0; 0; 5; 5; 0; 0; 0].

Definition queenTable : list Z :=
  [(-20); (-10); (-10); (-5); (-5); (-10); (-10); (-20);
   (-10); 0; 0; 0; 0; 0; 0; (-10);
   (-10); 0; 5; 5; 5; 5; 0; (-10);
   (-5); 0; 5; 5; 5; 5; 0; (-5);
   0; 0; 5; 5; 5; 5; 0; (-5);
   (-10); 5; 5; 5; 5; 5; 0; (-10);
   (-10); 0; 5; 0; 0; 0; 0; (-10);
   (-20); (-10); (-10); (-5); (-5); (-10); (-10); (-20)].

Definition kingMiddlegameTable : list Z :=
  [(-30); (-40); (-40); (-50); (-50); (-40); (-40); (-30);
   (-30); (-40); (-40); (-50); (-50); (-40); (-40); (-30);
   (-30); (-40); (-40); (-50); (-50); (-40); (-40); (-30);
   (-30); (-40); (-40); (-50); (-50); (-40); (-40); (-30);
   (-20); (-30); (-30); (-40); (-40); (-30); (-30); (-20);
   (-10); (-20); (-20); (-20); (-20); (-20); (-20); (-10);
   20; 20; 0; 0; 0; 0; 20; 20;
   20; 30; 10; 0; 0; 10; 30; 20].

Definition kingEndgameTable : list Z :=
  [(-50); (-40); (-30); (-20); (-20); (-30); (-40); (-50);
   (-30); (-20); (-10); 0; 0; (-10); (-20); (-30);
   (-30); (-10); 20; 30; 30; 20; (-10); (-30);
   (-30); (-10); 30; 40; 40; 30; (-10); (-30);
   (-30); (-10); 30; 40; 40; 30; (-10); (-30);
   (-30); (-10); 20; 30; 30; 20; (-10); (-30);
   (-30); (-30); 0; 0; 0; 0; (-30); (-30);
   (-50); (-30); (-30); (-30); (-30); (-30); (-30); (-50)].

(** [table[sq]].  An index outside the table is undefined behaviour in
    C++ and reads 0 here. *)
Definition table_at (table : list Z) (sq : Square) : Z :=
  if (0 <=? sq) && (sq <? 64) then nth (Z.to_nat sq) table 0 else 0.

Definition getPieceSquareValue (piece : PieceType) (sq : Square)
    (color : Color) (endgame : bool) : Z :=
  let sq := match color with BLACK => Z.lxor sq 56 | WHITE => sq end in
  match piece with
  | PAWN => table_at pawnTable sq
  | KNIGHT => table_at knightTable sq
  | BISHOP => table_at bishopTable sq
  | ROOK => table_at rookTable sq
  | QUEEN => table_at queenTable sq
  | KING => if endgame then table_at kingEndgameTable sq
            else table_at kingMiddlegameTable sq
  | NO_PIECE_TYPE => 0
  end.

(** *** [Evaluator::Impl] *)

Definition getMaterialBalance (pos : Position) : Z :=
  let diff pt :=
    popcount (getPieceBitboard pos pt WHITE) -
    popcount (getPieceBitboard pos pt BLACK) in
  let m0 := 0 in
  let m1 := m0 + diff PAWN * PieceValue.PAWN in
  let m2 := m1 + diff KNIGHT * PieceValue.KNIGHT in
  let m3 := m2 + diff BISHOP * PieceValue.BISHOP in
  let m4 := m3 + diff ROOK * PieceValue.ROOK in
  m4 + diff QUEEN * PieceValue.QUEEN.

(** The [colorScore] of one colour: the loops over the piece types and
    over the pieces of each type. *)
Definition pieceSquareColorScore (pos : Position) (endgame : bool)
    (c : Color) : Z :=
  fold_left
    (fun colorScore pt =>
       fold_left
         (fun s sq => s + getPieceSquareValue pt sq c endgame)
         (squares_of (getPieceBitboard pos pt c)) colorScore)
    all_piece_types 0.

Definition getPieceSquareScore (pos : Position) : Z :=
  let endgame := isEndgame pos in
  fold_left
    (fun score c =>
       let colorScore := pieceSquareColorScore pos endgame c in
       score + match c with WHITE => colorScore | BLACK => - colorScore end)
    [WHITE; BLACK] 0.

(** [FILE_A << file] *)
Definition fileMask (file : Z) : Bitboard := wrap64 (Z.shiftl FILE_A file).

(** One turn of the doubled-pawn loop. *)
Definition doubled_step (whitePawns blackPawns : Bitboard) (score : Z)
    (file : Z) : Z :=
  let whitePawnsOnFile := popcount (Z.land whitePawns (fileMask file)) in
  let blackPawnsOnFile := popcount (Z.land blackPawns (fileMask file)) in
  let s1 := if whitePawnsOnFile >? 1
            then score - 10 * (whitePawnsOnFile - 1) else score in
  if blackPawnsOnFile >? 1 then s1 + 10 * (blackPawnsOnFile - 1) else s1.

(** One turn of the isolated-pawn loop. *)
Definition isolated_step (whitePawns blackPawns : Bitboard) (score : Z)
    (file : Z) : Z :=
  let a0 := 0 in
  let a1 := if file >? 0 then Z.lor a0 (fileMask (file - 1)) else a0 in
  let adjacentFiles :=
    if file <? 7 then Z.lor a1 (fileMask (file + 1)) else a1 in
  let s1 :=
    if nonzero (Z.land whitePawns (fileMask file)) &&
       negb (nonzero (Z.land whitePawns adjacentFiles))
    then score - 15 else score in
  if nonzero (Z.land blackPawns (fileMask file)) &&
     negb (nonzero (Z.land blackPawns adjacentFiles))
  then s1 + 15 else s1.

(** The [for] loop over the ranks in front of a pawn: [n] turns from
    rank [r] on, stepping by [dr]. *)
Fixpoint front_span (n : nat) (r dr file : Z) (frontSpan : Bitboard)
    : Bitboard :=
  match n with
  | O => frontSpan
  | S k =>
      let f1 := if file >? 0
                then Z.lor frontSpan (squareBB (makeSquare (file - 1) r))
                else frontSpan in
      let f2 := Z.lor f1 (squareBB (makeSquare file r)) in
      let f3 := if file <? 7
                then Z.lor f2 (squareBB (makeSquare (file + 1) r))
                else f2 in
      front_span k (r + dr) dr file f3
  end.

(** The body of the [while (pawns)] loop of [getPassedPawns]. *)
Definition passed_step (theirPawns : Bitboard) (us : Color)
    (passed : Bitboard) (sq : Square) : Bitboard :=
  let file := fileOf sq in
  let rank := rankOf sq in
  let frontSpan :=
    match us with
    | WHITE => front_span (Z.to_nat (7 - rank)) (rank + 1) 1 file 0
    | BLACK => front_span (Z.to_nat rank) (rank - 1) (-1) file 0
    end in
  if negb (nonzero (Z.land frontSpan theirPawns))
  then Z.lor passed (squareBB sq) else passed.

Definition getPassedPawns (ourPawns theirPawns : Bitboard) (us : Color)
    : Bitboard :=
  fold_left (passed_step theirPawns us) (squares_of ourPawns) 0.

Definition evaluatePawnStructure (pos : Position) : Z :=
  let whitePawns := getPieceBitboard pos PAWN WHITE in
  let blackPawns := getPieceBitboard pos PAWN BLACK in
  let s1 := fold_left (doubled_step whitePawns blackPawns) files_0_7 0 in
  let s2 := fold_left (isolated_step whitePawns blackPawns) files_0_7 s1 in
  let whitePassed := getPassedPawns whitePawns blackPawns WHITE in
  let blackPassed := getPassedPawns blackPawns whitePawns BLACK in
  let s3 :=
    fold_left
      (fun score sq => let rank := rankOf sq in score + (10 + rank * rank * 5))
      (squares_of whitePassed) s2 in
  fold_left
    (fun score sq => let rank := 7 - rankOf sq in score - (10 + rank * rank * 5))
    (squares_of blackPassed) s3.

Definition evaluateMobility (pos : Position) : Z :=
  let occupied := getOccupiedBitboard pos in
  let whiteKnights := getPieceBitboard pos KNIGHT WHITE in
  let blackKnights := getPieceBitboard pos KNIGHT BLACK in
  let s1 :=
    fold_left
      (fun score sq =>
         score + popcount (Z.land (Attacks.knightAttacksBB sq)
                                  (not64 (getColorBitboard pos WHITE))) * 4)
      (squares_of whiteKnights) 0 in
  let s2 :=
    fold_left
      (fun score sq =>
         score - popcount (Z.land (Attacks.knightAttacksBB sq)
                                  (not64 (getColorBitboard pos BLACK))) * 4)
      (squares_of blackKnights) s1 in
  let whiteBishops := getPieceBitboard pos BISHOP WHITE in
  let blackBishops := getPieceBitboard pos BISHOP BLACK in
  let s3 :=
    fold_left
      (fun score sq =>
         score + popcount (Z.land (Attacks.bishopAttacksBB sq occupied)
                                  (not64 (getColorBitboard pos WHITE))) * 3)
      (squares_of whiteBishops) s2 in
  fold_left
    (fun score sq =>
       score - popcount (Z.land (Attacks.bishopAttacksBB sq occupied)
                                (not64 (getColorBitboard pos BLACK))) * 3)
    (squares_of blackBishops) s3.

Definition evaluateKingSafety (pos : Position) (color : Color) : Z :=
  let kingSquare := lsb (getPieceBitboard pos KING color) in
  let kingZone := Attacks.kingAttacksBB kingSquare in
  let ourPawns := getPieceBitboard pos PAWN color in
  let pawnShield := popcount (Z.land kingZone ourPawns) in
  let safety := 0 + pawnShield * 10 in
  let kingFile := fileOf kingSquare in
  let first := Z.max 0 (kingFile - 1) in
  let last := Z.min 7 (kingFile + 1) in
  fold_left
    (fun s f =>
       if negb (nonzero (Z.land ourPawns (fileMask f))) then s - 20 else s)
    (Z_range (Z.to_nat (last - first + 1)) first) safety.

Definition centerSquares : list Square :=
  [makeSquare 3 3; makeSquare 4 3; makeSquare 3 4; makeSquare 4 4].

Definition evaluateCenterControl (pos : Position) : Z :=
  let '(whiteControl, blackControl) :=
    fold_left
      (fun (st : Bitboard * Bitboard) sq =>
         let '(w, b) := st in
         (if isSquareAttacked pos sq WHITE then Z.lor w (squareBB sq) else w,
          if isSquareAttacked pos sq BLACK then Z.lor b (squareBB sq) else b))
      centerSquares (0, 0) in
  let s1 := 0 + popcount whiteControl * 10 in
  let s2 := s1 - popcount blackControl * 10 in
  let centerBitboard :=
    Z.lor (Z.lor (Z.lor (squareBB (makeSquare 3 3)) (squareBB (makeSquare 4 3)))
                 (squareBB (makeSquare 3 4)))
          (squareBB (makeSquare 4 4)) in
  let s3 := s2 + popcount (Z.land centerBitboard (getColorBitboard pos WHITE)) * 15 in
  s3 - popcount (Z.land centerBitboard (getColorBitboard pos BLACK)) * 15.

Definition evaluate (pos : Position) : Z :=
  let s0 := 0 in
  let s1 := s0 + getMaterialBalance pos in
  let s2 := s1 + getPieceSquareScore pos in
  let s3 := s2 + evaluatePawnStructure pos in
  let s4 := s3 + evaluateMobility pos in
  let s5 := s4 + (evaluateKingSafety pos WHITE - evaluateKingSafety pos BLACK) in
  let score := s5 + evaluateCenterControl pos in
  match sideToMove pos with
  | WHITE => score
  | BLACK => - score
  end.

End Evaluator.

(** *** Bounds of the evaluation *)

(** Every entry of a piece-square table lies between -50 and 50. *)
Definition table_in_range (table : list Z) : bool :=
  forallb (fun v => (-50 <=? v) && (v <=? 50)) table.

Definition all_tables : list (list Z) :=
  [Evaluator.pawnTable; Evaluator.knightTable; Evaluator.bishopTable;
   Evaluator.rookTable; Evaluator.queenTable;
   Evaluator.kingMiddlegameTable; Evaluator.kingEndgameTable].

(** A square [p] stands ahead of a pawn of colour [us] on [sq]: on the
    pawn's file or a file next to it, and on a rank the pawn has still
    to cross. *)
Definition ahead (us : Color) (sq p : Square) : Prop :=
  fileOf sq - 1 <= fileOf p <= fileOf sq + 1 /\
  match us with
  | WHITE => rankOf sq < rankOf p
  | BLACK => rankOf p < rankOf sq
  end.

(** [Evaluator.evaluate] on the well-formed boards, and 0 elsewhere. *)
Definition evaluate_on_wf (pos : Position) : Z :=
  if boards_wfb (pieceBitboards pos) then Evaluator.evaluate pos else 0.

(** *** Where a run of the search is defined

    The model answers where the C++ is undefined: [lsb] of the empty
    bitboard is 0, a shift by a count outside 0..63 gives the empty
    bitboard, a write outside the bitboard array is dropped.  A run of
    the search is compared with the program only where none of these
    is met. *)

(** The side has a king, so [lsb] of its king bitboard is defined. *)
Definition hasKing (pos : Position) (c : Color) : bool :=
  nonzero (getPieceBitboard pos KING c).

(** Where [generateAllMoves] is defined: the side to move has a king
    ([generateKingMoves], [isInCheck]), no pawn of its own on its last
    rank ([squareBB(from + pawnPush)]), and the en-passant square is
    [NO_SQUARE] or a square of the board ([squareBB(epSquare)]). *)
Definition generator_defined (pos : Position) : bool :=
  let us := sideToMove pos in
  hasKing pos us &&
  (Z.land (getPieceBitboard pos PAWN us) (last_rank us) =? 0) &&
  ((enPassantSquare pos =? NO_SQUARE) ||
   ((0 <=? enPassantSquare pos) && (enPassantSquare pos <? 64))).

(** Where [search] to the given depth is defined.  At depth 0 the
    evaluator takes [lsb] of both king bitboards.  Above, the
    generator runs; the legality filter makes every pseudo-legal move
    and calls [isInCheck] on the outcome, where the other side is to
    move; and the search goes on below every legal move. *)
Fixpoint search_defined (depth : nat) (pos : Position) : bool :=
  match depth with
  | O => hasKing pos WHITE && hasKing pos BLACK
  | S d =>
      generator_defined pos &&
      forallb (fun m => makeMove_defined pos m &&
                        hasKing (makeMove pos m) (opp (sideToMove pos)))
              (generatePseudoLegalMoves pos) &&
      forallb (fun m => search_defined d (makeMove pos m))
              (generateLegalMoves pos)
  end.

(* ================================================================= *)
(** * Properties *)

(** ** Position equality *)

Lemma list_eqb_spec {A : Type} (eqb : A -> A -> bool) :
  (forall x y, eqb x y = true <-> x = y) ->
  forall l1 l2, list_eqb eqb l1 l2 = true <-> l1 = l2.
Proof.
  intros Heqb l1.
  induction l1 as [|x r1 IH]; intros [|y r2]; simpl; split;
    try congruence; try reflexivity.
  - intros H. apply andb_true_iff in H as [Hx Hr].
    apply Heqb in Hx. apply IH in Hr. congruence.
  - intros H. injection H as -> ->.
    apply andb_true_iff. split; [apply Heqb | apply IH]; reflexivity.
Qed.

Lemma Boards_eqb_spec (a b : Boards) : Boards_eqb a b = true <-> a = b.
Proof.
  unfold Boards_eqb. apply list_eqb_spec. intros x y.
  apply list_eqb_spec. intros u v. apply Z.eqb_eq.
Qed.

Lemma Color_eqb_spec (a b : Color) : Color_eqb a b = true <-> a = b.
Proof. destruct a, b; simpl; split; congruence. Qed.

(** C10. [Position::operator==] compares exactly the piece bitboards,
    the side to move, the castling rights and the en-passant square;
    so two positions that differ only in the halfmove clock, the
    fullmove number or the hash compare equal. *)
Theorem Position_eqb_ignores_clocks_and_hash :
  (forall p q,
     Position_eqb p q = true <->
     pieceBitboards p = pieceBitboards q /\
     sideToMove p = sideToMove q /\
     castlingRights p = castlingRights q /\
     enPassantSquare p = enPassantSquare q) /\
  (forall b s c e h1 f1 z1 h2 f2 z2,
     Position_eqb (mkPosition b s c e h1 f1 z1)
                  (mkPosition b s c e h2 f2 z2) = true).
Proof.
  assert (Hspec : forall p q,
     Position_eqb p q = true <->
     pieceBitboards p = pieceBitboards q /\
     sideToMove p = sideToMove q /\
     castlingRights p = castlingRights q /\
     enPassantSquare p = enPassantSquare q).
  { intros p q. unfold Position_eqb.
    rewrite !andb_true_iff, Boards_eqb_spec, Color_eqb_spec, !Z.eqb_eq.
    tauto. }
  split; [exact Hspec|].
  intros. apply Hspec. simpl. repeat split.
Qed.

(** ** The endgame switch *)

Lemma pos_popcount_squares (p : positive) (i : Z) :
  pos_popcount p = Z.of_nat (List.length (pos_squares p i)).
Proof.
  revert i.
  induction p as [q IH|q IH|]; intros i;
    cbn [pos_popcount pos_squares List.length].
  - rewrite (IH (i + 1)), Nat2Z.inj_succ. lia.
  - apply IH.
  - reflexivity.
Qed.

Lemma popcount_squares (b : Bitboard) :
  popcount b = Z.of_nat (List.length (squares_of b)).
Proof.
  destruct b as [|p|p]; simpl; try reflexivity.
  apply pos_popcount_squares.
Qed.

(** C6, as the code has it.  The switch is on exactly when the queens
    and rooks on the board, at 900 and 500 centipawns apiece, are worth
    less than 2000; knights and bishops are not counted. *)
Theorem isEndgame_iff_queen_rook_material (pos : Position) :
  isEndgame pos = true <->
  count_pieces pos QUEEN * PieceValue.QUEEN +
  count_pieces pos ROOK * PieceValue.ROOK < 2000.
Proof.
  unfold isEndgame, count_pieces.
  rewrite !popcount_squares, Z.ltb_lt.
  unfold PieceValue.QUEEN, PieceValue.ROOK. lia.
Qed.

(** C6, as the specification words it, fails: with four knights, four bishops
    and two rooks the material that is neither pawn nor king is 3600,
    above 2000 and above two rooks plus two queens, yet the switch is
    on. *)
Lemma isEndgame_ignores_minor_pieces :
  isEndgame minor_piece_position = true /\
  nonPawnNonKingMaterial minor_piece_position = 3600 /\
  ~ (isEndgame minor_piece_position = true <->
     nonPawnNonKingMaterial minor_piece_position < 2000) /\
  ~ (isEndgame minor_piece_position = true <->
     nonPawnNonKingMaterial minor_piece_position <
     2 * PieceValue.ROOK + 2 * PieceValue.QUEEN).
Proof.
  assert (He : isEndgame minor_piece_position = true) by (vm_compute; reflexivity).
  assert (Hm : nonPawnNonKingMaterial minor_piece_position = 3600)
    by (vm_compute; reflexivity).
  repeat split; try assumption.
  - intros [H _]. specialize (H He). rewrite Hm in H. lia.
  - intros [H _]. specialize (H He). rewrite Hm in H.
    unfold PieceValue.ROOK, PieceValue.QUEEN in H. lia.
Qed.

(** ** Captures and quiet moves *)

Lemma isQuietMove_negb (pos : Position) (m : Move) :
  isQuietMove pos m = negb (isCaptureMove pos m).
Proof.
  unfold isQuietMove, isCaptureMove.
  destruct (getPieceAt pos (to m) =? NO_PIECE), (isEnPassant m); reflexivity.
Qed.

Lemma filter_Interleave {A : Type} (f : A -> bool) (l : list A) :
  Interleave (filter f l) (filter (fun x => negb (f x)) l) l.
Proof.
  induction l as [|x r IH]; simpl.
  - constructor.
  - destruct (f x); simpl; constructor; exact IH.
Qed.

Lemma Interleave_length {A : Type} (l1 l2 l : list A) :
  Interleave l1 l2 l -> List.length l = (List.length l1 + List.length l2)%nat.
Proof. induction 1; simpl; lia. Qed.

Lemma generateQuietMoves_filter (pos : Position) :
  generateQuietMoves pos =
  filter (fun m => negb (isCaptureMove pos m)) (generatePseudoLegalMoves pos).
Proof.
  unfold generateQuietMoves. apply filter_ext. intros m.
  apply isQuietMove_negb.
Qed.

(** C9. The capture list and the quiet list split the pseudo-legal
    list: a pseudo-legal move is a capture iff its destination is
    occupied or it is en passant, quiet iff its destination is empty
    and it is not en passant; every pseudo-legal move is in exactly one
    of the two lists, and the pseudo-legal list is a merge of the two
    that keeps the generator order of each. *)
Theorem captures_quiet_partition (pos : Position) :
  (forall m,
     In m (generateCaptures pos) <->
     In m (generatePseudoLegalMoves pos) /\
     (getPieceAt pos (to m) <> NO_PIECE \/ isEnPassant m = true)) /\
  (forall m,
     In m (generateQuietMoves pos) <->
     In m (generatePseudoLegalMoves pos) /\
     getPieceAt pos (to m) = NO_PIECE /\ isEnPassant m = false) /\
  (forall m,
     In m (generatePseudoLegalMoves pos) ->
     (In m (generateCaptures pos) /\ ~ In m (generateQuietMoves pos)) \/
     (In m (generateQuietMoves pos) /\ ~ In m (generateCaptures pos))) /\
  Interleave (generateCaptures pos) (generateQuietMoves pos)
             (generatePseudoLegalMoves pos).
Proof.
  assert (Hc : forall m,
     In m (generateCaptures pos) <->
     In m (generatePseudoLegalMoves pos) /\
     (getPieceAt pos (to m) <> NO_PIECE \/ isEnPassant m = true)).
  { intros m. unfold generateCaptures. rewrite filter_In.
    unfold isCaptureMove. rewrite orb_true_iff, negb_true_iff, Z.eqb_neq.
    tauto. }
  assert (Hq : forall m,
     In m (generateQuietMoves pos) <->
     In m (generatePseudoLegalMoves pos) /\
     getPieceAt pos (to m) = NO_PIECE /\ isEnPassant m = false).
  { intros m. unfold generateQuietMoves. rewrite filter_In.
    unfold isQuietMove. rewrite andb_true_iff, negb_true_iff, Z.eqb_eq.
    tauto. }
  split; [exact Hc|]. split; [exact Hq|]. split.
  - intros m Hin. rewrite Hc, Hq.
    destruct (Z.eq_dec (getPieceAt pos (to m)) NO_PIECE) as [He|Hne];
      destruct (isEnPassant m) eqn:Hep.
    + left. split; [tauto|]. intros [_ [_ H]]. discriminate.
    + right. split; [tauto|]. intros [_ [H|H]]; [contradiction|discriminate].
    + left. split; [tauto|]. intros [_ [H _]]. contradiction.
    + left. split; [tauto|]. intros [_ [H _]]. contradiction.
  - rewrite generateQuietMoves_filter. unfold generateCaptures.
    apply filter_Interleave.
Qed.

(** ** The UCI codec *)

Lemma Z_range_In (n : nat) (start d : Z) :
  start <= d < start + Z.of_nat n -> In d (Z_range n start).
Proof.
  revert start. induction n as [|k IH]; intros start H.
  - simpl in H. lia.
  - cbn [Z_range]. destruct (Z.eq_dec d start) as [->|Hne].
    + left. reflexivity.
    + right. apply IH. rewrite Nat2Z.inj_succ in H. lia.
Qed.

(** Closed range facts such as [0 <= 1804 < 65536]. *)
Ltac closed_range := vm_compute; split; [discriminate | reflexivity].

Lemma uci_roundtrip_all_words :
  forallb uci_roundtrip_check (Z_range (Z.to_nat two16) 0) = true.
Proof. vm_compute. reflexivity. Qed.

Lemma stringToSquare_squareToString (sq : Square) :
  0 <= sq < 64 -> stringToSquare (squareToString sq) = sq.
Proof.
  intros H.
  assert (Hin : In sq (Z_range 64 0)) by (apply Z_range_In; simpl; lia).
  clear H. revert sq Hin. apply Forall_forall.
  repeat (constructor; [vm_compute; reflexivity|]). constructor.
Qed.

(** C5, as the code has it.  A move word whose type is promotion, or
    whose type is normal with clear promotion bits and which is not a
    two-square step from e1 or e8, is returned unchanged by
    [fromUCI (toUCI m)]. *)
Theorem uci_roundtrip_plain (m : Move) :
  move_word m ->
  uci_plain m = true ->
  Move_eqb (fromUCI (toUCI m)) m = true /\ fromUCI (toUCI m) = m.
Proof.
  intros Hw Hp. destruct m as [d]. unfold move_word in Hw. simpl in Hw.
  assert (Hin : In d (Z_range (Z.to_nat two16) 0)).
  { apply Z_range_In. rewrite Z2Nat.id by (unfold two16; lia). lia. }
  pose proof uci_roundtrip_all_words as Hall.
  rewrite forallb_forall in Hall. specialize (Hall d Hin).
  unfold uci_roundtrip_check in Hall. rewrite Hp in Hall. simpl in Hall.
  split; [exact Hall|].
  unfold Move_eqb in Hall. apply Z.eqb_eq in Hall.
  destruct (fromUCI (toUCI (mkMove d))) as [d']. simpl in Hall. congruence.
Qed.

Lemma uci_roundtrip_plain_witness :
  move_word (Move2 12 28) /\
  uci_plain (Move2 12 28) = true /\
  Move_eqb (fromUCI (toUCI (Move2 12 28))) (Move2 12 28) = true /\
  fromUCI (toUCI (Move2 12 28)) = Move2 12 28.
Proof.
  assert (Hw : move_word (Move2 12 28)) by closed_range.
  assert (Hp : uci_plain (Move2 12 28) = true) by reflexivity.
  split; [exact Hw|]. split; [exact Hp|].
  exact (uci_roundtrip_plain (Move2 12 28) Hw Hp).
Defined.

(** C5, as the specification words it, fails.  The rook move e1-g1 is neither
    en passant nor castling and the generator emits it, but its UCI
    text "e1g1" is read back as a castling move. *)
Lemma uci_roundtrip_fails_on_e1g1 :
  In (Move2 E1 G1) (generatePseudoLegalMoves rook_on_e1_position) /\
  move_word (Move2 E1 G1) /\
  isEnPassant (Move2 E1 G1) = false /\
  isCastling (Move2 E1 G1) = false /\
  toUCI (Move2 E1 G1) = "e1g1" /\
  fromUCI (toUCI (Move2 E1 G1)) = Move3 E1 G1 CASTLING /\
  Move_eqb (fromUCI (toUCI (Move2 E1 G1))) (Move2 E1 G1) = false.
Proof.
  split.
  - vm_compute. tauto.
  - split; [closed_range|]. repeat split.
Qed.

(** A normal move built with a promotion argument does not survive the
    round trip either: the promotion bits are not written to the text. *)
Lemma uci_roundtrip_fails_on_stray_promotion_bits :
  let m := Move4 12 28 NORMAL PROMOTE_TO_ROOK in
  isEnPassant m = false /\ isCastling m = false /\
  Move_eqb (fromUCI (toUCI m)) m = false.
Proof. repeat split. Qed.

Example toUCI_e2e4 : toUCI (Move2 12 28) = "e2e4".
Proof. reflexivity. Qed.

Example fromUCI_e7e8q :
  fromUCI "e7e8q" = Move4 52 60 PROMOTION PROMOTE_TO_QUEEN.
Proof. reflexivity. Qed.

(** ** Pieces and their types *)

Lemma typeOf_white_piece (pt : PieceType) :
  pt <> NO_PIECE_TYPE -> typeOf (makePiece WHITE pt) = pt.
Proof. destruct pt; intros H; try reflexivity. contradiction. Qed.

(** [typeOf] takes the piece code modulo 6, but black codes start at 9:
    every black piece is read as another type. *)
Lemma typeOf_black_piece :
  typeOf (makePiece BLACK PAWN) = BISHOP /\
  typeOf (makePiece BLACK KNIGHT) = ROOK /\
  typeOf (makePiece BLACK BISHOP) = QUEEN /\
  typeOf (makePiece BLACK ROOK) = KING /\
  typeOf (makePiece BLACK QUEEN) = PAWN /\
  typeOf (makePiece BLACK KING) = KNIGHT.
Proof. repeat split. Qed.

(** ** The FEN codec *)

Example startpos_boards :
  pieceBitboards startpos =
  [[0xFF00; 0x42; 0x24; 0x81; 0x08; 0x10];
   [0x00FF000000000000; 0x4200000000000000; 0x2400000000000000;
    0x8100000000000000; 0x0800000000000000; 0x1000000000000000]].
Proof. vm_compute. reflexivity. Qed.

Example getPieceAt_startpos :
  getPieceAt startpos E1 = W_KING /\ getPieceAt startpos E8 = B_KING /\
  getPieceAt startpos 52 = B_PAWN /\ getPieceAt startpos 28 = NO_PIECE.
Proof. vm_compute. repeat split. Qed.

(** C1 fails on the starting position.  [toFEN] letters the black
    pieces through [typeOf], so the board field comes out as
    krqpnqrk/bbbbbbbb/..., and parsing that text gives another
    position. *)
Theorem fen_roundtrip_fails_on_startpos :
  toFEN startpos =
    "krqpnqrk/bbbbbbbb/8/8/8/8/PPPPPPPP/RNBQKBNR w KQkq - 0 1" /\
  toFEN startpos <> STARTING_FEN /\
  Position_eqb (initializeFromFEN (toFEN startpos)) startpos = false.
Proof.
  split; [vm_compute; reflexivity|].
  split; [vm_compute; discriminate|].
  vm_compute. reflexivity.
Qed.

(** ** Castling rights in [makeMove] *)

(** For a white piece the rights section sees the real piece type. *)
Lemma makeMove_castlingRights_white (p : Position) (m : Move)
    (pt : PieceType) :
  sideToMove p = WHITE ->
  pt <> NO_PIECE_TYPE ->
  getPieceAt p (from m) = makePiece WHITE pt ->
  castlingRights (makeMove p m) =
  updateCastlingRights (castlingRights p) pt WHITE (from m) (to m).
Proof.
  intros Hs Hpt Hp. unfold makeMove. rewrite Hp, Hs.
  rewrite (typeOf_white_piece pt Hpt).
  repeat match goal with
         | |- context [let '(_, _) := ?e in _] => destruct e
         end.
  reflexivity.
Qed.

(** C4 fails for black.  The generated king move e8-e7 leaves all four
    rights in place, because the black king is read as a knight; the
    generated rook move a8-a7 clears both black rights, because the
    black rook is read as a king. *)
Theorem makeMove_castlingRights_black_misread :
  let p := black_castling_position in
  castlingRights p = ALL_CASTLING /\
  In (Move2 E8 52) (generateLegalMoves p) /\
  getPieceAt p E8 = B_KING /\
  castlingRights (makeMove p (Move2 E8 52)) = ALL_CASTLING /\
  In (Move2 A8 48) (generateLegalMoves p) /\
  getPieceAt p A8 = B_ROOK /\
  castlingRights (makeMove p (Move2 A8 48)) = Z.lor WHITE_OO WHITE_OOO.
Proof.
  cbv zeta.
  assert (Hl : forall m, existsb (Move_eqb m)
                 (generateLegalMoves black_castling_position) = true ->
               In m (generateLegalMoves black_castling_position)).
  { intros m H. apply existsb_exists in H as [x [Hx He]].
    unfold Move_eqb in He. apply Z.eqb_eq in He.
    destruct m, x. simpl in He. subst. exact Hx. }
  split; [vm_compute; reflexivity|].
  split; [apply Hl; vm_compute; reflexivity|].
  split; [vm_compute; reflexivity|].
  split; [vm_compute; reflexivity|].
  split; [apply Hl; vm_compute; reflexivity|].
  split; vm_compute; reflexivity.
Qed.

(** ** PGN move text *)

Lemma chars_eqb_eq (token : chars) (s : string) :
  chars_eqb token s = true -> token = list_ascii_of_string s.
Proof.
  unfold chars_eqb. intros H. apply String.eqb_eq in H.
  rewrite <- H. symmetry. apply list_ascii_of_string_of_list_ascii.
Qed.

(** The loop passes over exactly the tokens that start with a digit
    and the token "*". *)
Lemma skipToken_iff (token : chars) :
  skipToken token = true <->
  isdigit (first_char token) = true \/ chars_eqb token "*" = true.
Proof.
  unfold skipToken, first_char. rewrite !orb_true_iff. split.
  - intros [[[[H|H]|H]|H]|H]; auto;
      apply chars_eqb_eq in H; subst token; left; reflexivity.
  - intros [H|H]; auto.
Qed.

Lemma skipToken_number_or_result (token : chars) :
  isMoveNumberToken token = true \/ isResultToken token = true ->
  skipToken token = true.
Proof.
  unfold isMoveNumberToken, isResultToken, skipToken, first_char.
  rewrite !orb_true_iff, andb_true_iff. intuition.
Qed.

Lemma skipToken_false (token : chars) :
  isdigit (first_char token) = false ->
  isResultToken token = false ->
  skipToken token = false.
Proof.
  unfold isResultToken, skipToken, first_char. intros Hd Hr.
  rewrite Hd. simpl. exact Hr.
Qed.

Lemma interpretTokens_Interprets tokens pos moves err r :
  Interprets tokens pos moves err r ->
  interpretTokens tokens pos moves err = r.
Proof.
  induction 1 as [pos moves err
                 |token rest pos moves err r Hskip _ IH
                 |token rest pos moves err r m Hd Hr Hm Hn _ IH
                 |token rest pos moves err Hd Hr Hn];
    cbn [interpretTokens].
  - reflexivity.
  - rewrite (skipToken_number_or_result token Hskip). exact IH.
  - rewrite (skipToken_false token Hd Hr).
    unfold token_text in Hm. rewrite Hm, Hn. simpl. exact IH.
  - rewrite (skipToken_false token Hd Hr).
    unfold token_text in Hn. rewrite Hn. reflexivity.
Qed.

(** What the loop does with the tokens it does not pass over.
    Whenever the reading of the tokens is settled by the rules -- move
    numbers and result tokens passed over, every token that does not
    start with a digit resolved as SAN against the running position
    and applied, the first one that does not resolve recorded as
    "Invalid move: <token>" with the moves so far kept --
    [parseMoveText] returns exactly that outcome. *)
Theorem parseMoveText_interprets (moveText initialFEN err : string)
    (r : list Move * string) :
  Interprets (moveTextTokens moveText) (initialPosition initialFEN) [] err r ->
  parseMoveText moveText initialFEN err = r.
Proof.
  intros H. unfold parseMoveText.
  apply interpretTokens_Interprets. exact H.
Qed.

Lemma parseMoveText_interprets_witness :
  parseMoveText "1. e4 e5 2. Nf3" "" "" =
  ([Move2 12 28], "Invalid move: e5").
Proof.
  apply parseMoveText_interprets.
  let t := eval vm_compute in (moveTextTokens "1. e4 e5 2. Nf3") in
  change (moveTextTokens "1. e4 e5 2. Nf3") with t.
  apply Interprets_skip; [left; reflexivity|].
  apply (Interprets_move _ _ _ _ _ _ (Move2 12 28));
    [reflexivity | reflexivity | vm_compute; reflexivity | reflexivity |].
  apply (Interprets_stop (list_ascii_of_string "e5"));
    [reflexivity | reflexivity | vm_compute; reflexivity].
Defined.

(** C8 fails on the token "0-0".  It is neither a move number nor a
    result token, and [parseAlgebraicMoveImpl], called on it, reads it
    as kingside castling; yet the loop, which passes over every token
    that starts with a digit, never calls it: no move is returned and
    no error is recorded, where the same text written "O-O" gives the
    castling move. *)
Lemma parseMoveText_skips_zero_castling :
  let token := list_ascii_of_string "0-0" in
  isMoveNumberToken token = false /\
  isResultToken token = false /\
  parseAlgebraicMoveImpl (initialPosition white_kingside_fen) "0-0" =
    Move3 E1 G1 CASTLING /\
  isNull (Move3 E1 G1 CASTLING) = false /\
  skipToken token = true /\
  parseMoveText "0-0" white_kingside_fen "" = ([], "") /\
  parseMoveText "O-O" white_kingside_fen "" = ([Move3 E1 G1 CASTLING], "").
Proof.
  cbv zeta.
  split; [reflexivity|]. split; [reflexivity|].
  split; [vm_compute; reflexivity|]. split; [reflexivity|].
  split; [reflexivity|]. split; vm_compute; reflexivity.
Qed.

(** ** Sorting *)

Section Sorting.

Context {A : Type} (comp : A -> A -> bool).
Hypothesis comp_swo : strict_weak_order comp.

Lemma comp_asym x y : comp x y = true -> comp y x = false.
Proof.
  destruct comp_swo as [Hirr [Htrans _]]. intros Hxy.
  destruct (comp y x) eqn:Hyx; [|reflexivity].
  rewrite <- (Hirr x). symmetry. exact (Htrans x y x Hxy Hyx).
Qed.

Lemma insert_by_perm x l : Permutation (x :: l) (insert_by comp x l).
Proof.
  induction l as [|y r IH]; simpl.
  - apply Permutation_refl.
  - destruct (comp x y).
    + apply Permutation_refl.
    + apply perm_trans with (y :: x :: r); [apply perm_swap|].
      apply perm_skip. exact IH.
Qed.

Lemma insert_by_sorted x l :
  sorted_by comp l -> sorted_by comp (insert_by comp x l).
Proof.
  destruct comp_swo as [_ [Htrans _]].
  unfold sorted_by. induction l as [|y r IH]; intros Hs; simpl.
  - constructor; constructor.
  - apply StronglySorted_inv in Hs as [Hr Hy].
    destruct (comp x y) eqn:Hxy.
    + constructor; [constructor; assumption|].
      constructor; [apply comp_asym; exact Hxy|].
      rewrite Forall_forall in Hy |- *. intros z Hz.
      destruct (comp z x) eqn:Hzx; [|reflexivity].
      rewrite <- (Hy z Hz). symmetry. exact (Htrans z x y Hzx Hxy).
    + constructor; [apply IH; exact Hr|].
      apply (Permutation_Forall (insert_by_perm x r)).
      constructor; assumption.
Qed.

Lemma insertion_fold_perm l acc :
  Permutation (acc ++ l) (fold_left (fun a x => insert_by comp x a) l acc).
Proof.
  revert acc. induction l as [|x r IH]; intros acc; simpl.
  - rewrite app_nil_r. apply Permutation_refl.
  - eapply perm_trans; [|apply IH].
    apply perm_trans with ((x :: acc) ++ r).
    + symmetry. apply Permutation_middle.
    + apply Permutation_app_tail. apply insert_by_perm.
Qed.

Lemma insertion_fold_sorted l acc :
  sorted_by comp acc ->
  sorted_by comp (fold_left (fun a x => insert_by comp x a) l acc).
Proof.
  revert acc. induction l as [|x r IH]; intros acc Hs; simpl.
  - exact Hs.
  - apply IH. apply insert_by_sorted. exact Hs.
Qed.

Lemma insertion_sort_perm l : Permutation l (insertion_sort comp l).
Proof. exact (insertion_fold_perm l []). Qed.

Lemma insertion_sort_sorted l : sorted_by comp (insertion_sort comp l).
Proof. apply insertion_fold_sorted. constructor. Qed.

Lemma sorted_by_sorted_byb l : sorted_by comp l -> sorted_byb comp l = true.
Proof.
  unfold sorted_by. induction 1 as [|x r _ IH Hx]; simpl.
  - reflexivity.
  - rewrite IH, andb_true_r. apply forallb_forall.
    rewrite Forall_forall in Hx. intros y Hy. rewrite (Hx y Hy). reflexivity.
Qed.

End Sorting.

Lemma insertion_sort_contract : sort_contract (@insertion_sort Move).
Proof.
  intros comp l Hswo. split.
  - apply insertion_sort_perm.
  - apply insertion_sort_sorted. exact Hswo.
Qed.

Lemma reversing_sort_contract : sort_contract (@reversing_sort Move).
Proof.
  intros comp l Hswo. unfold reversing_sort. split.
  - apply perm_trans with (rev l); [apply Permutation_rev|].
    apply insertion_sort_perm.
  - apply insertion_sort_sorted. exact Hswo.
Qed.

(** ** Move ordering in the search *)

Lemma captureFirst_spec (pos : Position) (a b : Move) :
  captureFirst pos a b =
  destinationOccupied pos a && negb (destinationOccupied pos b).
Proof. reflexivity. Qed.

Lemma captureFirst_strict_weak_order (pos : Position) :
  strict_weak_order (captureFirst pos).
Proof.
  unfold strict_weak_order. split; [|split].
  - intros x. rewrite captureFirst_spec.
    destruct (destinationOccupied pos x); reflexivity.
  - intros x y z. rewrite !captureFirst_spec.
    destruct (destinationOccupied pos x), (destinationOccupied pos y),
      (destinationOccupied pos z); simpl; congruence.
  - intros x y z. rewrite !captureFirst_spec.
    destruct (destinationOccupied pos x), (destinationOccupied pos y),
      (destinationOccupied pos z); simpl; intros; split; congruence.
Qed.

(** A list sorted by the comparator is a block of moves onto occupied
    squares followed by a block of moves onto empty squares. *)
Lemma sorted_by_captureFirst_split (pos : Position) (l : list Move) :
  sorted_by (captureFirst pos) l ->
  exists l1 l2,
    l = l1 ++ l2 /\
    Forall (fun m => destinationOccupied pos m = true) l1 /\
    Forall (fun m => destinationOccupied pos m = false) l2.
Proof.
  unfold sorted_by. induction 1 as [|x r _ IH Hx].
  - exists [], []. repeat split; constructor.
  - destruct IH as [l1 [l2 [-> [H1 H2]]]].
    destruct (destinationOccupied pos x) eqn:Hox.
    + exists (x :: l1), l2. repeat split; [constructor|]; assumption.
    + exists [], (x :: l1 ++ l2). split; [reflexivity|].
      split; [constructor|]. constructor; [exact Hox|].
      rewrite Forall_forall in Hx |- *. intros y Hy.
      specialize (Hx y Hy). rewrite captureFirst_spec, Hox in Hx.
      simpl in Hx. rewrite andb_true_r in Hx. exact Hx.
Qed.

Lemma StronglySorted_app_r {A : Type} (R : A -> A -> Prop) (l1 l2 : list A) :
  StronglySorted R (l1 ++ l2) -> StronglySorted R l2.
Proof.
  induction l1 as [|x r IH]; simpl; intros H; [exact H|].
  apply StronglySorted_inv in H as [H _]. apply IH. exact H.
Qed.

Lemma isQuietMove_destination (pos : Position) (m : Move) :
  isQuietMove pos m = true -> destinationOccupied pos m = false.
Proof.
  unfold isQuietMove, destinationOccupied.
  intros H. apply andb_true_iff in H as [H _]. rewrite H. reflexivity.
Qed.

Lemma sorted_by_captureFirst_never_after (pos : Position) (l : list Move) :
  sorted_by (captureFirst pos) l ->
  never_after (destinationOccupied pos) (isQuietMove pos) l.
Proof.
  intros Hs pre b post -> Hq a Ha.
  apply StronglySorted_app_r in Hs.
  apply StronglySorted_inv in Hs as [_ Hb].
  rewrite Forall_forall in Hb. specialize (Hb a Ha).
  rewrite captureFirst_spec, (isQuietMove_destination pos b Hq) in Hb.
  simpl in Hb. rewrite andb_true_r in Hb. exact Hb.
Qed.

(** C7, as the code has it.  At a search node with legal moves the
    loop runs over [std::sort]'s output: a permutation of the legal
    moves in which no move onto an occupied square comes after a quiet
    move (destination empty, not en passant).  Nothing is promised
    about the order among moves of equal standing. *)
Theorem search_orders_captures_before_quiet_moves
    (evaluate : Position -> Z)
    (std_sort : (Move -> Move -> bool) -> list Move -> list Move)
    (pos : Position) :
  sort_contract std_sort ->
  let legal := generateLegalMoves pos in
  let ordered := std_sort (captureFirst pos) legal in
  (forall d alpha beta,
     legal <> [] ->
     search evaluate std_sort (S d) pos alpha beta =
     search_loop (search evaluate std_sort d) pos ordered alpha beta
       (mkSearchResult (hd NULL_MOVE legal) (- INT_MAX))) /\
  Permutation legal ordered /\
  never_after (destinationOccupied pos) (isQuietMove pos) ordered.
Proof.
  intros Hsort legal ordered.
  destruct (Hsort (captureFirst pos) legal
              (captureFirst_strict_weak_order pos)) as [Hperm Hsorted].
  split; [|split].
  - intros d alpha beta Hne. cbn [search]. fold legal.
    destruct legal as [|m0 rest] eqn:Hl; [congruence|]. reflexivity.
  - exact Hperm.
  - apply sorted_by_captureFirst_never_after. exact Hsorted.
Qed.

Lemma search_orders_captures_before_quiet_moves_witness :
  let legal := generateLegalMoves en_passant_position in
  let ordered := insertion_sort (captureFirst en_passant_position) legal in
  Permutation legal ordered /\
  never_after (destinationOccupied en_passant_position)
              (isQuietMove en_passant_position) ordered.
Proof.
  exact (proj2 (search_orders_captures_before_quiet_moves
                  material_eval (@insertion_sort Move) en_passant_position
                  insertion_sort_contract)).
Defined.

Example ordered_en_passant_position :
  map toUCI (insertion_sort (captureFirst en_passant_position)
                            (generateLegalMoves en_passant_position)) =
  ["h1h7"; "e5e6"; "e5d6"; "h1f1"; "h1g1"; "h1h2"; "h1h3"; "h1h4";
   "h1h5"; "h1h6"; "e1d1"; "e1f1"; "e1d2"; "e1e2"; "e1f2"]%string.
Proof. vm_compute. reflexivity. Qed.

(** C7, as the specification words it, fails on both counts.  In the position
    with en passant available no output that [std::sort] may produce
    puts the en-passant capture e5xd6 with the captures: the comparator
    looks at the destination square only, and h1xh7 must precede it.
    And a conforming sort may reorder equal moves: from the starting
    position, where no move is a capture, it may return the legal
    moves reversed. *)
Lemma capture_first_order_counterexample :
  (forall ordered,
     Permutation (generateLegalMoves en_passant_position) ordered ->
     sorted_by (captureFirst en_passant_position) ordered ->
     ordered <> capturesFirstStable en_passant_position
                  (generateLegalMoves en_passant_position)) /\
  sort_contract (@reversing_sort Move) /\
  reversing_sort (captureFirst startpos) (generateLegalMoves startpos) <>
  capturesFirstStable startpos (generateLegalMoves startpos).
Proof.
  split; [|split].
  - intros ordered _ Hs ->.
    apply sorted_by_sorted_byb in Hs. vm_compute in Hs. discriminate.
  - exact reversing_sort_contract.
  - intros H. apply (f_equal (map data)) in H. vm_compute in H. discriminate.
Qed.

(** ** Bitboards and squares *)

Lemma two64_pow : two64 = 2 ^ 64.
Proof. reflexivity. Qed.

Lemma testbit_one (k : Z) : Z.testbit 1 k = (k =? 0).
Proof.
  destruct k as [|p|p]; reflexivity.
Qed.

Lemma squareBB_testbit (sq i : Z) :
  Z.testbit (squareBB sq) i = (i =? sq) && (0 <=? i) && (i <? 64).
Proof.
  unfold squareBB, wrap64. rewrite two64_pow.
  destruct (Z.ltb_spec i 0) as [Hneg|Hnn].
  - rewrite Z.testbit_neg_r by exact Hneg.
    destruct (Z.leb_spec 0 i); [lia|]. rewrite andb_false_r. reflexivity.
  - destruct (Z.ltb_spec i 64) as [Hlt|Hge].
    + rewrite Z.mod_pow2_bits_low by lia.
      rewrite Z.shiftl_spec by exact Hnn. rewrite testbit_one.
      destruct (Z.leb_spec 0 i); [|lia]. rewrite !andb_true_r.
      destruct (Z.eqb_spec (i - sq) 0), (Z.eqb_spec i sq); try reflexivity; lia.
    + rewrite Z.mod_pow2_bits_high by lia. rewrite andb_false_r. reflexivity.
Qed.

Lemma pos_squares_spec (p : positive) (i s : Z) :
  In s (pos_squares p i) -> i <= s /\ Z.testbit (Zpos p) (s - i) = true.
Proof.
  revert i. induction p as [q IH|q IH|]; intros i; cbn [pos_squares In].
  - intros [<-|H].
    + split; [lia|]. rewrite Z.sub_diag. reflexivity.
    + apply IH in H as [Hle Hb]. split; [lia|].
      replace (s - i) with (Z.succ (s - (i + 1))) by lia.
      rewrite Pos2Z.inj_xI, Z.testbit_odd_succ by lia. exact Hb.
  - intros H. apply IH in H as [Hle Hb]. split; [lia|].
    replace (s - i) with (Z.succ (s - (i + 1))) by lia.
    rewrite Pos2Z.inj_xO, Z.testbit_even_succ by lia. exact Hb.
  - intros [<-|[]]. split; [lia|]. rewrite Z.sub_diag. reflexivity.
Qed.

Lemma squares_of_spec (b : Bitboard) (s : Z) :
  In s (squares_of b) -> 0 <= s /\ Z.testbit b s = true.
Proof.
  destruct b as [|p|p]; simpl; try contradiction.
  intros H. apply pos_squares_spec in H. rewrite Z.sub_0_r in H. exact H.
Qed.

Lemma testbit_lt_64 (b s : Z) :
  0 <= b < two64 -> Z.testbit b s = true -> s < 64.
Proof.
  intros Hb Ht. destruct (Z.ltb_spec s 64) as [|Hge]; [assumption|].
  destruct (Z.eq_dec b 0) as [->|Hnz]; [rewrite Z.bits_0 in Ht; discriminate|].
  rewrite Z.bits_above_log2 in Ht; [discriminate|lia|].
  apply Z.lt_le_trans with 64; [|exact Hge].
  apply Z.log2_lt_pow2; [lia|]. rewrite <- two64_pow. lia.
Qed.

Lemma pos_ctz_nonneg (p : positive) : 0 <= pos_ctz p.
Proof. induction p; cbn [pos_ctz]; lia. Qed.

Lemma pos_ctz_testbit (p : positive) : Z.testbit (Zpos p) (pos_ctz p) = true.
Proof.
  induction p as [q IH|q IH|]; cbn [pos_ctz]; try reflexivity.
  replace (1 + pos_ctz q) with (Z.succ (pos_ctz q)) by lia.
  rewrite Pos2Z.inj_xO, Z.testbit_even_succ by apply pos_ctz_nonneg. exact IH.
Qed.

Lemma lsb_range (b : Bitboard) : 0 <= b < two64 -> 0 <= lsb b < 64.
Proof.
  intros Hb. destruct b as [|p|p]; simpl; try lia.
  split; [apply pos_ctz_nonneg|].
  apply (testbit_lt_64 (Zpos p)); [exact Hb|apply pos_ctz_testbit].
Qed.


Lemma land_double_pred (a : Z) :
  Z.land (2 * a) (2 * a - 1) = 2 * Z.land a (a - 1).
Proof.
  apply Z.bits_inj'. intros n Hn.
  rewrite Z.land_spec.
  destruct (Z.eq_dec n 0) as [->|Hnz].
  - rewrite !Z.testbit_even_0. reflexivity.
  - replace n with (Z.succ (n - 1)) by lia.
    replace (2 * a - 1) with (2 * (a - 1) + 1) by lia.
    rewrite !Z.testbit_even_succ, Z.testbit_odd_succ by lia.
    rewrite Z.land_spec. reflexivity.
Qed.

Lemma land_odd_pred (a : Z) : Z.land (2 * a + 1) (2 * a + 1 - 1) = 2 * a.
Proof.
  replace (2 * a + 1 - 1) with (2 * a) by lia.
  apply Z.bits_inj'. intros n Hn. rewrite Z.land_spec.
  destruct (Z.eq_dec n 0) as [->|Hnz].
  - rewrite Z.testbit_even_0. apply andb_false_r.
  - replace n with (Z.succ (n - 1)) by lia.
    rewrite Z.testbit_odd_succ, Z.testbit_even_succ by lia.
    apply andb_diag.
Qed.

Lemma squares_from_double (x i : Z) :
  0 <= x -> squares_from (2 * x) i = squares_from x (i + 1).
Proof. destruct x as [|p|p]; intros H; reflexivity. Qed.

Lemma land_pred_nonneg (a : Z) : 0 < a -> 0 <= Z.land a (a - 1).
Proof. intros H. apply Z.land_nonneg. left. lia. Qed.

Lemma pos_squares_pop (p : positive) (i : Z) :
  pos_squares p i =
  (i + pos_ctz p) :: squares_from (Z.land (Zpos p) (Zpos p - 1)) i.
Proof.
  revert i. induction p as [q IH|q IH|]; intros i.
  - cbn [pos_squares pos_ctz]. rewrite Z.add_0_r. f_equal.
    assert (E : Z.land (Z.pos q~1) (Z.pos q~1 - 1) = Z.pos q~0).
    { rewrite Pos2Z.inj_xI, Pos2Z.inj_xO. apply land_odd_pred. }
    rewrite E. reflexivity.
  - cbn [pos_squares pos_ctz]. rewrite (IH (i + 1)).
    f_equal; [lia|].
    rewrite (Pos2Z.inj_xO q), land_double_pred.
    rewrite squares_from_double by (apply land_pred_nonneg; lia).
    reflexivity.
  - cbn [pos_squares pos_ctz]. rewrite Z.add_0_r. reflexivity.
Qed.

(** One turn of a [while (b) { sq = popLsb(b); ... }] loop: the square
    handed out is the head of [squares_of b], the bitboard left is the
    one whose squares are the tail. *)
Lemma squares_of_popLsb (b : Bitboard) :
  0 < b < two64 ->
  squares_of b = fst (popLsb b) :: squares_of (snd (popLsb b)).
Proof.
  intros Hb. destruct b as [|p|p]; try lia.
  unfold popLsb, squares_of, lsb, wrap64. cbn [fst snd].
  rewrite Z.mod_small by lia.
  rewrite (pos_squares_pop p 0). reflexivity.
Qed.

Lemma squares_of_zero : squares_of 0 = [].
Proof. reflexivity. Qed.

(** ** Attack sets and the shape of generated moves *)

Lemma wf_bitboards_get (pos : Position) (pt : PieceType) (c : Color) :
  wf_bitboards pos -> 0 <= getPieceBitboard pos pt c < two64.
Proof.
  unfold wf_bitboards, wf_bitboardsb, getPieceBitboard, boards_get.
  intros H. rewrite forallb_forall in H.
  destruct (nth_in_or_default (color_index c) (pieceBitboards pos) [])
    as [Hin|Hd].
  - specialize (H _ Hin). rewrite forallb_forall in H.
    destruct (nth_in_or_default (piece_index pt)
                (nth (color_index c) (pieceBitboards pos) []) 0) as [Hin'|Hd'].
    + specialize (H _ Hin'). unfold two64 in *. lia.
    + rewrite Hd'. unfold two64. lia.
  - rewrite Hd. destruct (piece_index pt); simpl; unfold two64; lia.
Qed.

Lemma attack_tables_ok :
  forallb (fun sq => attack_table_ok (Gen.pawnAttacks WHITE) sq &&
                     attack_table_ok (Gen.pawnAttacks BLACK) sq &&
                     attack_table_ok Gen.knightAttacks sq &&
                     attack_table_ok Gen.kingAttacks sq)
          (Z_range 64 0) = true.
Proof. vm_compute. reflexivity. Qed.

Lemma attack_table_bits (table : Square -> Bitboard) (f t : Z) :
  attack_table_ok table f = true ->
  Z.testbit (table f) t = true -> 0 <= t < 64 /\ t <> f.
Proof.
  unfold attack_table_ok. rewrite !andb_true_iff, negb_true_iff.
  intros [[H0 H1] H2] Ht.
  split; [split|].
  - destruct (Z.ltb_spec t 0) as [Hneg|]; [|assumption].
    rewrite Z.testbit_neg_r in Ht by exact Hneg. discriminate.
  - apply (testbit_lt_64 (table f)); [lia|exact Ht].
  - intros ->. congruence.
Qed.

Lemma attack_tables_at (f : Z) :
  0 <= f < 64 ->
  attack_table_ok (Gen.pawnAttacks WHITE) f = true /\
  attack_table_ok (Gen.pawnAttacks BLACK) f = true /\
  attack_table_ok Gen.knightAttacks f = true /\
  attack_table_ok Gen.kingAttacks f = true.
Proof.
  intros Hf. pose proof attack_tables_ok as H.
  rewrite forallb_forall in H.
  specialize (H f (Z_range_In 64 0 f ltac:(simpl; lia))).
  rewrite !andb_true_iff in H. tauto.
Qed.

(** Every square a ray adds is on the board and [k + 1] steps away
    from the origin. *)
Lemma ray_walk_bits (n : nat) (dr df : Z) (occupied : Bitboard) :
  forall (r f : Z) (attacks : Bitboard) (i : Z),
    Z.testbit (ray_walk n r f dr df occupied attacks) i = true ->
    Z.testbit attacks i = true \/
    exists k, 0 <= k < Z.of_nat n /\
              i = makeSquare (f + k * df) (r + k * dr) /\ 0 <= i < 64.
Proof.
  induction n as [|m IH]; intros r f attacks i H; cbn [ray_walk] in H.
  - left. exact H.
  - assert (Hstep : Z.testbit (Z.lor attacks (squareBB (makeSquare f r))) i = true ->
                    Z.testbit attacks i = true \/
                    exists k, 0 <= k < Z.of_nat (S m) /\
                      i = makeSquare (f + k * df) (r + k * dr) /\ 0 <= i < 64).
    { rewrite Z.lor_spec, squareBB_testbit, orb_true_iff, !andb_true_iff.
      intros [Ha|[[He H0] H64]]; [left; exact Ha|right].
      exists 0. apply Z.eqb_eq in He. rewrite !Z.mul_0_l, !Z.add_0_r.
      split; [lia|]. split; [exact He|lia]. }
    destruct (negb (Z.land occupied (squareBB (makeSquare f r)) =? 0)).
    + apply Hstep. exact H.
    + apply IH in H as [H|[k [Hk [Hi Hr]]]].
      * apply Hstep. exact H.
      * right. exists (k + 1). split; [lia|]. split; [|exact Hr].
        rewrite Hi. unfold makeSquare. lia.
Qed.

Lemma square_split (sq : Z) : 0 <= sq -> sq = rankOf sq * 8 + fileOf sq.
Proof.
  intros H. unfold rankOf, fileOf.
  rewrite Z.shiftr_div_pow2 by lia.
  change 7 with (Z.ones 3). rewrite Z.land_ones by lia.
  change (2 ^ 3) with 8. pose proof (Z.div_mod sq 8). lia.
Qed.

Lemma rook_rays_bits (sq : Square) (occupied : Bitboard) (t : Z) :
  0 <= sq ->
  Z.testbit (rook_rays sq occupied) t = true -> 0 <= t < 64 /\ t <> sq.
Proof.
  intros Hsq H. pose proof (square_split sq Hsq) as E.
  unfold rook_rays in H.
  repeat (apply ray_walk_bits in H as [H|[k [Hk [-> Hr]]]];
          [|split; [exact Hr|unfold makeSquare in *; lia]]).
  rewrite Z.bits_0 in H. discriminate.
Qed.

Lemma bishop_rays_bits (sq : Square) (occupied : Bitboard) (t : Z) :
  0 <= sq ->
  Z.testbit (bishop_rays sq occupied) t = true -> 0 <= t < 64 /\ t <> sq.
Proof.
  intros Hsq H. pose proof (square_split sq Hsq) as E.
  unfold bishop_rays in H.
  repeat (apply ray_walk_bits in H as [H|[k [Hk [-> Hr]]]];
          [|split; [exact Hr|unfold makeSquare in *; lia]]).
  rewrite Z.bits_0 in H. discriminate.
Qed.

Lemma shape_check_all :
  forallb (fun f => forallb (shape_check f) (Z_range 96 (-16))) (Z_range 64 0)
  = true.
Proof. vm_compute. reflexivity. Qed.

Lemma generated_shape_props (lo : Z) (m : Move) :
  -16 <= lo ->
  generated_shape lo m ->
  isNull m = false /\ ~ In (data m) castling_words /\
  (0 <= lo -> isCastling m = false).
Proof.
  intros Hlo [f [t [ty [pr [-> [Hf [Ht [Hne Hty]]]]]]]].
  pose proof shape_check_all as H. rewrite forallb_forall in H.
  specialize (H f (Z_range_In 64 0 f ltac:(simpl; lia))).
  rewrite forallb_forall in H.
  specialize (H t (Z_range_In 96 (-16) t ltac:(simpl; lia))).
  unfold shape_check in H. apply orb_true_iff in H as [H|H].
  - apply Z.eqb_eq in H. contradiction.
  - rewrite forallb_forall in H.
    assert (Hin : In ty [NORMAL; PROMOTION; EN_PASSANT]).
    { destruct ty; simpl; auto; congruence. }
    specialize (H ty Hin). rewrite forallb_forall in H.
    assert (Hpr : In pr [PROMOTE_TO_QUEEN; PROMOTE_TO_ROOK;
                         PROMOTE_TO_BISHOP; PROMOTE_TO_KNIGHT]).
    { destruct pr; simpl; auto. }
    specialize (H pr Hpr). cbv zeta in H.
    apply andb_true_iff in H as [H Ht0].
    apply andb_true_iff in H as [Hn Hc].
    apply negb_true_iff in Hn, Hc. split; [exact Hn|]. split.
    + intros Hw. assert (E : existsb (Z.eqb (data (Move4 f t ty pr)))
                                     castling_words = true).
      { apply existsb_exists. eexists. split; [exact Hw|apply Z.eqb_refl]. }
      congruence.
    + intros H0. apply orb_true_iff in Ht0 as [Ht0|Ht0].
      * apply Z.ltb_lt in Ht0. lia.
      * apply negb_true_iff in Ht0. exact Ht0.
Qed.

Lemma generated_shape_weaken (lo lo' : Z) (m : Move) :
  lo' <= lo -> generated_shape lo m -> generated_shape lo' m.
Proof.
  intros Hle [f [t [ty [pr [E [Hf [Ht [Hne Hty]]]]]]]].
  exists f, t, ty, pr. repeat split; try assumption; lia.
Qed.

Ltac shape f t ty pr :=
  exists f, t, ty, pr;
  split; [reflexivity|];
  split; [lia|]; split; [lia|]; split; [lia|discriminate].

Lemma promotions_shape (lo f t : Z) :
  0 <= f < 64 -> lo <= t < 80 -> t <> f ->
  Forall (generated_shape lo) (Gen.promotions f t).
Proof.
  intros Hf Ht Hne. unfold Gen.promotions.
  repeat constructor.
  - shape f t PROMOTION PROMOTE_TO_QUEEN.
  - shape f t PROMOTION PROMOTE_TO_ROOK.
  - shape f t PROMOTION PROMOTE_TO_BISHOP.
  - shape f t PROMOTION PROMOTE_TO_KNIGHT.
Qed.

Lemma land_squareBB_nonzero (a : Z) (sq : Square) :
  nonzero (Z.land a (squareBB sq)) = true ->
  Z.testbit a sq = true /\ 0 <= sq < 64.
Proof.
  unfold nonzero. rewrite negb_true_iff, Z.eqb_neq. intros Hnz.
  destruct (Z.testbit a sq) eqn:Ha;
    destruct (Z.leb_spec 0 sq) as [H0|H0];
    destruct (Z.ltb_spec sq 64) as [H1|H1];
    try (split; [reflexivity|lia]);
    exfalso; apply Hnz; apply Z.bits_inj'; intros n Hn;
    rewrite Z.land_spec, squareBB_testbit, Z.bits_0;
    destruct (Z.eqb_spec n sq) as [->|Hne];
    rewrite ?Ha, ?andb_false_r; try reflexivity;
    destruct (Z.leb_spec 0 sq), (Z.ltb_spec sq 64); try lia;
    rewrite ?andb_false_r; reflexivity.
Qed.

Lemma land_bits_l (a b : Z) (s : Z) :
  In s (squares_of (Z.land a b)) -> 0 <= s /\ Z.testbit a s = true.
Proof.
  intros H. apply squares_of_spec in H as [H0 H].
  rewrite Z.land_spec in H. apply andb_true_iff in H. tauto.
Qed.

Lemma black_rank_7_squares :
  forallb (fun f => implb (Z.testbit black_rank_7 f) (48 <=? f))
          (Z_range 64 0) = true.
Proof. vm_compute. reflexivity. Qed.

Lemma on_black_rank_7 (f : Square) :
  nonzero (Z.land (squareBB f) black_rank_7) = true -> 48 <= f.
Proof.
  rewrite Z.land_comm. intros H.
  apply land_squareBB_nonzero in H as [Hbit Hr].
  pose proof black_rank_7_squares as Hall. rewrite forallb_forall in Hall.
  specialize (Hall f (Z_range_In 64 0 f ltac:(simpl; lia))).
  rewrite Hbit in Hall. simpl in Hall. apply Z.leb_le in Hall. exact Hall.
Qed.

(** The bound [lo] is [-16] in general, and [0] once a black pawn is
    known to stand above the first rank. *)
Lemma pawnMovesFrom_shape (lo : Z) (pos : Position) (us : Color)
    (theirPieces occupied : Bitboard) (f : Square) :
  0 <= f < 64 ->
  lo = -16 \/ (lo = 0 /\ (us = BLACK -> 8 <= f)) ->
  Forall (generated_shape lo)
         (Gen.pawnMovesFrom pos us theirPieces occupied f).
Proof.
  intros Hf Hlo. destruct (attack_tables_at f Hf) as [Hw [Hb _]].
  assert (Hpawn : forall t, Z.testbit (Gen.pawnAttacks us f) t = true ->
                            0 <= t < 64 /\ t <> f).
  { intros t. destruct us; apply attack_table_bits; assumption. }
  assert (Hlo0 : -16 <= lo <= 0) by lia.
  assert (Hpush : lo <= f + match us with WHITE => 8 | BLACK => -8 end).
  { destruct us; [lia|]. destruct Hlo as [->|[-> H8]]; [lia|].
    specialize (H8 eq_refl). lia. }
  unfold Gen.pawnMovesFrom. cbv zeta.
  apply Forall_app. split; [|apply Forall_app; split].
  - destruct (negb _); [|constructor].
    destruct (nonzero (Z.land (squareBB f) _)).
    + apply promotions_shape; destruct us; lia.
    + constructor.
      * destruct us; [shape f (f + 8) NORMAL PROMOTE_TO_QUEEN
                     |shape f (f + -8) NORMAL PROMOTE_TO_QUEEN].
      * destruct (nonzero (Z.land (squareBB f) _)) eqn:Hrank;
          cbn [andb]; [|constructor].
        destruct (negb _); [|constructor]. constructor; [|constructor].
        destruct us; [shape f (f + 16) NORMAL PROMOTE_TO_QUEEN|].
        apply on_black_rank_7 in Hrank.
        shape f (f + -16) NORMAL PROMOTE_TO_QUEEN.
  - apply Forall_flat_map. apply Forall_forall. intros t Ht.
    apply land_bits_l in Ht as [_ Ht]. apply Hpawn in Ht as [Hr Hne].
    destruct (nonzero _).
    + apply promotions_shape; lia.
    + constructor; [|constructor]. shape f t NORMAL PROMOTE_TO_QUEEN.
  - destruct (negb (enPassantSquare pos =? NO_SQUARE)); simpl; [|constructor].
    destruct (nonzero _) eqn:Hnz; [|constructor].
    apply land_squareBB_nonzero in Hnz as [Hbit Hr].
    apply Hpawn in Hbit as [_ Hne].
    constructor; [|constructor].
    shape f (enPassantSquare pos) EN_PASSANT PROMOTE_TO_QUEEN.
Qed.

Lemma squares_of_range (b : Bitboard) (s : Z) :
  0 <= b < two64 -> In s (squares_of b) -> 0 <= s < 64.
Proof.
  intros Hb H. apply squares_of_spec in H as [H0 Ht].
  split; [exact H0|]. exact (testbit_lt_64 b s Hb Ht).
Qed.

Lemma getAttacks_bits (PT : PieceType) (f : Square) (occupied : Bitboard)
    (t : Z) :
  0 <= f < 64 ->
  Z.testbit (Gen.getAttacks PT f occupied) t = true -> 0 <= t < 64 /\ t <> f.
Proof.
  intros Hf. destruct (attack_tables_at f Hf) as [_ [_ [Hn _]]].
  destruct PT; cbn [Gen.getAttacks];
    try (rewrite Z.bits_0; discriminate).
  - apply attack_table_bits. exact Hn.
  - apply bishop_rays_bits. lia.
  - apply rook_rays_bits. lia.
  - rewrite Z.lor_spec, orb_true_iff.
    intros [H|H]; [revert H; apply bishop_rays_bits
                  |revert H; apply rook_rays_bits]; lia.
Qed.

Lemma generatePieceMoves_shape (PT : PieceType) (pos : Position) (us : Color)
    (ourPieces occupied : Bitboard) :
  wf_bitboards pos ->
  Forall (generated_shape 0)
         (Gen.generatePieceMoves PT pos us ourPieces occupied).
Proof.
  intros Hwf. unfold Gen.generatePieceMoves.
  apply Forall_flat_map. apply Forall_forall. intros f Hf.
  apply squares_of_range in Hf; [|apply wf_bitboards_get; exact Hwf].
  cbv zeta. apply Forall_map. apply Forall_forall. intros t Ht.
  apply land_bits_l in Ht as [_ Ht].
  apply getAttacks_bits in Ht as [Hr Hne]; [|exact Hf].
  shape f t NORMAL PROMOTE_TO_QUEEN.
Qed.

Lemma above_rank_1 (b : Bitboard) (f : Z) :
  Z.land b 255 = 0 -> 0 <= f -> Z.testbit b f = true -> 8 <= f.
Proof.
  intros Hl Hf Hb. destruct (Z.leb_spec 8 f) as [|Hlt]; [assumption|].
  assert (H : Z.testbit (Z.land b 255) f = true).
  { rewrite Z.land_spec, Hb. change 255 with (Z.ones 8).
    rewrite Z.ones_spec_low by lia. reflexivity. }
  rewrite Hl, Z.bits_0 in H. discriminate.
Qed.

Lemma generatePawnMoves_shape (lo : Z) (pos : Position) (us : Color)
    (ourPieces theirPieces occupied : Bitboard) :
  wf_bitboards pos ->
  lo = -16 \/ (lo = 0 /\ (us = BLACK -> no_black_pawn_on_rank_1 pos)) ->
  Forall (generated_shape lo)
         (Gen.generatePawnMoves pos us ourPieces theirPieces occupied).
Proof.
  intros Hwf Hlo. unfold Gen.generatePawnMoves.
  apply Forall_flat_map. apply Forall_forall. intros f Hf.
  pose proof (squares_of_spec _ _ Hf) as [_ Hbit].
  apply squares_of_range in Hf; [|apply wf_bitboards_get; exact Hwf].
  apply pawnMovesFrom_shape; [exact Hf|].
  destruct Hlo as [->|[-> H]]; [left; reflexivity|right].
  split; [reflexivity|]. intros ->.
  apply (above_rank_1 _ f (H eq_refl)); [lia|exact Hbit].
Qed.

Lemma generateKingMoves_shape (pos : Position) (us : Color)
    (ourPieces occupied : Bitboard) :
  wf_bitboards pos ->
  Forall (generated_shape 0)
         (Gen.generateKingMoves pos us ourPieces occupied).
Proof.
  intros Hwf. unfold Gen.generateKingMoves. cbv zeta.
  pose proof (lsb_range _ (wf_bitboards_get pos KING us Hwf)) as Hk.
  destruct (attack_tables_at _ Hk) as [_ [_ [_ Hking]]].
  apply Forall_map. apply Forall_forall. intros t Ht.
  apply land_bits_l in Ht as [_ Ht].
  apply (attack_table_bits _ _ _ Hking) in Ht as [Hr Hne].
  shape (lsb (getPieceBitboard pos KING us)) t NORMAL PROMOTE_TO_QUEEN.
Qed.

(** ** Castling *)

Lemma makePiece_not_empty (c : Color) (pt : PieceType) :
  makePiece c pt <> NO_PIECE.
Proof. destruct c, pt; discriminate. Qed.

Lemma first_piece_on_empty (b : Boards) (sqBB : Bitboard)
    (cands : list (Color * PieceType)) :
  first_piece_on b sqBB cands = NO_PIECE <->
  Forall (fun cp => Z.land (boards_get b (fst cp) (snd cp)) sqBB = 0) cands.
Proof.
  induction cands as [|[c pt] rest IH]; cbn [first_piece_on].
  - split; [constructor|reflexivity].
  - destruct (Z.eqb_spec (Z.land (boards_get b c pt) sqBB) 0) as [E|E];
      cbn [negb].
    + rewrite IH. split.
      * intros H. constructor; assumption.
      * intros H. inversion H. assumption.
    + split.
      * intros H. apply makePiece_not_empty in H. contradiction.
      * intros H. inversion H. contradiction.
Qed.




Lemma occupied_either_way (pos : Position) (us : Color) :
  Z.lor (getColorBitboard pos us) (getColorBitboard pos (opp us)) =
  getOccupiedBitboard pos.
Proof. destruct us; [reflexivity|apply Z.lor_comm]. Qed.



Lemma In_two_optional (c1 c2 : bool) (a b m : Move) :
  In m ((if c1 then [a] else []) ++ (if c2 then [b] else [])) <->
  (c1 = true /\ m = a) \/ (c2 = true /\ m = b).
Proof.
  rewrite in_app_iff. destruct c1, c2; simpl; intuition congruence.
Qed.

Lemma castling_moves_words (pos : Position) (us : Color) (occupied : Bitboard)
    (m : Move) :
  In m (Gen.generateCastlingMoves pos us occupied) ->
  In (data m) castling_words.
Proof.
  unfold Gen.generateCastlingMoves.
  destruct (isInCheck pos); [contradiction|].
  destruct us; rewrite In_two_optional; intros [[_ ->]|[_ ->]];
    vm_compute; tauto.
Qed.


Lemma castling_words_not_null (m : Move) :
  In (data m) castling_words -> isNull m = false.
Proof.
  unfold isNull. intros [H|[H|[H|[H|[]]]]]; rewrite <- H; reflexivity.
Qed.

(** A generated move either has the shape of a pawn, piece or king
    move, or comes from [generateCastlingMoves]. *)
Lemma generatePseudoLegalMoves_cases (lo : Z) (pos : Position) (m : Move) :
  wf_bitboards pos ->
  lo = -16 \/ (lo = 0 /\ no_black_pawn_on_rank_1 pos) ->
  In m (generatePseudoLegalMoves pos) ->
  generated_shape lo m \/
  In m (Gen.generateCastlingMoves pos (sideToMove pos)
          (getOccupiedBitboard pos)).
Proof.
  intros Hwf Hlo. unfold generatePseudoLegalMoves, Gen.generateAllMoves.
  cbv zeta. rewrite occupied_either_way, !in_app_iff.
  assert (Hle : lo <= 0) by lia.
  intros [H|[H|[H|[H|[H|[H|H]]]]]]; [left..|right; exact H];
    [|apply (generated_shape_weaken 0 lo m Hle)..];
    revert m H; apply Forall_forall.
  - apply generatePawnMoves_shape; [exact Hwf|]. tauto.
  - apply generatePieceMoves_shape; exact Hwf.
  - apply generatePieceMoves_shape; exact Hwf.
  - apply generatePieceMoves_shape; exact Hwf.
  - apply generatePieceMoves_shape; exact Hwf.
  - apply generateKingMoves_shape; exact Hwf.
Qed.



Lemma pseudo_legal_not_null (pos : Position) (m : Move) :
  wf_bitboards pos ->
  In m (generatePseudoLegalMoves pos) -> isNull m = false.
Proof.
  intros Hwf H.
  apply (generatePseudoLegalMoves_cases (-16)) in H as [H|H];
    [| |exact Hwf|left; reflexivity].
  - apply generated_shape_props in H; [tauto|lia].
  - apply castling_words_not_null.
    exact (castling_moves_words _ _ _ _ H).
Qed.







(** *** A position to run the characterisation on *)



(** When the king stands on e1, as it must for a castling right to be
    set, the squares tested are e1, f1 and g1. *)
Example white_kingside_castling_allowed :
  castling_allowed white_kingside_position WHITE_OO [F1; G1] [F1; G1] /\
  squares_safe white_kingside_position [E1; F1; G1] /\
  no_black_pawn_on_rank_1 white_kingside_position.
Proof.
  unfold castling_allowed, squares_empty, squares_safe.
  split; [|split].
  - split; [vm_compute; reflexivity|]. split; [vm_compute; reflexivity|].
    split; repeat constructor; vm_compute; reflexivity.
  - repeat constructor; vm_compute; reflexivity.
  - vm_compute. reflexivity.
Qed.

Example white_kingside_castling_generated :
  map toUCI (generatePseudoLegalMoves white_kingside_position) =
  ["h1f1"; "h1g1"; "h1h2"; "h1h3"; "h1h4"; "h1h5"; "h1h6"; "h1h7"; "h1h8";
   "e1d1"; "e1f1"; "e1d2"; "e1e2"; "e1f2"; "e1g1"]%string /\
  kingSquareOf white_kingside_position = E1.
Proof. split; vm_compute; reflexivity. Qed.

(** ** Best move *)

Lemma legal_not_null (pos : Position) (m : Move) :
  wf_bitboards pos -> In m (generateLegalMoves pos) -> isNull m = false.
Proof.
  intros Hwf H. unfold generateLegalMoves in H. apply filter_In in H as [H _].
  exact (pseudo_legal_not_null pos m Hwf H).
Qed.

Lemma search_loop_move (rec : Position -> Z -> Z -> SearchResult)
    (pos : Position) (moves : list Move) :
  forall alpha beta best,
    move (search_loop rec pos moves alpha beta best) = move best \/
    In (move (search_loop rec pos moves alpha beta best)) moves.
Proof.
  induction moves as [|m rest IH]; intros alpha beta best; cbn [search_loop].
  - left. reflexivity.
  - cbv zeta.
    set (s := - score (rec (makeMove pos m) (- beta) (- alpha))).
    assert (Hb : move (if s >? score best then mkSearchResult m s else best)
                 = move best \/
                 move (if s >? score best then mkSearchResult m s else best)
                 = m).
    { destruct (s >? score best); [right|left]; reflexivity. }
    destruct (Z.max alpha s >=? beta).
    + destruct Hb as [Hb|Hb]; [left; exact Hb|right; left; symmetry; exact Hb].
    + destruct (IH (Z.max alpha s) beta
                   (if s >? score best then mkSearchResult m s else best))
        as [H|H].
      * rewrite H. destruct Hb as [Hb|Hb];
          [left; exact Hb|right; left; symmetry; exact Hb].
      * right. right. exact H.
Qed.

(** The null move and the list of [generateLegalMoves].  For every
    evaluator, every conforming [std::sort], every position whose
    bitboards are 64-bit values and every depth of at least 1,
    [findBestMove] returns the null move iff [generateLegalMoves]
    returns no move. *)
Theorem findBestMove_null_iff_no_legal_moves
    (evaluate : Position -> Z)
    (std_sort : (Move -> Move -> bool) -> list Move -> list Move)
    (pos : Position) (depth : nat) :
  sort_contract std_sort ->
  wf_bitboards pos ->
  (1 <= depth)%nat ->
  isNull (findBestMove evaluate std_sort pos depth) = true <->
  generateLegalMoves pos = [].
Proof.
  intros Hsort Hwf Hd. destruct depth as [|d]; [lia|].
  unfold findBestMove. cbn [search].
  destruct (generateLegalMoves pos) as [|m0 rest] eqn:Hl.
  - split; [reflexivity|]. intros _. destruct (isInCheck pos); reflexivity.
  - split; [|discriminate]. intros Hnull. exfalso.
    destruct (Hsort (captureFirst pos) (m0 :: rest)
                (captureFirst_strict_weak_order pos)) as [Hperm _].
    assert (Hlegal : forall m, In m (m0 :: rest) -> isNull m = false).
    { intros m Hm. apply (legal_not_null pos m Hwf). rewrite Hl. exact Hm. }
    destruct (search_loop_move (search evaluate std_sort d) pos
                (std_sort (captureFirst pos) (m0 :: rest))
                (- INT_MAX) INT_MAX (mkSearchResult m0 (- INT_MAX)))
      as [H|H].
    + rewrite H in Hnull. cbn [move] in Hnull.
      rewrite (Hlegal m0 (or_introl eq_refl)) in Hnull. discriminate.
    + apply (Permutation_in _ (Permutation_sym Hperm)) in H.
      rewrite (Hlegal _ H) in Hnull. discriminate.
Qed.

Lemma startpos_wf : wf_bitboards startpos.
Proof. vm_compute. reflexivity. Qed.

Lemma findBestMove_null_iff_no_legal_moves_witness :
  isNull (findBestMove material_eval (@insertion_sort Move) startpos 2) = true
  <-> generateLegalMoves startpos = [].
Proof.
  exact (findBestMove_null_iff_no_legal_moves
           material_eval (@insertion_sort Move) startpos 2
           insertion_sort_contract startpos_wf (le_S 1 1 (le_n 1))).
Defined.

Example findBestMove_startpos :
  toUCI (findBestMove material_eval (@insertion_sort Move) startpos 2) = "a2a3".
Proof. vm_compute. reflexivity. Qed.

Example findBestMove_immobile :
  generateLegalMoves immobile_position = [] /\
  findBestMove material_eval (@insertion_sort Move) immobile_position 3
  = NULL_MOVE.
Proof. split; vm_compute; reflexivity. Qed.

(** The legal moves that [search] tests are those of
    [generateLegalMoves], which keeps a pseudo-legal move when the
    side to move after it is not in check.  Below, Black's king on a8
    has three steps, all onto squares the white queen attacks; all
    three are kept, and the search returns the first. *)
Example generateLegalMoves_queen_stalemate :
  map toUCI (generateLegalMoves queen_stalemate_position) =
  ["a8a7"; "a8b7"; "a8b8"]%string /\
  toUCI (findBestMove material_eval (@insertion_sort Move)
                      queen_stalemate_position 1) = "a8a7".
Proof. split; vm_compute; reflexivity. Qed.

Lemma white_stalemate_wf : wf_bitboards white_stalemate_position.
Proof. vm_compute. reflexivity. Qed.

(** C2 fails on a stalemate.  In the position K7/8/1q6/8/8/8/8/7k,
    White to move, the king is not in check and has three steps, each
    onto a square the black queen attacks: White has no legal move.
    [generateLegalMoves] tests the check of the side to move after
    [makeMove] has passed the turn, that is of Black's king, and keeps
    all three; so [findBestMove] returns a move and not the null
    move, at every depth of at least 1, with any evaluator and any
    conforming [std::sort] (a8a7 at depth 1 with the material count
    and insertion sort). *)
Theorem findBestMove_stalemate_not_null :
  isInCheck white_stalemate_position = false /\
  map toUCI (generatePseudoLegalMoves white_stalemate_position) =
    ["a8a7"; "a8b7"; "a8b8"]%string /\
  forallb (fun m => negb (spec_legal white_stalemate_position m))
          (generatePseudoLegalMoves white_stalemate_position) = true /\
  map toUCI (generateLegalMoves white_stalemate_position) =
    ["a8a7"; "a8b7"; "a8b8"]%string /\
  toUCI (findBestMove material_eval (@insertion_sort Move)
                      white_stalemate_position 1) = "a8a7"%string /\
  forall (evaluate : Position -> Z)
         (std_sort : (Move -> Move -> bool) -> list Move -> list Move)
         (depth : nat),
    sort_contract std_sort -> (1 <= depth)%nat ->
    isNull (findBestMove evaluate std_sort white_stalemate_position depth)
    = false.
Proof.
  split; [vm_compute; reflexivity|].
  split; [vm_compute; reflexivity|].
  split; [vm_compute; reflexivity|].
  split; [vm_compute; reflexivity|].
  split; [vm_compute; reflexivity|].
  intros evaluate std_sort depth Hsort Hd.
  destruct (isNull (findBestMove evaluate std_sort white_stalemate_position
                                 depth)) eqn:E; [|reflexivity].
  apply (findBestMove_null_iff_no_legal_moves evaluate std_sort
           white_stalemate_position depth Hsort white_stalemate_wf Hd) in E.
  assert (N : generateLegalMoves white_stalemate_position <> [])
    by (vm_compute; discriminate).
  contradiction.
Qed.

(* ================================================================= *)
(** * Further properties

    What follows covers code beside the places the properties C1 - C10
    speak of: the move word, the UCI reader, the bitboard loops, the
    board primitives, the FEN reader, [makeMove], the attack sets, the
    generator, the search, the PGN text routines and the evaluator. *)

(** ** The move word *)

Lemma MoveType_eqb_eq (a b : MoveType) : MoveType_eqb a b = true -> a = b.
Proof. destruct a, b; simpl; intros H; try reflexivity; discriminate. Qed.

Lemma PromotionType_eqb_eq (a b : PromotionType) :
  PromotionType_eqb a b = true -> a = b.
Proof. destruct a, b; simpl; intros H; try reflexivity; discriminate. Qed.

Lemma fields_check_all :
  forallb (fun f => forallb (fields_check f) (Z_range 64 0)) (Z_range 64 0)
  = true.
Proof. vm_compute. reflexivity. Qed.

Lemma rebuild_check_all :
  forallb rebuild_check (Z_range (Z.to_nat two16) 0) = true.
Proof. vm_compute. reflexivity. Qed.

Lemma Move4_fields (f t : Square) (ty : MoveType) (pr : PromotionType) :
  0 <= f < 64 -> 0 <= t < 64 ->
  from (Move4 f t ty pr) = f /\ to (Move4 f t ty pr) = t /\
  type (Move4 f t ty pr) = ty /\ promotionType (Move4 f t ty pr) = pr.
Proof.
  intros Hf Ht.
  pose proof fields_check_all as H.
  rewrite forallb_forall in H.
  specialize (H f (Z_range_In 64 0 f ltac:(simpl; lia))).
  rewrite forallb_forall in H.
  specialize (H t (Z_range_In 64 0 t ltac:(simpl; lia))).
  unfold fields_check in H. rewrite forallb_forall in H.
  assert (Hty : In ty all_move_types) by (destruct ty; simpl; auto).
  specialize (H ty Hty). rewrite forallb_forall in H.
  assert (Hpr : In pr all_promotion_types) by (destruct pr; simpl; auto 6).
  specialize (H pr Hpr). cbv zeta in H.
  apply andb_prop in H as [H H4]. apply andb_prop in H as [H H3].
  apply andb_prop in H as [H1 H2].
  apply Z.eqb_eq in H1, H2.
  apply MoveType_eqb_eq in H3. apply PromotionType_eqb_eq in H4.
  auto.
Qed.

(** X1.  Building a move from two squares of the board, a type and a
    promotion piece and reading the four fields back returns the four
    arguments: the fields of the 16-bit word do not overlap.  So moves
    built from different arguments are different words. *)
Theorem Move4_accessors (f t : Square) (ty : MoveType) (pr : PromotionType) :
  0 <= f < 64 -> 0 <= t < 64 ->
  (from (Move4 f t ty pr) = f /\ to (Move4 f t ty pr) = t /\
   type (Move4 f t ty pr) = ty /\ promotionType (Move4 f t ty pr) = pr) /\
  forall f' t' ty' pr',
    0 <= f' < 64 -> 0 <= t' < 64 ->
    Move4 f t ty pr = Move4 f' t' ty' pr' ->
    f = f' /\ t = t' /\ ty = ty' /\ pr = pr'.
Proof.
  intros Hf Ht.
  pose proof (Move4_fields f t ty pr Hf Ht) as (A & B & C & D).
  split; [auto|].
  intros f' t' ty' pr' Hf' Ht' E.
  pose proof (Move4_fields f' t' ty' pr' Hf' Ht') as (A' & B' & C' & D').
  rewrite <- E in A', B', C', D'.
  rewrite A in A'. rewrite B in B'. rewrite C in C'. rewrite D in D'.
  auto.
Qed.

Lemma Move4_accessors_witness :
  (from (Move4 E1 G1 CASTLING PROMOTE_TO_KNIGHT) = E1 /\
   to (Move4 E1 G1 CASTLING PROMOTE_TO_KNIGHT) = G1 /\
   type (Move4 E1 G1 CASTLING PROMOTE_TO_KNIGHT) = CASTLING /\
   promotionType (Move4 E1 G1 CASTLING PROMOTE_TO_KNIGHT) = PROMOTE_TO_KNIGHT) /\
  forall f' t' ty' pr',
    0 <= f' < 64 -> 0 <= t' < 64 ->
    Move4 E1 G1 CASTLING PROMOTE_TO_KNIGHT = Move4 f' t' ty' pr' ->
    E1 = f' /\ G1 = t' /\ CASTLING = ty' /\ PROMOTE_TO_KNIGHT = pr'.
Proof.
  apply (Move4_accessors E1 G1 CASTLING PROMOTE_TO_KNIGHT);
    vm_compute; split; discriminate || reflexivity.
Defined.

(** X2.  Every 16-bit move word is the move built from its own four
    fields, and its two squares are squares of the board: the four
    fields are all there is in a move. *)
Theorem Move4_of_accessors (m : Move) :
  move_word m ->
  Move4 (from m) (to m) (type m) (promotionType m) = m /\
  0 <= from m < 64 /\ 0 <= to m < 64.
Proof.
  destruct m as [d]. unfold move_word. cbn [data]. intros Hd.
  pose proof rebuild_check_all as H.
  rewrite forallb_forall in H.
  assert (E : Z.of_nat (Z.to_nat two16) = two16)
    by (apply Z2Nat.id; unfold two16; lia).
  specialize (H d (Z_range_In _ 0 d ltac:(rewrite E; lia))).
  unfold rebuild_check in H. cbv zeta in H.
  repeat (apply andb_prop in H as [H ?]).
  apply Z.eqb_eq in H.
  split.
  - unfold Move4 in *. cbn [data] in H. f_equal. exact H.
  - lia.
Qed.

Lemma Move4_of_accessors_witness :
  let m := mkMove 54321 in
  Move4 (from m) (to m) (type m) (promotionType m) = m /\
  0 <= from m < 64 /\ 0 <= to m < 64.
Proof.
  apply (Move4_of_accessors (mkMove 54321)).
  vm_compute; split; discriminate || reflexivity.
Defined.

(** ** The UCI reader *)

Lemma code_char_char_code (c : ascii) : code_char (char_code c) = c.
Proof. destruct c as [[] [] [] [] [] [] [] []]; reflexivity. Qed.

Lemma char_code_range (c : ascii) : 0 <= char_code c < 256.
Proof. destruct c as [[] [] [] [] [] [] [] []]; vm_compute; split; discriminate || reflexivity. Qed.

Lemma makeSquare_file_rank (f r : Z) :
  0 <= f < 8 -> 0 <= r < 8 ->
  fileOf (makeSquare f r) = f /\ rankOf (makeSquare f r) = r /\
  0 <= makeSquare f r < 64.
Proof.
  intros Hf Hr. unfold fileOf, rankOf, makeSquare.
  rewrite Z.shiftr_div_pow2 by lia.
  change 7 with (Z.ones 3). rewrite Z.land_ones by lia.
  change (2 ^ 3) with 8.
  rewrite Z.add_comm, Z.mod_add, Z.div_add, Z.mod_small, Z.div_small by lia.
  lia.
Qed.

Lemma stringToSquare_cases (s : string) :
  stringToSquare s = NO_SQUARE \/
  (0 <= stringToSquare s < 64 /\ squareToString (stringToSquare s) = s /\
   String.length s = 2%nat).
Proof.
  destruct s as [|c0 [|c1 [|c2 s]]]; try (left; reflexivity).
  unfold stringToSquare.
  set (file := char_code c0 - char_code "a").
  set (rank := char_code c1 - char_code "1").
  destruct (file <? 0) eqn:E1; [left; reflexivity|].
  destruct (file >? 7) eqn:E2; [left; reflexivity|].
  destruct (rank <? 0) eqn:E3; [left; reflexivity|].
  destruct (rank >? 7) eqn:E4; [left; reflexivity|].
  cbn [orb]. right.
  assert (Hf : 0 <= file < 8) by lia.
  assert (Hr : 0 <= rank < 8) by lia.
  destruct (makeSquare_file_rank file rank Hf Hr) as (Ef & Er & Hsq).
  split; [exact Hsq|]. split; [|reflexivity].
  unfold squareToString.
  destruct (Z.eqb_spec (makeSquare file rank) NO_SQUARE) as [E|_];
    [unfold NO_SQUARE in E; lia|].
  rewrite Ef, Er. unfold file, rank.
  replace (char_code "a" + (char_code c0 - char_code "a")) with (char_code c0) by lia.
  replace (char_code "1" + (char_code c1 - char_code "1")) with (char_code c1) by lia.
  rewrite !code_char_char_code. reflexivity.
Qed.

Lemma tolower_letter (c l : ascii) :
  Ascii.eqb (tolower c) l = true -> tolower c = l.
Proof. apply Ascii.eqb_eq. Qed.

(** The two ways [fromUCI] builds a move that is not null. *)
Lemma fromUCI_cases (s : string) :
  isNull (fromUCI s) = false ->
  exists f t,
    stringToSquare (substring 0 2 s) = f /\
    stringToSquare (substring 2 2 s) = t /\
    0 <= f < 64 /\ 0 <= t < 64 /\
    squareToString f = substring 0 2 s /\
    squareToString t = substring 2 2 s /\
    ((String.length s = 4%nat /\
      (fromUCI s = Move3 f t CASTLING \/ fromUCI s = Move2 f t)) \/
     (String.length s = 5%nat /\
      exists c pr,
        String.get 4 s = Some c /\
        fromUCI s = Move4 f t PROMOTION pr /\
        String (tolower c) EmptyString =
        match pr with
        | PROMOTE_TO_QUEEN => "q" | PROMOTE_TO_ROOK => "r"
        | PROMOTE_TO_BISHOP => "b" | PROMOTE_TO_KNIGHT => "n"
        end)).
Proof.
  unfold fromUCI.
  destruct ((strlen s <? 4) || (strlen s >? 5)) eqn:Hlen;
    [intros H; discriminate H|].
  apply orb_false_elim in Hlen as [H4 H5]. unfold strlen in H4, H5.
  assert (Hl : String.length s = 4%nat \/ String.length s = 5%nat) by lia.
  clear H4 H5.
  destruct (stringToSquare_cases (substring 0 2 s)) as [E|(Hf & Sf & _)];
    [rewrite E; intros H; discriminate H|].
  destruct (stringToSquare_cases (substring 2 2 s)) as [E|(Ht & St & _)];
    [rewrite E, orb_true_r; intros H; discriminate H|].
  set (f := stringToSquare (substring 0 2 s)) in *.
  set (t := stringToSquare (substring 2 2 s)) in *.
  destruct (Z.eqb_spec f NO_SQUARE) as [E|_]; [unfold NO_SQUARE in E; lia|].
  destruct (Z.eqb_spec t NO_SQUARE) as [E|_]; [unfold NO_SQUARE in E; lia|].
  cbn [orb]. intros Hnull.
  exists f, t. repeat (split; [first [reflexivity|assumption|lia]|]).
  destruct Hl as [Hl|Hl]; unfold strlen in *; rewrite Hl in *.
  - left. split; [reflexivity|].
    change (Z.of_nat 4 =? 5) with false. cbv iota.
    destruct ((Z.abs (t - f) =? 2) && ((f =? E1) || (f =? E8))); auto.
  - right. split; [reflexivity|].
    change (Z.of_nat 5 =? 5) with true in *. cbv iota in *.
    destruct (String.get 4 s) as [c|]; [|discriminate Hnull].
    exists c. cbv zeta in *.
    destruct (Ascii.eqb (tolower c) "q") eqn:Eq;
      [exists PROMOTE_TO_QUEEN; rewrite (tolower_letter _ _ Eq); auto|].
    destruct (Ascii.eqb (tolower c) "r") eqn:Er;
      [exists PROMOTE_TO_ROOK; rewrite (tolower_letter _ _ Er); auto|].
    destruct (Ascii.eqb (tolower c) "b") eqn:Eb;
      [exists PROMOTE_TO_BISHOP; rewrite (tolower_letter _ _ Eb); auto|].
    destruct (Ascii.eqb (tolower c) "n") eqn:En;
      [exists PROMOTE_TO_KNIGHT; rewrite (tolower_letter _ _ En); auto|].
    discriminate Hnull.
Qed.

Lemma substring_split_4 (s : string) :
  String.length s = 4%nat ->
  (substring 0 2 s ++ substring 2 2 s)%string = s.
Proof.
  destruct s as [|c0 [|c1 [|c2 [|c3 [|c4 s]]]]]; simpl; intros H;
    try discriminate H. reflexivity.
Qed.

Lemma substring_split_5 (s : string) :
  String.length s = 5%nat ->
  (substring 0 2 s ++ substring 2 2 s)%string = substring 0 4 s.
Proof.
  destruct s as [|c0 [|c1 [|c2 [|c3 [|c4 [|c5 s]]]]]]; simpl; intros H;
    try discriminate H. reflexivity.
Qed.

Lemma get_4_length_4 (s : string) :
  String.length s = 4%nat -> String.get 4 s = None.
Proof.
  destruct s as [|c0 [|c1 [|c2 [|c3 [|c4 s]]]]]; simpl; intros H;
    try discriminate H. reflexivity.
Qed.

(** X3.  What [fromUCI] returns when it does not return the null move:
    the two squares are the ones the first four characters name, both
    on the board; the move is a promotion exactly when the text has a
    fifth character; and it is never an en-passant capture, which the
    text alone cannot tell from a plain pawn capture. *)
Theorem fromUCI_fields (s : string) :
  isNull (fromUCI s) = false ->
  from (fromUCI s) = stringToSquare (substring 0 2 s) /\
  to (fromUCI s) = stringToSquare (substring 2 2 s) /\
  0 <= from (fromUCI s) < 64 /\ 0 <= to (fromUCI s) < 64 /\
  isEnPassant (fromUCI s) = false /\
  (isPromotion (fromUCI s) = true <-> String.length s = 5%nat).
Proof.
  intros H.
  destruct (fromUCI_cases s H)
    as (f & t & Ef & Et & Hf & Ht & _ & _ & Hc).
  rewrite Ef, Et.
  assert (G : forall ty pr,
             fromUCI s = Move4 f t ty pr ->
             from (fromUCI s) = f /\ to (fromUCI s) = t /\
             type (fromUCI s) = ty).
  { intros ty pr E. rewrite E.
    destruct (Move4_fields f t ty pr Hf Ht) as (A & B & C & _). auto. }
  destruct Hc as [(Hl & [E|E])|(Hl & c & pr & _ & E & _)];
    apply G in E as (A & B & C); unfold isEnPassant, isPromotion;
    rewrite A, B, C, Hl; repeat split; try lia; try discriminate.
Qed.

Lemma fromUCI_fields_witness :
  from (fromUCI "e7e8Q") = stringToSquare (substring 0 2 "e7e8Q") /\
  to (fromUCI "e7e8Q") = stringToSquare (substring 2 2 "e7e8Q") /\
  0 <= from (fromUCI "e7e8Q") < 64 /\ 0 <= to (fromUCI "e7e8Q") < 64 /\
  isEnPassant (fromUCI "e7e8Q") = false /\
  (isPromotion (fromUCI "e7e8Q") = true <-> String.length "e7e8Q" = 5%nat).
Proof. apply (fromUCI_fields "e7e8Q"). vm_compute. reflexivity. Defined.

(** X4.  Reading a UCI text and writing the move out again gives the
    text back, with the promotion letter in lower case, whenever the
    text is read as a move other than the null move. *)
Theorem toUCI_fromUCI (s : string) :
  isNull (fromUCI s) = false ->
  toUCI (fromUCI s) = lowerPromotionLetter s.
Proof.
  intros H. unfold toUCI. rewrite H.
  destruct (fromUCI_cases s H)
    as (f & t & _ & _ & Hf & Ht & Sf & St & Hc).
  unfold lowerPromotionLetter.
  destruct Hc as [(Hl & [E|E])|(Hl & c & pr & Hg & E & Hc)]; rewrite E;
    unfold isPromotion;
    try change (Move3 f t CASTLING) with (Move4 f t CASTLING PROMOTE_TO_QUEEN);
    try change (Move2 f t) with (Move4 f t NORMAL PROMOTE_TO_QUEEN).
  - destruct (Move4_fields f t CASTLING PROMOTE_TO_QUEEN Hf Ht)
      as (A & B & C & _).
    rewrite A, B, C, Sf, St, (get_4_length_4 s Hl).
    apply substring_split_4. exact Hl.
  - destruct (Move4_fields f t NORMAL PROMOTE_TO_QUEEN Hf Ht)
      as (A & B & C & _).
    rewrite A, B, C, Sf, St, (get_4_length_4 s Hl).
    apply substring_split_4. exact Hl.
  - destruct (Move4_fields f t PROMOTION pr Hf Ht) as (A & B & C & D).
    rewrite A, B, C, D, Sf, St, Hg, Hc, (substring_split_5 s Hl).
    destruct pr; reflexivity.
Qed.

Lemma toUCI_fromUCI_witness :
  toUCI (fromUCI "e7e8Q") = lowerPromotionLetter "e7e8Q".
Proof. apply (toUCI_fromUCI "e7e8Q"). vm_compute. reflexivity. Defined.

(** ** The bitboard loop *)

Lemma pos_squares_complete (p : positive) :
  forall i k,
    0 <= k -> Z.testbit (Zpos p) k = true -> In (i + k) (pos_squares p i).
Proof.
  induction p as [q IH|q IH|]; intros i k Hk Hb; cbn [pos_squares].
  - destruct (Z.eq_dec k 0) as [->|Hnz].
    + left. lia.
    + right. replace (i + k) with ((i + 1) + (k - 1)) by lia.
      apply IH; [lia|].
      replace k with (Z.succ (k - 1)) in Hb by lia.
      rewrite Pos2Z.inj_xI, Z.testbit_odd_succ in Hb by lia. exact Hb.
  - destruct (Z.eq_dec k 0) as [->|Hnz].
    + rewrite Pos2Z.inj_xO, Z.testbit_even_0 in Hb. discriminate Hb.
    + replace (i + k) with ((i + 1) + (k - 1)) by lia.
      apply IH; [lia|].
      replace k with (Z.succ (k - 1)) in Hb by lia.
      rewrite Pos2Z.inj_xO, Z.testbit_even_succ in Hb by lia. exact Hb.
  - rewrite testbit_one in Hb. apply Z.eqb_eq in Hb. left. lia.
Qed.

Lemma pos_squares_sorted (p : positive) :
  forall i, StronglySorted Z.lt (pos_squares p i).
Proof.
  induction p as [q IH|q IH|]; intros i; cbn [pos_squares].
  - constructor; [apply IH|].
    apply Forall_forall. intros s Hs.
    apply pos_squares_spec in Hs. lia.
  - apply IH.
  - constructor; constructor.
Qed.

Lemma squares_of_iff (b : Bitboard) (s : Z) :
  0 <= b -> (In s (squares_of b) <-> Z.testbit b s = true).
Proof.
  intros Hb. split; [apply squares_of_spec|].
  intros Ht. destruct b as [|p|p]; [rewrite Z.bits_0 in Ht; discriminate Ht| |lia].
  destruct (Z.ltb_spec s 0) as [Hneg|Hnn];
    [rewrite Z.testbit_neg_r in Ht by exact Hneg; discriminate Ht|].
  exact (pos_squares_complete p 0 s Hnn Ht).
Qed.

Lemma squares_of_sorted (b : Bitboard) : StronglySorted Z.lt (squares_of b).
Proof.
  destruct b as [|p|p]; try constructor. apply pos_squares_sorted.
Qed.

Lemma sorted_length_bound (l : list Z) :
  forall lo hi,
    lo <= hi ->
    StronglySorted Z.lt l -> Forall (fun x => lo <= x < hi) l ->
    Z.of_nat (List.length l) <= hi - lo.
Proof.
  induction l as [|x r IH]; intros lo hi Hle Hs Hr;
    [change (Z.of_nat (List.length (@nil Z))) with 0; lia|].
  pose proof (StronglySorted_inv Hs) as [Hs' Hx].
  pose proof (Forall_inv Hr) as Hx0. pose proof (Forall_inv_tail Hr) as Hr'.
  cbv beta in Hx0.
  assert (H : Z.of_nat (List.length r) <= hi - (x + 1)).
  { apply IH; [lia|exact Hs'|].
    rewrite Forall_forall in *. intros y Hy.
    specialize (Hx y Hy). specialize (Hr' y Hy). cbv beta in Hr'. lia. }
  cbn [List.length]. rewrite Nat2Z.inj_succ. lia.
Qed.

Lemma squares_of_length (b : Bitboard) :
  0 <= b < two64 -> (List.length (squares_of b) <= 64)%nat.
Proof.
  intros Hb.
  pose proof (sorted_length_bound (squares_of b) 0 64 ltac:(lia)
                (squares_of_sorted b)) as H.
  assert (Hr : Forall (fun x => 0 <= x < 64) (squares_of b)).
  { apply Forall_forall. intros s Hs. exact (squares_of_range b s Hb Hs). }
  specialize (H Hr). unfold Square in *. lia.
Qed.

(** [a & b] keeps no more than [a]: [a] is the sum of [a & b] and
    [a & ~b], which share no bit. *)
Lemma land_le_l (a b : Z) : 0 <= a -> 0 <= Z.land a b <= a.
Proof.
  intros Ha. split; [apply Z.land_nonneg; left; exact Ha|].
  assert (E : a = Z.lor (Z.land a b) (Z.ldiff a b)).
  { apply Z.bits_inj'. intros n Hn.
    rewrite Z.lor_spec, Z.land_spec, Z.ldiff_spec.
    destruct (Z.testbit a n), (Z.testbit b n); reflexivity. }
  assert (D : Z.land (Z.land a b) (Z.ldiff a b) = 0).
  { apply Z.bits_inj'. intros n Hn.
    rewrite !Z.land_spec, Z.ldiff_spec, Z.bits_0.
    destruct (Z.testbit a n), (Z.testbit b n); reflexivity. }
  assert (N : 0 <= Z.ldiff a b) by (apply Z.ldiff_nonneg; left; exact Ha).
  pose proof (Z.add_nocarry_lxor _ _ D) as S1.
  pose proof (Z.lxor_lor _ _ D) as S2.
  rewrite S2 in S1. rewrite <- E in S1. lia.
Qed.

Lemma popLsb_range (b : Bitboard) :
  0 <= b < two64 -> 0 <= snd (popLsb b) < two64.
Proof.
  intros Hb. unfold popLsb. cbn [snd].
  pose proof (land_le_l b (wrap64 (b - 1)) (proj1 Hb)). lia.
Qed.

Lemma popLsb_loop_squares (n : nat) :
  forall b,
    0 <= b < two64 -> (List.length (squares_of b) <= n)%nat ->
    popLsb_loop n b = squares_of b.
Proof.
  induction n as [|k IH]; intros b Hb Hlen.
  - destruct (squares_of b); [reflexivity|simpl in Hlen; lia].
  - cbn [popLsb_loop].
    destruct (Z.eqb_spec b 0) as [->|Hnz]; [reflexivity|].
    assert (Hpos : 0 < b < two64) by lia.
    pose proof (squares_of_popLsb b Hpos) as E.
    pose proof (popLsb_range b Hb) as Hr.
    destruct (popLsb b) as [sq b'] eqn:Ep. cbn [fst snd] in E, Hr.
    rewrite E. f_equal. apply IH; [exact Hr|].
    rewrite E in Hlen. simpl in Hlen. lia.
Qed.

(** X5.  The loop [while (b) { sq = popLsb(b); ... }] over a 64-bit
    bitboard ends within 64 turns and hands out exactly the squares
    whose bit is set, each once and in increasing order; [popcount]
    is their number. *)
Theorem popLsb_loop_visits_set_bits (b : Bitboard) :
  0 <= b < two64 ->
  (forall s, In s (popLsb_loop 64 b) <-> Z.testbit b s = true) /\
  StronglySorted Z.lt (popLsb_loop 64 b) /\
  Z.of_nat (List.length (popLsb_loop 64 b)) = popcount b /\
  (forall n, (64 <= n)%nat -> popLsb_loop n b = popLsb_loop 64 b).
Proof.
  intros Hb.
  pose proof (squares_of_length b Hb) as Hlen.
  rewrite (popLsb_loop_squares 64 b Hb Hlen).
  split; [intros s; apply squares_of_iff; lia|].
  split; [apply squares_of_sorted|].
  split; [symmetry; apply popcount_squares|].
  intros n Hn. apply popLsb_loop_squares; [exact Hb|lia].
Qed.

Lemma popLsb_loop_visits_set_bits_witness :
  (forall s, In s (popLsb_loop 64 0x8100000000000081) <->
             Z.testbit 0x8100000000000081 s = true) /\
  StronglySorted Z.lt (popLsb_loop 64 0x8100000000000081) /\
  Z.of_nat (List.length (popLsb_loop 64 0x8100000000000081)) =
  popcount 0x8100000000000081 /\
  (forall n, (64 <= n)%nat ->
             popLsb_loop n 0x8100000000000081 =
             popLsb_loop 64 0x8100000000000081).
Proof.
  apply (popLsb_loop_visits_set_bits 0x8100000000000081).
  vm_compute. split; discriminate || reflexivity.
Defined.

Lemma popcount_zero_iff (b : Bitboard) : 0 <= b -> (popcount b = 0 <-> b = 0).
Proof.
  intros Hb. destruct b as [|p|p]; simpl; try lia.
  split; [|discriminate].
  intros H. exfalso. induction p; cbn [pos_popcount] in H; try lia.
  pose proof (pos_popcount_squares p 0). lia.
Qed.

(** On a 64-bit bitboard [moreThanOne] answers whether at least
    two bits are set; on the empty bitboard, where [b - 1] wraps
    around, it answers no. *)
Theorem moreThanOne_popcount (b : Bitboard) :
  0 <= b < two64 -> moreThanOne b = (2 <=? popcount b).
Proof.
  intros Hb. unfold moreThanOne.
  destruct (Z.eq_dec b 0) as [->|Hnz]; [reflexivity|].
  assert (Hpos : 0 < b < two64) by lia.
  pose proof (squares_of_popLsb b Hpos) as E.
  pose proof (popLsb_range b Hb) as Hr.
  unfold popLsb in E, Hr. cbn [fst snd] in E, Hr.
  set (b' := Z.land b (wrap64 (b - 1))) in *.
  rewrite (popcount_squares b), E. cbn [List.length].
  rewrite Nat2Z.inj_succ, <- popcount_squares.
  pose proof (popcount_zero_iff b' (proj1 Hr)) as Hz.
  assert (Hp : 0 <= popcount b').
  { rewrite popcount_squares. lia. }
  unfold nonzero.
  destruct (Z.eqb_spec b' 0) as [E0|N0]; destruct (Z.leb_spec 2 (Z.succ (popcount b')));
    try reflexivity; exfalso.
  - apply Hz in E0. lia.
  - assert (popcount b' = 0) by lia. apply N0, Hz. assumption.
Qed.

Lemma moreThanOne_popcount_witness :
  moreThanOne 0x8100000000000081 = (2 <=? popcount 0x8100000000000081).
Proof.
  apply (moreThanOne_popcount 0x8100000000000081).
  vm_compute. split; discriminate || reflexivity.
Defined.

(** ** The board primitives *)

Lemma testbit_above (n a i : Z) :
  0 <= a < 2 ^ n -> n <= i -> Z.testbit a i = false.
Proof.
  intros Ha Hi.
  destruct (Z.eq_dec a 0) as [->|Hnz]; [apply Z.bits_0|].
  apply Z.bits_above_log2; [lia|].
  apply Z.lt_le_trans with n; [|exact Hi].
  apply Z.log2_lt_pow2; lia.
Qed.

Lemma lor_below_pow2 (n a b : Z) :
  0 <= n -> 0 <= a < 2 ^ n -> 0 <= b < 2 ^ n -> 0 <= Z.lor a b < 2 ^ n.
Proof.
  intros Hn Ha Hb.
  assert (E : Z.lor a b mod 2 ^ n = Z.lor a b).
  { apply Z.bits_inj'. intros i Hi.
    destruct (Z.ltb_spec i n) as [Hlt|Hge].
    - rewrite Z.mod_pow2_bits_low by lia. reflexivity.
    - rewrite Z.mod_pow2_bits_high by lia. rewrite Z.lor_spec.
      rewrite (testbit_above n a i Ha Hge), (testbit_above n b i Hb Hge).
      reflexivity. }
  rewrite <- E. apply Z.mod_pos_bound. lia.
Qed.

Lemma in_range_lor (a b : Z) :
  0 <= a < two64 -> 0 <= b < two64 -> 0 <= Z.lor a b < two64.
Proof. rewrite two64_pow. apply lor_below_pow2. lia. Qed.

Lemma squareBB_range (sq : Square) : 0 <= squareBB sq < two64.
Proof. unfold squareBB, wrap64. apply Z.mod_pos_bound. reflexivity. Qed.

Lemma nth_update_nth {A : Type} (f : A -> A) (d : A) (l : list A) :
  forall n i,
    nth i (update_nth n f l) d =
    if (i =? n)%nat && (n <? List.length l)%nat then f (nth i l d)
    else nth i l d.
Proof.
  induction l as [|x r IH]; intros n i.
  - destruct n, i; cbn [update_nth nth]; rewrite ?andb_false_r; reflexivity.
  - destruct n as [|n], i as [|i]; cbn [update_nth nth]; try reflexivity.
    rewrite IH. reflexivity.
Qed.

Lemma update_nth_length {A : Type} (f : A -> A) (l : list A) :
  forall n, List.length (update_nth n f l) = List.length l.
Proof.
  induction l as [|x r IH]; intros [|n]; cbn [update_nth List.length];
    try reflexivity. rewrite IH. reflexivity.
Qed.

Lemma update_nth_forallb {A : Type} (P : A -> bool) (f : A -> A) (l : list A) :
  (forall x, P x = true -> P (f x) = true) ->
  forall n, forallb P l = true -> forallb P (update_nth n f l) = true.
Proof.
  intros Hf. induction l as [|x r IH]; intros [|n] H;
    cbn [update_nth forallb] in *; try reflexivity;
    apply andb_prop in H as [Hx Hr]; apply andb_true_intro; auto.
Qed.

Lemma boards_get_clearSquare (sq : Square) (b : Boards) (c : Color)
    (pt : PieceType) :
  boards_get (clearSquare sq b) c pt =
  Z.land (boards_get b c pt) (not64 (squareBB sq)).
Proof.
  unfold boards_get, clearSquare. cbv zeta.
  set (g := fun bb => Z.land bb (not64 (squareBB sq))).
  change (@nil Bitboard) with (map g []).
  rewrite map_nth.
  change 0 with (g 0) at 1. rewrite map_nth. reflexivity.
Qed.

Lemma piece_index_inj (a b : PieceType) : piece_index a = piece_index b -> a = b.
Proof. destruct a, b; intros H; try reflexivity; discriminate H. Qed.

Lemma boards_wfb_rows (b : Boards) (c : Color) :
  boards_wfb b = true ->
  (color_index c < List.length b)%nat /\
  List.length (nth (color_index c) b []) = 6%nat.
Proof.
  unfold boards_wfb. intros H.
  apply andb_prop in H as [Hl Hrows]. apply Nat.eqb_eq in Hl.
  destruct b as [|r0 [|r1 [|r2 b]]]; try discriminate Hl.
  cbn [forallb] in Hrows.
  apply andb_prop in Hrows as [H0 H1]. apply andb_prop in H1 as [H1 _].
  apply andb_prop in H0 as [H0 _]. apply andb_prop in H1 as [H1 _].
  apply Nat.eqb_eq in H0, H1.
  destruct c; cbn [color_index nth List.length]; split; auto.
Qed.

Lemma boards_wfb_shape (b : Boards) (c : Color) (pt : PieceType) :
  boards_wfb b = true -> pt <> NO_PIECE_TYPE ->
  (color_index c <? List.length b)%nat = true /\
  (piece_index pt <? List.length (nth (color_index c) b []))%nat = true.
Proof.
  intros H Hpt. destruct (boards_wfb_rows b c H) as [Hc Hr].
  split; [apply Nat.ltb_lt; exact Hc|].
  unfold Bitboard in *. rewrite Hr.
  destruct pt; try reflexivity; congruence.
Qed.

Lemma boards_get_putPiece (sq : Square) (pt : PieceType) (c : Color)
    (b : Boards) (c' : Color) (pt' : PieceType) :
  boards_wfb b = true -> pt <> NO_PIECE_TYPE ->
  boards_get (putPiece sq pt c b) c' pt' =
  if Color_eqb c' c && PieceType_eqb pt' pt
  then Z.lor (boards_get b c' pt') (squareBB sq)
  else boards_get b c' pt'.
Proof.
  intros Hwf Hpt. destruct (boards_wfb_shape b c pt Hwf Hpt) as [Hc Hp].
  unfold boards_get, putPiece. rewrite nth_update_nth.
  destruct c, c'; cbn [color_index Nat.eqb Color_eqb andb] in *;
    try reflexivity; rewrite Hc; rewrite nth_update_nth, Hp, andb_true_r;
    destruct pt, pt'; try reflexivity; congruence.
Qed.

Lemma land_not64_range (a s : Z) :
  0 <= a < two64 -> 0 <= Z.land a (not64 s) < two64.
Proof. intros Ha. pose proof (land_le_l a (not64 s) (proj1 Ha)). lia. Qed.

Lemma clearSquare_wf (sq : Square) (b : Boards) :
  boards_wfb b = true -> boards_wfb (clearSquare sq b) = true.
Proof.
  unfold boards_wfb, clearSquare. cbv zeta. intros H.
  apply andb_prop in H as [Hl Hrows]. apply andb_true_intro.
  rewrite length_map. split; [exact Hl|].
  rewrite forallb_forall in *. intros row Hrow.
  apply in_map_iff in Hrow as (row0 & <- & Hin).
  specialize (Hrows row0 Hin). apply andb_prop in Hrows as [Hl0 Hr0].
  rewrite length_map. apply andb_true_intro. split; [exact Hl0|].
  rewrite forallb_forall in *. intros bb Hbb.
  apply in_map_iff in Hbb as (bb0 & <- & Hin0).
  specialize (Hr0 bb0 Hin0). 
  pose proof (land_not64_range bb0 (squareBB sq)). lia.
Qed.

Lemma putPiece_wf (sq : Square) (pt : PieceType) (c : Color) (b : Boards) :
  boards_wfb b = true -> boards_wfb (putPiece sq pt c b) = true.
Proof.
  unfold boards_wfb, putPiece. intros H.
  apply andb_prop in H as [Hl Hrows]. apply andb_true_intro.
  rewrite update_nth_length. split; [exact Hl|].
  apply update_nth_forallb; [|exact Hrows].
  intros row Hrow. apply andb_prop in Hrow as [Hl0 Hr0].
  apply andb_true_intro. rewrite update_nth_length. split; [exact Hl0|].
  apply update_nth_forallb; [|exact Hr0].
  intros bb Hbb.
  pose proof (in_range_lor bb (squareBB sq)) as Hor.
  pose proof (squareBB_range sq). lia.
Qed.

Lemma wf_position_bitboards (pos : Position) :
  wf_position pos -> wf_bitboards pos.
Proof.
  unfold wf_position, wf_bitboards, wf_bitboardsb, boards_wfb. intros H.
  apply andb_prop in H as [_ H].
  rewrite forallb_forall in *. intros row Hrow.
  specialize (H row Hrow). apply andb_prop in H as [_ H]. exact H.
Qed.

Lemma squareBB_land_other (sq sq' : Square) :
  sq <> sq' -> Z.land (squareBB sq') (not64 (squareBB sq)) = squareBB sq'.
Proof.
  intros Hne. apply Z.bits_inj'. intros n Hn.
  rewrite Z.land_spec. unfold not64, wrap64. rewrite two64_pow.
  rewrite !squareBB_testbit.
  destruct (Z.eqb_spec n sq') as [->|Hn']; [|reflexivity].
  destruct (Z.ltb_spec sq' 64) as [Hlt|Hge]; [|rewrite andb_false_r; reflexivity].
  rewrite Z.mod_pow2_bits_low by lia.
  rewrite Z.lnot_spec by lia. rewrite squareBB_testbit.
  destruct (Z.eqb_spec sq' sq) as [E|_]; [congruence|].
  cbn [andb negb]. rewrite andb_true_r. reflexivity.
Qed.

Lemma squareBB_land_same (sq : Square) :
  Z.land (squareBB sq) (not64 (squareBB sq)) = 0.
Proof.
  apply Z.bits_inj'. intros n Hn.
  rewrite Z.land_spec, Z.bits_0. unfold not64, wrap64. rewrite two64_pow.
  rewrite squareBB_testbit.
  destruct (Z.eqb_spec n sq) as [->|Hn']; [|reflexivity].
  destruct (Z.ltb_spec sq 64) as [Hlt|Hge]; [|rewrite andb_false_r; reflexivity].
  rewrite Z.mod_pow2_bits_low by lia.
  rewrite Z.lnot_spec by lia. rewrite squareBB_testbit.
  rewrite Z.eqb_refl.
  destruct (Z.leb_spec 0 sq); [|lia].
  destruct (Z.ltb_spec sq 64); [|lia]. reflexivity.
Qed.

Lemma first_piece_on_ext (b b' : Boards) (s : Bitboard)
    (cands : list (Color * PieceType)) :
  (forall c pt, In (c, pt) cands ->
     (Z.land (boards_get b' c pt) s =? 0) =
     (Z.land (boards_get b c pt) s =? 0)) ->
  first_piece_on b' s cands = first_piece_on b s cands.
Proof.
  induction cands as [|[c pt] r IH]; intros H; [reflexivity|].
  cbn [first_piece_on]. rewrite (H c pt (or_introl eq_refl)).
  rewrite IH; [reflexivity|].
  intros c' pt' Hin. apply H. right. exact Hin.
Qed.

Lemma land_clear_same (a : Z) (sq : Square) :
  Z.land (Z.land a (not64 (squareBB sq))) (squareBB sq) = 0.
Proof.
  rewrite <- Z.land_assoc, (Z.land_comm (not64 _)), squareBB_land_same.
  apply Z.land_0_r.
Qed.

Lemma land_clear_other (a : Z) (sq sq' : Square) :
  sq <> sq' ->
  Z.land (Z.land a (not64 (squareBB sq))) (squareBB sq') =
  Z.land a (squareBB sq').
Proof.
  intros Hne.
  rewrite <- Z.land_assoc, (Z.land_comm (not64 _)), (squareBB_land_other sq sq' Hne).
  reflexivity.
Qed.

Lemma squareBB_disjoint (sq sq' : Square) :
  sq <> sq' -> Z.land (squareBB sq) (squareBB sq') = 0.
Proof.
  intros Hne. apply Z.bits_inj'. intros n Hn.
  rewrite Z.land_spec, Z.bits_0, !squareBB_testbit.
  destruct (Z.eqb_spec n sq), (Z.eqb_spec n sq'); cbn [andb];
    rewrite ?andb_false_r; try reflexivity. congruence.
Qed.

Lemma land_put_other (a : Z) (sq sq' : Square) :
  sq <> sq' ->
  Z.land (Z.lor a (squareBB sq)) (squareBB sq') = Z.land a (squareBB sq').
Proof.
  intros Hne. rewrite Z.land_lor_distr_l, (squareBB_disjoint sq sq' Hne).
  apply Z.lor_0_r.
Qed.

Lemma squareBB_nonzero (sq : Square) :
  0 <= sq < 64 -> Z.land (squareBB sq) (squareBB sq) <> 0.
Proof.
  intros Hsq E. rewrite Z.land_diag in E.
  pose proof (squareBB_testbit sq sq) as T. rewrite E, Z.bits_0 in T.
  rewrite Z.eqb_refl in T.
  destruct (Z.leb_spec 0 sq); [|lia]. destruct (Z.ltb_spec sq 64); [|lia].
  discriminate T.
Qed.

Lemma pieceOn_clearSquare_same (b : Boards) (sq : Square) :
  pieceOn (clearSquare sq b) sq = NO_PIECE.
Proof.
  unfold pieceOn.
  apply first_piece_on_empty. apply Forall_forall. intros [c pt] _.
  cbn [fst snd]. rewrite boards_get_clearSquare. apply land_clear_same.
Qed.

Lemma pieceOn_clearSquare_other (b : Boards) (sq sq' : Square) :
  sq' <> sq -> pieceOn (clearSquare sq b) sq' = pieceOn b sq'.
Proof.
  intros Hne. unfold pieceOn.
  apply first_piece_on_ext. intros c pt _.
  rewrite boards_get_clearSquare, land_clear_other by congruence.
  reflexivity.
Qed.

Lemma pieceOn_putPiece_other (b : Boards) (sq sq' : Square)
    (pt : PieceType) (c : Color) :
  boards_wfb b = true -> sq' <> sq ->
  pieceOn (putPiece sq pt c b) sq' = pieceOn b sq'.
Proof.
  intros Hwf Hne. unfold pieceOn.
  destruct (PieceType_eqb pt NO_PIECE_TYPE) eqn:Ept.
  - destruct pt; try discriminate Ept.
    apply first_piece_on_ext. intros c' pt' _.
    unfold boards_get, putPiece. rewrite nth_update_nth.
    destruct ((color_index c' =? color_index c)%nat &&
              (color_index c <? List.length b)%nat);
      [|reflexivity].
    rewrite nth_update_nth.
    destruct (boards_wfb_rows b c' Hwf) as [_ Hl6].
    unfold Bitboard in *. rewrite Hl6.
    change (piece_index NO_PIECE_TYPE <? 6)%nat with false.
    rewrite andb_false_r. reflexivity.
  - apply first_piece_on_ext. intros c' pt' _.
    rewrite boards_get_putPiece;
      [|exact Hwf|intros E; rewrite E in Ept; discriminate Ept].
    destruct (Color_eqb c' c && PieceType_eqb pt' pt); [|reflexivity].
    rewrite land_put_other by congruence. reflexivity.
Qed.

Lemma PieceType_eqb_eq (a b : PieceType) : PieceType_eqb a b = true <-> a = b.
Proof. destruct a, b; split; intros H; try reflexivity; discriminate H. Qed.

Lemma scan_finds (b : Boards) (s : Bitboard) (c : Color) (pt : PieceType) :
  pt <> NO_PIECE_TYPE ->
  (forall c' pt', Z.land (boards_get b c' pt') s <> 0 <-> (c' = c /\ pt' = pt)) ->
  first_piece_on b s piece_scan_order = makePiece c pt.
Proof.
  intros Hpt H.
  assert (G : forall cands,
             NoDup cands -> In (c, pt) cands ->
             first_piece_on b s cands = makePiece c pt).
  { induction cands as [|[c' pt'] r IH]; intros Hnd Hin; [contradiction|].
    cbn [first_piece_on].
    destruct (Z.eqb_spec (Z.land (boards_get b c' pt') s) 0) as [E|N];
      cbn [negb].
    - apply IH; [inversion Hnd; assumption|].
      destruct Hin as [Heq|Hin]; [|exact Hin].
      injection Heq as -> ->. exfalso.
      assert (Hnz : Z.land (boards_get b c pt) s <> 0) by (apply H; auto).
      contradiction.
    - apply H in N as [-> ->]. reflexivity. }
  apply G.
  - unfold piece_scan_order, all_piece_types. cbn [map app].
    repeat (constructor; [cbn [In]; intuition discriminate|]). constructor.
  - unfold piece_scan_order, all_piece_types. cbn [map app In].
    destruct c, pt; try contradiction; auto 13.
Qed.

Lemma pieceOn_putPiece_same (b : Boards) (sq : Square)
    (pt : PieceType) (c : Color) :
  boards_wfb b = true -> pt <> NO_PIECE_TYPE -> 0 <= sq < 64 ->
  pieceOn b sq = NO_PIECE ->
  pieceOn (putPiece sq pt c b) sq = makePiece c pt.
Proof.
  intros Hwf Hpt Hsq Hempty. unfold pieceOn in *.
  pose proof (proj1 (first_piece_on_empty _ _ _) Hempty) as He.
  rewrite Forall_forall in He.
  apply scan_finds; [exact Hpt|].
  intros c' pt'. rewrite boards_get_putPiece by assumption.
  assert (Hz : pt' <> NO_PIECE_TYPE ->
               Z.land (boards_get b c' pt') (squareBB sq) = 0).
  { intros Hpt'. apply (He (c', pt')).
    unfold piece_scan_order, all_piece_types. cbn [map app In].
    destruct c', pt'; try contradiction; auto 13. }
  destruct (Color_eqb c' c && PieceType_eqb pt' pt) eqn:E.
  - apply andb_prop in E as [Ec Ep].
    apply Color_eqb_spec in Ec. apply PieceType_eqb_eq in Ep. subst c' pt'.
    rewrite Z.land_lor_distr_l, (Hz Hpt), Z.lor_0_l.
    split; [auto|]. intros _. apply squareBB_nonzero. exact Hsq.
  - split.
    + intros Hnz. exfalso.
      destruct (PieceType_eqb pt' NO_PIECE_TYPE) eqn:En.
      * apply PieceType_eqb_eq in En. subst pt'.
        apply Hnz. unfold boards_get.
        destruct (boards_wfb_rows b c' Hwf) as [_ Hl6].
        rewrite nth_overflow; [apply Z.land_0_l|].
        unfold Bitboard in *. rewrite Hl6. apply Nat.le_refl.
      * apply Hnz, Hz. intros E'. subst pt'. discriminate En.
    + intros [-> ->].
      assert (Color_eqb c c = true) by (destruct c; reflexivity).
      assert (PieceType_eqb pt pt = true) by (apply PieceType_eqb_eq; reflexivity).
      rewrite H, H0 in E. discriminate E.
Qed.

(** X6.  [clearSquare] empties its square and leaves every other
    square as it was: afterwards [getPieceAt] finds no piece on the
    square and the same piece as before anywhere else. *)
Theorem clearSquare_getPieceAt (pos : Position) (sq : Square) :
  let pos' := withBoards pos (clearSquare sq (pieceBitboards pos)) in
  getPieceAt pos' sq = NO_PIECE /\
  forall sq', sq' <> sq -> getPieceAt pos' sq' = getPieceAt pos sq'.
Proof.
  split; [apply pieceOn_clearSquare_same|].
  intros sq' Hne. apply pieceOn_clearSquare_other. exact Hne.
Qed.

(** X7.  [putPiece] of a real piece type on an empty square of a
    well-formed board makes [getPieceAt] find that very piece there,
    and changes no other square. *)
Theorem putPiece_getPieceAt (pos : Position) (sq : Square)
    (pt : PieceType) (c : Color) :
  wf_position pos -> pt <> NO_PIECE_TYPE -> 0 <= sq < 64 ->
  getPieceAt pos sq = NO_PIECE ->
  let pos' := withBoards pos (putPiece sq pt c (pieceBitboards pos)) in
  getPieceAt pos' sq = makePiece c pt /\
  forall sq', sq' <> sq -> getPieceAt pos' sq' = getPieceAt pos sq'.
Proof.
  intros Hwf Hpt Hsq He. split.
  - apply pieceOn_putPiece_same; assumption.
  - intros sq' Hne. apply pieceOn_putPiece_other; assumption.
Qed.

Lemma startpos_wf_position : wf_position startpos.
Proof. vm_compute. reflexivity. Qed.

Lemma putPiece_getPieceAt_witness :
  let pos' := withBoards startpos (putPiece 28 QUEEN BLACK (pieceBitboards startpos)) in
  getPieceAt pos' 28 = makePiece BLACK QUEEN /\
  forall sq', sq' <> 28 -> getPieceAt pos' sq' = getPieceAt startpos sq'.
Proof.
  apply (putPiece_getPieceAt startpos 28 QUEEN BLACK).
  - exact startpos_wf_position.
  - discriminate.
  - vm_compute. split; discriminate || reflexivity.
  - vm_compute. reflexivity.
Defined.

(** ** The FEN reader *)

Lemma fen_board_step_wf (st : Square * Boards) (ch : ascii) :
  boards_wfb (snd st) = true -> boards_wfb (snd (fen_board_step st ch)) = true.
Proof.
  destruct st as [sq b]. unfold fen_board_step. cbn [snd]. intros H.
  destruct (Ascii.eqb ch "/"); [exact H|].
  destruct (isdigit ch); [exact H|].
  destruct (piece_type_of_char (tolower ch)); cbn [snd];
    [apply putPiece_wf|]; exact H.
Qed.

Lemma fen_board_fold_wf (board : list ascii) :
  forall st,
    boards_wfb (snd st) = true ->
    boards_wfb (snd (fold_left fen_board_step board st)) = true.
Proof.
  induction board as [|ch r IH]; intros st H; [exact H|].
  cbn [fold_left]. apply IH. apply fen_board_step_wf. exact H.
Qed.

Lemma fen_castling_step_range (r : Z) (ch : ascii) :
  0 <= r < 2 ^ 4 -> 0 <= fen_castling_step r ch < 2 ^ 4.
Proof.
  intros Hr. unfold fen_castling_step.
  repeat match goal with
         | |- context [if ?c then _ else _] => destruct c
         end;
    try exact Hr; apply lor_below_pow2; try exact Hr; try lia;
    vm_compute; split; discriminate || reflexivity.
Qed.

Lemma fen_castling_fold_range (l : list ascii) :
  forall r, 0 <= r < 2 ^ 4 -> 0 <= fold_left fen_castling_step l r < 2 ^ 4.
Proof.
  induction l as [|ch l IH]; intros r Hr; [exact Hr|].
  cbn [fold_left]. apply IH. apply fen_castling_step_range. exact Hr.
Qed.

Lemma has_flag_lor (r f flag : Z) :
  has_flag (Z.lor r f) flag = has_flag r flag || has_flag f flag.
Proof.
  unfold has_flag. rewrite Z.land_lor_distr_l.
  destruct (Z.eqb_spec (Z.land r flag) 0) as [E1|N1];
    destruct (Z.eqb_spec (Z.land f flag) 0) as [E2|N2];
    destruct (Z.eqb_spec (Z.lor (Z.land r flag) (Z.land f flag)) 0) as [E|N];
    try reflexivity; exfalso.
  - apply N. rewrite E1, E2. reflexivity.
  - apply Z.lor_eq_0_iff in E. tauto.
  - apply Z.lor_eq_0_iff in E. tauto.
  - apply Z.lor_eq_0_iff in E. tauto.
Qed.

Lemma fen_castling_step_flag (r : Z) (ch letter : ascii) (flag : Z) :
  In (letter, flag) castling_letters ->
  has_flag (fen_castling_step r ch) flag =
  has_flag r flag || Ascii.eqb letter ch.
Proof.
  intros Hin. cbn [castling_letters In] in Hin.
  destruct (Ascii.eqb_spec letter ch) as [<-|Hne].
  - destruct Hin as [E|[E|[E|[E|[]]]]]; injection E as <- <-;
      unfold fen_castling_step; cbn [Ascii.eqb Bool.eqb];
      rewrite has_flag_lor, !orb_true_r; reflexivity.
  - rewrite orb_false_r. unfold fen_castling_step.
    destruct (Ascii.eqb_spec ch "K") as [->|NK];
      [|destruct (Ascii.eqb_spec ch "Q") as [->|NQ];
        [|destruct (Ascii.eqb_spec ch "k") as [->|Nk];
          [|destruct (Ascii.eqb_spec ch "q") as [->|Nq]]]];
      try reflexivity;
      destruct Hin as [E|[E|[E|[E|[]]]]]; injection E as <- <-;
      try congruence;
      rewrite has_flag_lor; apply orb_false_r.
Qed.

Lemma fen_castling_fold_flag (letter : ascii) (flag : Z) (l : list ascii) :
  In (letter, flag) castling_letters ->
  forall r,
    has_flag (fold_left fen_castling_step l r) flag =
    has_flag r flag || existsb (Ascii.eqb letter) l.
Proof.
  intros Hin. induction l as [|ch l IH]; intros r.
  - cbn [fold_left existsb]. rewrite orb_false_r. reflexivity.
  - cbn [fold_left existsb]. rewrite IH.
    rewrite (fen_castling_step_flag r ch letter flag Hin).
    rewrite orb_assoc. reflexivity.
Qed.

(** The position [initializeFromFEN] builds, field by field. *)
Lemma initializeFromFEN_fields (fen : string) :
  pieceBitboards (initializeFromFEN fen) =
    snd (fold_left fen_board_step (fenField 0 fen) (A8, empty_boards)) /\
  sideToMove (initializeFromFEN fen) =
    (if chars_eqb (fenField 1 fen) "w" then WHITE else BLACK) /\
  castlingRights (initializeFromFEN fen) =
    fold_left fen_castling_step (fenField 2 fen) NO_CASTLING /\
  enPassantSquare (initializeFromFEN fen) =
    (if chars_eqb (fenField 3 fen) "-" then NO_SQUARE
     else stringToSquare (string_of_list_ascii (fenField 3 fen))) /\
  zobristHash (initializeFromFEN fen) = 0.
Proof.
  unfold initializeFromFEN, fenField, chars_eqb. cbn [nth_word].
  destruct (read_word (mkStream (list_ascii_of_string fen) false))
    as [board ss1].
  cbn [fst snd].
  destruct (read_word ss1) as [color ss2]. cbn [fst snd].
  destruct (read_word ss2) as [castling ss3]. cbn [fst snd].
  destruct (read_word ss3) as [enPassant ss4]. cbn [fst snd].
  destruct (read_int ss4) as [halfmove ss5].
  destruct (read_int ss5) as [fullmove ss6].
  destruct (fold_left fen_board_step board (A8, empty_boards)) as [sq b].
  cbn [pieceBitboards sideToMove castlingRights enPassantSquare zobristHash snd].
  repeat split; reflexivity.
Qed.

(** X8.  Whatever the text, [initializeFromFEN] builds a well-formed
    position: a 2 x 6 array of 64-bit bitboards, castling rights among
    the four flags, an en-passant square that is [NO_SQUARE] or a
    square of the board, and hash 0.  (A piece written outside the
    board is a shift by an out-of-range count in C++; the bitboards
    then take it as no square.) *)
Theorem initializeFromFEN_wf (fen : string) :
  wf_position (initializeFromFEN fen) /\
  0 <= castlingRights (initializeFromFEN fen) <= ALL_CASTLING /\
  (enPassantSquare (initializeFromFEN fen) = NO_SQUARE \/
   0 <= enPassantSquare (initializeFromFEN fen) < 64) /\
  zobristHash (initializeFromFEN fen) = 0.
Proof.
  destruct (initializeFromFEN_fields fen) as (Eb & _ & Ec & Ee & Eh).
  unfold wf_position. rewrite Eb, Ec, Ee, Eh.
  split; [apply fen_board_fold_wf; reflexivity|].
  split.
  - pose proof (fen_castling_fold_range (fenField 2 fen) NO_CASTLING) as H.
    change (2 ^ 4) with 16 in H. unfold ALL_CASTLING, NO_CASTLING in *. lia.
  - split; [|reflexivity].
    destruct (chars_eqb (fenField 3 fen) "-"); [left; reflexivity|].
    destruct (stringToSquare_cases (string_of_list_ascii (fenField 3 fen)))
      as [E|(H & _)]; [left; exact E|right; exact H].
Qed.

(** X9.  [initializeFromFEN] gives a castling right exactly when its
    letter (K, Q, k, q) occurs in the third field of the text; order,
    repetition and any other character in the field make no
    difference. *)
Theorem initializeFromFEN_castling (fen : string) (letter : ascii) (flag : Z) :
  In (letter, flag) castling_letters ->
  has_flag (castlingRights (initializeFromFEN fen)) flag =
  existsb (Ascii.eqb letter) (fenField 2 fen).
Proof.
  intros Hin.
  destruct (initializeFromFEN_fields fen) as (_ & _ & Ec & _).
  rewrite Ec, (fen_castling_fold_flag letter flag _ Hin).
  unfold NO_CASTLING, has_flag. rewrite Z.land_0_l. reflexivity.
Qed.

Lemma initializeFromFEN_castling_witness :
  has_flag (castlingRights
              (initializeFromFEN "r3k2r/8/8/8/8/8/8/R3K2R w qxK - 0 1"))
           BLACK_OOO =
  existsb (Ascii.eqb "q")
          (fenField 2 "r3k2r/8/8/8/8/8/8/R3K2R w qxK - 0 1").
Proof.
  apply (initializeFromFEN_castling
           "r3k2r/8/8/8/8/8/8/R3K2R w qxK - 0 1" "q" BLACK_OOO).
  simpl. auto.
Defined.

(** ** [makeMove] on the board *)

Lemma from_range (m : Move) : 0 <= from m < 64.
Proof.
  unfold from. rewrite Z.land_comm.
  pose proof (land_le_l 63 (data m) ltac:(lia)). lia.
Qed.

Lemma to_range (m : Move) : 0 <= to m < 64.
Proof.
  unfold to. rewrite Z.land_comm.
  pose proof (land_le_l 63 (Z.shiftr (data m) 6) ltac:(lia)). lia.
Qed.

(** The board after the first two steps of [makeMove]: the source
    square cleared, then the destination if it held a piece. *)
Lemma makeMove_boards (pos : Position) (m : Move) :
  let us := sideToMove pos in
  let b1 := clearSquare (from m) (pieceBitboards pos) in
  let b2 :=
    if negb (getPieceAt pos (to m) =? NO_PIECE)
    then clearSquare (to m) b1 else b1 in
  pieceBitboards (makeMove pos m) =
  if isCastling m then
    if to m >? from m
    then putPiece (match us with WHITE => F1 | BLACK => F8 end) ROOK us
           (clearSquare (match us with WHITE => H1 | BLACK => H8 end)
              (putPiece (to m) KING us b2))
    else putPiece (match us with WHITE => D1 | BLACK => D8 end) ROOK us
           (clearSquare (match us with WHITE => A1 | BLACK => A8 end)
              (putPiece (to m) KING us b2))
  else if isEnPassant m then
    clearSquare (match us with WHITE => to m - 8 | BLACK => to m + 8 end)
      (putPiece (to m) PAWN us b2)
  else if isPromotion m then
    putPiece (to m) (promotedPieceOf (promotionType m)) us b2
  else putPiece (to m) (typeOf (getPieceAt pos (from m))) us b2.
Proof.
  cbv zeta. unfold makeMove.
  destruct (negb (getPieceAt pos (to m) =? NO_PIECE));
    destruct (isCastling m); [destruct (to m >? from m); reflexivity| |
                              destruct (to m >? from m); reflexivity|];
    destruct (isEnPassant m); try reflexivity;
    destruct (isPromotion m); reflexivity.
Qed.

Lemma cleared_boards (b : Boards) (f t : Square) (captured : bool) :
  boards_wfb b = true ->
  (captured = false -> pieceOn b t = NO_PIECE) ->
  let b2 := if captured then clearSquare t (clearSquare f b)
            else clearSquare f b in
  boards_wfb b2 = true /\
  pieceOn b2 f = NO_PIECE /\ pieceOn b2 t = NO_PIECE /\
  forall sq, sq <> f -> sq <> t -> pieceOn b2 sq = pieceOn b sq.
Proof.
  intros Hwf Hcap. cbv zeta. destruct captured.
  - split; [apply clearSquare_wf, clearSquare_wf, Hwf|].
    split.
    + destruct (Z.eq_dec f t) as [->|Hne];
        [apply pieceOn_clearSquare_same|].
      rewrite pieceOn_clearSquare_other by exact Hne.
      apply pieceOn_clearSquare_same.
    + split; [apply pieceOn_clearSquare_same|].
      intros sq Hf Ht. rewrite !pieceOn_clearSquare_other by assumption.
      reflexivity.
  - split; [apply clearSquare_wf, Hwf|].
    split; [apply pieceOn_clearSquare_same|].
    split.
    + destruct (Z.eq_dec t f) as [->|Hne];
        [apply pieceOn_clearSquare_same|].
      rewrite pieceOn_clearSquare_other by exact Hne. auto.
    + intros sq Hf Ht. apply pieceOn_clearSquare_other. exact Hf.
Qed.

Lemma makeMove_cleared (pos : Position) (m : Move) :
  wf_position pos ->
  let b2 :=
    if negb (getPieceAt pos (to m) =? NO_PIECE)
    then clearSquare (to m) (clearSquare (from m) (pieceBitboards pos))
    else clearSquare (from m) (pieceBitboards pos) in
  boards_wfb b2 = true /\
  pieceOn b2 (from m) = NO_PIECE /\ pieceOn b2 (to m) = NO_PIECE /\
  forall sq, sq <> from m -> sq <> to m ->
             pieceOn b2 sq = getPieceAt pos sq.
Proof.
  intros Hwf.
  apply (cleared_boards (pieceBitboards pos) (from m) (to m)); [exact Hwf|].
  intros H. apply negb_false_iff, Z.eqb_eq in H. exact H.
Qed.

Lemma pieceOn_cases (b : Boards) (sq : Square) :
  pieceOn b sq = NO_PIECE \/
  exists c pt, pt <> NO_PIECE_TYPE /\ pieceOn b sq = makePiece c pt.
Proof.
  unfold pieceOn.
  assert (G : forall cands,
             Forall (fun cp => snd cp <> NO_PIECE_TYPE) cands ->
             first_piece_on b (squareBB sq) cands = NO_PIECE \/
             exists c pt, pt <> NO_PIECE_TYPE /\
               first_piece_on b (squareBB sq) cands = makePiece c pt).
  { induction cands as [|[c pt] r IH]; intros H; [left; reflexivity|].
    cbn [first_piece_on].
    destruct (negb (Z.land (boards_get b c pt) (squareBB sq) =? 0)).
    - right. exists c, pt. split; [exact (Forall_inv H)|reflexivity].
    - apply IH. exact (Forall_inv_tail H). }
  apply G. unfold piece_scan_order, all_piece_types. cbn [map app].
  repeat (constructor; [cbn [snd]; discriminate|]). constructor.
Qed.

Lemma typeOf_makePiece_real (c : Color) (pt : PieceType) :
  pt <> NO_PIECE_TYPE -> typeOf (makePiece c pt) <> NO_PIECE_TYPE.
Proof. intros H. destruct c, pt; try congruence; vm_compute; discriminate. Qed.

Lemma move_type_flags (m : Move) :
  (type m = NORMAL ->
   isCastling m = false /\ isEnPassant m = false /\ isPromotion m = false) /\
  (type m = PROMOTION ->
   isCastling m = false /\ isEnPassant m = false /\ isPromotion m = true) /\
  (type m = EN_PASSANT -> isCastling m = false /\ isEnPassant m = true) /\
  (type m = CASTLING -> isCastling m = true).
Proof.
  unfold isCastling, isEnPassant, isPromotion.
  repeat split; intros;
    match goal with E : type m = _ |- _ => rewrite E end; reflexivity.
Qed.

Lemma makeMove_keeps_wf (pos : Position) (m : Move) :
  wf_position pos -> wf_position (makeMove pos m).
Proof.
  intros Hwf. unfold wf_position. rewrite makeMove_boards.
  destruct (makeMove_cleared pos m Hwf) as (Hb2 & _).
  cbv zeta.
  destruct (isCastling m); [destruct (to m >? from m)|
    destruct (isEnPassant m); [|destruct (isPromotion m)]];
    repeat first [apply putPiece_wf | apply clearSquare_wf]; exact Hb2.
Qed.

Lemma clear_flags_land (r f : Z) : clear_flags r f = Z.land r (Z.lnot f).
Proof. reflexivity. Qed.

Lemma updateCastlingRights_mask (rights : Z) (pt : PieceType) (us : Color)
    (f t : Square) :
  exists mask, updateCastlingRights rights pt us f t = Z.land rights mask.
Proof.
  unfold updateCastlingRights, clear_flags.
  assert (Hid : rights = Z.land rights (-1)) by (symmetry; apply Z.land_m1_r).
  assert (H1 : exists k,
            match pt with
            | KING =>
                match us with
                | WHITE => Z.land rights (Z.lnot (Z.lor WHITE_OO WHITE_OOO))
                | BLACK => Z.land rights (Z.lnot (Z.lor BLACK_OO BLACK_OOO))
                end
            | ROOK =>
                if f =? A1 then Z.land rights (Z.lnot WHITE_OOO)
                else if f =? H1 then Z.land rights (Z.lnot WHITE_OO)
                else if f =? A8 then Z.land rights (Z.lnot BLACK_OOO)
                else if f =? H8 then Z.land rights (Z.lnot BLACK_OO)
                else rights
            | _ => rights
            end = Z.land rights k).
  { destruct pt; try (exists (-1); exact Hid);
      [repeat match goal with
              | |- context [if ?c then _ else _] => destruct c
              end; eauto
      |destruct us; eauto]. }
  destruct H1 as [k ->].
  repeat match goal with
         | |- context [if ?c then _ else _] => destruct c
         end;
    rewrite <- ?Z.land_assoc; eauto.
Qed.

Lemma has_flag_land (r mask flag : Z) :
  has_flag (Z.land r mask) flag = true -> has_flag r flag = true.
Proof.
  unfold has_flag. intros H.
  destruct (Z.eqb_spec (Z.land r flag) 0) as [E|_]; [|reflexivity].
  rewrite <- Z.land_assoc, (Z.land_comm mask), Z.land_assoc, E, Z.land_0_l in H.
  discriminate H.
Qed.

(** X11.  [makeMove] never gives a castling right: every right held
    after the move was held before it, and the rights word does not
    grow. *)
Theorem makeMove_castlingRights_within (pos : Position) (m : Move) :
  rights_within (castlingRights (makeMove pos m)) (castlingRights pos) /\
  (0 <= castlingRights pos ->
   0 <= castlingRights (makeMove pos m) <= castlingRights pos).
Proof.
  assert (E : exists mask,
             castlingRights (makeMove pos m) =
             Z.land (castlingRights pos) mask).
  { unfold makeMove.
    destruct (if negb (getPieceAt pos (to m) =? NO_PIECE)
              then (clearSquare (to m)
                      (clearSquare (from m) (pieceBitboards pos)), 0)
              else (clearSquare (from m) (pieceBitboards pos),
                    halfmoveClock pos + 1)) as [b2 hm2].
    match goal with
    | |- context [let '(b3, hm3) := ?e in _] => destruct e as [b3 hm3]
    end.
    cbn [castlingRights]. apply updateCastlingRights_mask. }
  destruct E as [mask E]. rewrite E. split.
  - intros flag. apply has_flag_land.
  - intros H. apply land_le_l. exact H.
Qed.

Lemma getPieceAt_pieceOn (pos : Position) (sq : Square) :
  getPieceAt pos sq = pieceOn (pieceBitboards pos) sq.
Proof. reflexivity. Qed.

Lemma put_on_cleared (b2 : Boards) (t : Square) (pt : PieceType) (us : Color) :
  boards_wfb b2 = true -> pt <> NO_PIECE_TYPE -> 0 <= t < 64 ->
  pieceOn b2 t = NO_PIECE ->
  pieceOn (putPiece t pt us b2) t = makePiece us pt /\
  forall sq, sq <> t -> pieceOn (putPiece t pt us b2) sq = pieceOn b2 sq.
Proof.
  intros Hwf Hpt Ht He. split.
  - apply pieceOn_putPiece_same; assumption.
  - intros sq Hne. apply pieceOn_putPiece_other; assumption.
Qed.

(** A move that puts one piece on the destination and does nothing
    else after the first two steps. *)
Lemma makeMove_plain (pos : Position) (m : Move) (pt : PieceType) :
  wf_position pos -> pt <> NO_PIECE_TYPE -> from m <> to m ->
  pieceBitboards (makeMove pos m) =
    putPiece (to m) pt (sideToMove pos)
      (if negb (getPieceAt pos (to m) =? NO_PIECE)
       then clearSquare (to m) (clearSquare (from m) (pieceBitboards pos))
       else clearSquare (from m) (pieceBitboards pos)) ->
  getPieceAt (makeMove pos m) (from m) = NO_PIECE /\
  getPieceAt (makeMove pos m) (to m) = makePiece (sideToMove pos) pt /\
  forall sq, sq <> from m -> sq <> to m ->
             getPieceAt (makeMove pos m) sq = getPieceAt pos sq.
Proof.
  intros Hwf Hpt Hne Eb.
  destruct (makeMove_cleared pos m Hwf) as (Hb2 & Hf & Ht & Ho).
  cbv zeta in Hb2, Hf, Ht, Ho.
  destruct (put_on_cleared _ (to m) pt (sideToMove pos) Hb2 Hpt (to_range m) Ht)
    as [Hsame Hother].
  split; [|split; [|intros sq H1 H2]];
    rewrite (getPieceAt_pieceOn (makeMove pos m)), Eb.
  - rewrite Hother by exact Hne. exact Hf.
  - exact Hsame.
  - rewrite Hother by exact H2. apply Ho; assumption.
Qed.

(** X12.  A normal move on a well-formed board, from an occupied square
    to another square: afterwards the source is empty, the destination
    holds a piece of the side to move whose type is [typeOf] of the
    piece that stood on the source, and every other square is as it
    was. *)
Theorem makeMove_normal (pos : Position) (m : Move) :
  wf_position pos -> type m = NORMAL -> from m <> to m ->
  getPieceAt pos (from m) <> NO_PIECE ->
  getPieceAt (makeMove pos m) (from m) = NO_PIECE /\
  getPieceAt (makeMove pos m) (to m) =
    makePiece (sideToMove pos) (typeOf (getPieceAt pos (from m))) /\
  forall sq, sq <> from m -> sq <> to m ->
             getPieceAt (makeMove pos m) sq = getPieceAt pos sq.
Proof.
  intros Hwf Hty Hne Hocc.
  destruct (proj1 (move_type_flags m) Hty) as (Hc & He & Hp).
  apply makeMove_plain; [exact Hwf| |exact Hne|].
  - destruct (pieceOn_cases (pieceBitboards pos) (from m))
      as [E|(c & pt & Hpt & E)]; [contradiction|].
    rewrite getPieceAt_pieceOn, E. apply typeOf_makePiece_real. exact Hpt.
  - rewrite makeMove_boards. cbv zeta. rewrite Hc, He, Hp. reflexivity.
Qed.

Lemma makeMove_normal_witness :
  getPieceAt (makeMove startpos (Move2 12 28)) (from (Move2 12 28)) = NO_PIECE /\
  getPieceAt (makeMove startpos (Move2 12 28)) (to (Move2 12 28)) =
    makePiece (sideToMove startpos)
              (typeOf (getPieceAt startpos (from (Move2 12 28)))) /\
  forall sq, sq <> from (Move2 12 28) -> sq <> to (Move2 12 28) ->
             getPieceAt (makeMove startpos (Move2 12 28)) sq =
             getPieceAt startpos sq.
Proof.
  apply (makeMove_normal startpos (Move2 12 28)).
  - exact startpos_wf_position.
  - vm_compute. reflexivity.
  - vm_compute. discriminate.
  - vm_compute. discriminate.
Defined.

Lemma colorOf_makePiece (c : Color) (pt : PieceType) :
  colorOf (makePiece c pt) = c.
Proof. destruct c, pt; reflexivity. Qed.

(** When White is to move and the piece on the source square is
    White's, a normal move carries that very piece to the
    destination. *)
Theorem makeMove_white_normal (pos : Position) (m : Move) :
  wf_position pos -> type m = NORMAL -> from m <> to m ->
  sideToMove pos = WHITE ->
  getPieceAt pos (from m) <> NO_PIECE ->
  colorOf (getPieceAt pos (from m)) = WHITE ->
  getPieceAt (makeMove pos m) (to m) = getPieceAt pos (from m).
Proof.
  intros Hwf Hty Hne Hside Hocc Hcol.
  destruct (proj1 (move_type_flags m) Hty) as (Hc & He & Hp).
  destruct (pieceOn_cases (pieceBitboards pos) (from m))
    as [E|(c & pt & Hpt & E)]; [contradiction|].
  rewrite <- getPieceAt_pieceOn in E.
  rewrite E in Hcol. rewrite colorOf_makePiece in Hcol. subst c.
  assert (Hreal : typeOf (getPieceAt pos (from m)) <> NO_PIECE_TYPE)
    by (rewrite E; apply typeOf_makePiece_real; exact Hpt).
  assert (Eb : pieceBitboards (makeMove pos m) =
               putPiece (to m) (typeOf (getPieceAt pos (from m))) (sideToMove pos)
                 (if negb (getPieceAt pos (to m) =? NO_PIECE)
                  then clearSquare (to m)
                         (clearSquare (from m) (pieceBitboards pos))
                  else clearSquare (from m) (pieceBitboards pos)))
    by (rewrite makeMove_boards; cbv zeta; rewrite Hc, He, Hp; reflexivity).
  destruct (makeMove_plain pos m _ Hwf Hreal Hne Eb) as (_ & Hto & _).
  rewrite Hto, Hside, E, (typeOf_white_piece pt Hpt). reflexivity.
Qed.

Lemma makeMove_white_normal_witness :
  getPieceAt (makeMove startpos (Move2 6 21)) (to (Move2 6 21)) =
  getPieceAt startpos (from (Move2 6 21)).
Proof.
  apply (makeMove_white_normal startpos (Move2 6 21)).
  - exact startpos_wf_position.
  - vm_compute. reflexivity.
  - vm_compute. discriminate.
  - vm_compute. reflexivity.
  - vm_compute. discriminate.
  - vm_compute. reflexivity.
Defined.

(** With Black to move the type read off the moved piece is not its
    own: after 1. e4 the reply e7-e5 leaves a black bishop on e5. *)
Example makeMove_black_pawn_push :
  let pos := makeMove startpos (Move2 12 28) in
  getPieceAt pos 52 = B_PAWN /\
  getPieceAt (makeMove pos (Move2 52 36)) 36 = B_BISHOP.
Proof. split; vm_compute; reflexivity. Qed.

(** X13.  A promotion on a well-formed board leaves the chosen piece,
    in the mover's colour, on the destination, empties the source and
    changes nothing else. *)
Theorem makeMove_promotion (pos : Position) (m : Move) :
  wf_position pos -> type m = PROMOTION -> from m <> to m ->
  getPieceAt (makeMove pos m) (from m) = NO_PIECE /\
  getPieceAt (makeMove pos m) (to m) =
    makePiece (sideToMove pos) (promotedPieceOf (promotionType m)) /\
  forall sq, sq <> from m -> sq <> to m ->
             getPieceAt (makeMove pos m) sq = getPieceAt pos sq.
Proof.
  intros Hwf Hty Hne.
  destruct (proj1 (proj2 (move_type_flags m)) Hty) as (Hc & He & Hp).
  apply makeMove_plain; [exact Hwf| |exact Hne|].
  - destruct (promotionType m); discriminate.
  - rewrite makeMove_boards. cbv zeta. rewrite Hc, He, Hp. reflexivity.
Qed.

Lemma promotion_sample_wf : wf_position promotion_sample.
Proof. vm_compute. reflexivity. Qed.

Lemma makeMove_promotion_witness :
  let m := Move4 52 59 PROMOTION PROMOTE_TO_KNIGHT in
  getPieceAt (makeMove promotion_sample m) (from m) = NO_PIECE /\
  getPieceAt (makeMove promotion_sample m) (to m) =
    makePiece (sideToMove promotion_sample) (promotedPieceOf (promotionType m)) /\
  forall sq, sq <> from m -> sq <> to m ->
             getPieceAt (makeMove promotion_sample m) sq =
             getPieceAt promotion_sample sq.
Proof.
  apply (makeMove_promotion promotion_sample
           (Move4 52 59 PROMOTION PROMOTE_TO_KNIGHT)).
  - exact promotion_sample_wf.
  - vm_compute. reflexivity.
  - vm_compute. discriminate.
Defined.

(** X14.  Castling on the board.  For each of the four castling moves,
    made by the side it belongs to on a well-formed board where the
    rook's destination is empty: afterwards the king stands on its
    destination and the rook on its own, the king's and the rook's
    squares of departure are empty, and every other square is as it
    was. *)
Theorem makeMove_castling (pos : Position) (us : Color)
    (kingFrom kingTo rookFrom rookTo : Square) :
  In (us, kingFrom, kingTo, rookFrom, rookTo) castling_table ->
  sideToMove pos = us -> wf_position pos ->
  getPieceAt pos rookTo = NO_PIECE ->
  getPieceAt (makeMove pos (Move3 kingFrom kingTo CASTLING)) kingTo
    = makePiece us KING /\
  getPieceAt (makeMove pos (Move3 kingFrom kingTo CASTLING)) rookTo
    = makePiece us ROOK /\
  getPieceAt (makeMove pos (Move3 kingFrom kingTo CASTLING)) kingFrom
    = NO_PIECE /\
  getPieceAt (makeMove pos (Move3 kingFrom kingTo CASTLING)) rookFrom
    = NO_PIECE /\
  forall sq,
    sq <> kingFrom -> sq <> kingTo -> sq <> rookFrom -> sq <> rookTo ->
    getPieceAt (makeMove pos (Move3 kingFrom kingTo CASTLING)) sq
    = getPieceAt pos sq.
Proof.
  intros Hin Hside Hwf Hempty.
  set (m := Move3 kingFrom kingTo CASTLING).
  destruct (makeMove_cleared pos m Hwf) as (Hb2 & Hf & Ht & Ho).
  cbv zeta in Hb2, Hf, Ht, Ho.
  pose proof (makeMove_boards pos m) as Eb. cbv zeta in Eb.
  set (b2 := if negb (getPieceAt pos (to m) =? NO_PIECE)
             then clearSquare (to m) (clearSquare (from m) (pieceBitboards pos))
             else clearSquare (from m) (pieceBitboards pos)) in *.
  assert (Hfields :
    from m = kingFrom /\ to m = kingTo /\ isCastling m = true /\
    kingTo <> rookFrom /\ kingTo <> rookTo /\ rookFrom <> rookTo /\
    kingFrom <> kingTo /\ kingFrom <> rookTo /\
    0 <= rookTo < 64 /\
    pieceBitboards (makeMove pos m) =
      putPiece rookTo ROOK us (clearSquare rookFrom (putPiece kingTo KING us b2))).
  { rewrite Eb, Hside. clear Eb Hb2 Hf Ht Ho. subst m.
    cbn [castling_table In] in Hin.
    destruct Hin as [E|[E|[E|[E|[]]]]]; injection E as <- <- <- <- <-;
      repeat split; try discriminate; reflexivity. }
  destruct Hfields as (Ef & Et & _ & N1 & N2 & N3 & N4 & N5 & Hrt & Eboards).
  rewrite Ef, Et in *.
  destruct (put_on_cleared b2 kingTo KING us Hb2 ltac:(discriminate)
              ltac:(rewrite <- Et; apply to_range) Ht) as [K1 K2].
  set (bk := putPiece kingTo KING us b2) in *.
  assert (Hbk : boards_wfb bk = true) by (apply putPiece_wf; exact Hb2).
  set (bc := clearSquare rookFrom bk) in *.
  assert (Hbc : boards_wfb bc = true) by (apply clearSquare_wf; exact Hbk).
  assert (Hrt_empty : pieceOn bc rookTo = NO_PIECE).
  { unfold bc. rewrite pieceOn_clearSquare_other by congruence.
    rewrite K2 by congruence.
    destruct (Z.eq_dec rookTo kingFrom) as [E|Hne]; [congruence|].
    rewrite Ho by congruence. exact Hempty. }
  destruct (put_on_cleared bc rookTo ROOK us Hbc ltac:(discriminate) Hrt Hrt_empty)
    as [R1 R2].
  split; [|split; [|split; [|split; [|intros sq S1 S2 S3 S4]]]];
    rewrite (getPieceAt_pieceOn (makeMove pos m)), Eboards.
  - rewrite R2 by exact N2. unfold bc.
    rewrite pieceOn_clearSquare_other by exact N1. exact K1.
  - exact R1.
  - rewrite R2 by exact N5. unfold bc.
    destruct (Z.eq_dec kingFrom rookFrom) as [->|Hne];
      [apply pieceOn_clearSquare_same|].
    rewrite pieceOn_clearSquare_other by exact Hne.
    rewrite K2 by exact N4. exact Hf.
  - rewrite R2 by exact N3. apply pieceOn_clearSquare_same.
  - rewrite R2 by exact S4. unfold bc.
    rewrite pieceOn_clearSquare_other by exact S3.
    rewrite K2 by exact S2. apply Ho; assumption.
Qed.

Lemma black_castling_position_wf : wf_position black_castling_position.
Proof. vm_compute. reflexivity. Qed.

Lemma makeMove_castling_witness :
  getPieceAt (makeMove black_castling_position (Move3 E8 C8 CASTLING)) C8
    = makePiece BLACK KING /\
  getPieceAt (makeMove black_castling_position (Move3 E8 C8 CASTLING)) D8
    = makePiece BLACK ROOK /\
  getPieceAt (makeMove black_castling_position (Move3 E8 C8 CASTLING)) E8
    = NO_PIECE /\
  getPieceAt (makeMove black_castling_position (Move3 E8 C8 CASTLING)) A8
    = NO_PIECE /\
  forall sq,
    sq <> E8 -> sq <> C8 -> sq <> A8 -> sq <> D8 ->
    getPieceAt (makeMove black_castling_position (Move3 E8 C8 CASTLING)) sq
    = getPieceAt black_castling_position sq.
Proof.
  apply (makeMove_castling black_castling_position BLACK E8 C8 A8 D8).
  - simpl. auto.
  - vm_compute. reflexivity.
  - exact black_castling_position_wf.
  - vm_compute. reflexivity.
Defined.

(** X15.  An en-passant capture on a well-formed board: afterwards a
    pawn of the side to move stands on the destination, the square
    behind the destination (one rank towards the mover's side) and
    the source are empty, and every other square is as it was. *)
Theorem makeMove_en_passant (pos : Position) (m : Move) :
  wf_position pos -> type m = EN_PASSANT -> from m <> to m ->
  getPieceAt (makeMove pos m) (to m) = makePiece (sideToMove pos) PAWN /\
  getPieceAt (makeMove pos m)
    (match sideToMove pos with WHITE => to m - 8 | BLACK => to m + 8 end)
    = NO_PIECE /\
  getPieceAt (makeMove pos m) (from m) = NO_PIECE /\
  forall sq,
    sq <> from m -> sq <> to m ->
    sq <> match sideToMove pos with WHITE => to m - 8 | BLACK => to m + 8 end ->
    getPieceAt (makeMove pos m) sq = getPieceAt pos sq.
Proof.
  intros Hwf Hty Hne.
  destruct (proj1 (proj2 (proj2 (move_type_flags m))) Hty) as (Hc & He).
  destruct (makeMove_cleared pos m Hwf) as (Hb2 & Hf & Ht & Ho).
  cbv zeta in Hb2, Hf, Ht, Ho.
  pose proof (makeMove_boards pos m) as Eb. cbv zeta in Eb.
  rewrite Hc, He in Eb.
  set (b2 := if negb (getPieceAt pos (to m) =? NO_PIECE)
             then clearSquare (to m) (clearSquare (from m) (pieceBitboards pos))
             else clearSquare (from m) (pieceBitboards pos)) in *.
  set (cap := match sideToMove pos with
              | WHITE => to m - 8 | BLACK => to m + 8 end) in *.
  assert (Hcap : to m <> cap) by (unfold cap; destruct (sideToMove pos); lia).
  destruct (put_on_cleared b2 (to m) PAWN (sideToMove pos) Hb2
              ltac:(discriminate) (to_range m) Ht) as [P1 P2].
  split; [|split; [|split; [|intros sq S1 S2 S3]]];
    rewrite (getPieceAt_pieceOn (makeMove pos m)), Eb.
  - rewrite pieceOn_clearSquare_other by exact Hcap. exact P1.
  - apply pieceOn_clearSquare_same.
  - destruct (Z.eq_dec (from m) cap) as [->|Hfc];
      [apply pieceOn_clearSquare_same|].
    rewrite pieceOn_clearSquare_other by exact Hfc.
    rewrite P2 by exact Hne. exact Hf.
  - rewrite pieceOn_clearSquare_other by exact S3.
    rewrite P2 by exact S2. apply Ho; assumption.
Qed.

Lemma en_passant_position_wf : wf_position en_passant_position.
Proof. vm_compute. reflexivity. Qed.

Lemma makeMove_en_passant_witness :
  let m := Move3 36 43 EN_PASSANT in
  getPieceAt (makeMove en_passant_position m) (to m)
    = makePiece (sideToMove en_passant_position) PAWN /\
  getPieceAt (makeMove en_passant_position m)
    (match sideToMove en_passant_position with
     | WHITE => to m - 8 | BLACK => to m + 8 end)
    = NO_PIECE /\
  getPieceAt (makeMove en_passant_position m) (from m) = NO_PIECE /\
  forall sq,
    sq <> from m -> sq <> to m ->
    sq <> match sideToMove en_passant_position with
          | WHITE => to m - 8 | BLACK => to m + 8 end ->
    getPieceAt (makeMove en_passant_position m) sq =
    getPieceAt en_passant_position sq.
Proof.
  apply (makeMove_en_passant en_passant_position (Move3 36 43 EN_PASSANT)).
  - exact en_passant_position_wf.
  - vm_compute. reflexivity.
  - vm_compute. discriminate.
Defined.

(** *** The pieces stay apart *)

Lemma not64_testbit (b : Z) (s : Z) :
  Z.testbit (not64 b) s = negb (Z.testbit b s) && (0 <=? s) && (s <? 64).
Proof.
  unfold not64, wrap64. rewrite two64_pow.
  destruct (Z.ltb_spec s 0) as [Hneg|Hnn].
  - rewrite Z.testbit_neg_r by exact Hneg.
    destruct (Z.leb_spec 0 s); [lia|]. rewrite andb_false_r. reflexivity.
  - destruct (Z.leb_spec 0 s); [|lia].
    destruct (Z.ltb_spec s 64) as [Hlt|Hge].
    + rewrite Z.mod_pow2_bits_low by lia. rewrite Z.lnot_spec by lia.
      rewrite !andb_true_r. reflexivity.
    + rewrite Z.mod_pow2_bits_high by lia. rewrite andb_false_r. reflexivity.
Qed.

Lemma land_zero_bits (a b : Z) (s : Z) :
  Z.land a b = 0 -> Z.testbit a s = true -> Z.testbit b s = false.
Proof.
  intros E Ha. destruct (Z.testbit b s) eqn:Hb; [|reflexivity].
  assert (T : Z.testbit (Z.land a b) s = true)
    by (rewrite Z.land_spec, Ha, Hb; reflexivity).
  rewrite E, Z.bits_0 in T. discriminate T.
Qed.

Lemma scan_order_real (c : Color) (pt : PieceType) :
  In (c, pt) piece_scan_order <-> pt <> NO_PIECE_TYPE.
Proof.
  unfold piece_scan_order, all_piece_types. cbn [map app In]. split.
  - intros H.
    repeat (destruct H as [H|H]; [inversion H; discriminate|]).
    contradiction.
  - intros H. destruct c, pt; try contradiction; auto 13.
Qed.

Lemma boards_disjoint_Apart (b : Boards) :
  boards_disjoint b = true <-> Apart b.
Proof.
  unfold boards_disjoint, Apart. split.
  - intros H s c1 pt1 c2 pt2 H1 H2 B1 B2.
    rewrite forallb_forall in H.
    specialize (H (c1, pt1) (proj2 (scan_order_real c1 pt1) H1)).
    rewrite forallb_forall in H.
    specialize (H (c2, pt2) (proj2 (scan_order_real c2 pt2) H2)).
    cbn [fst snd] in H. apply orb_true_iff in H as [H|H].
    + apply andb_true_iff in H as [Hc Hp].
      apply Color_eqb_spec in Hc. apply PieceType_eqb_eq in Hp.
      split; assumption.
    + apply Z.eqb_eq in H.
      pose proof (land_zero_bits _ _ s H B1) as N.
      rewrite B2 in N. discriminate N.
  - intros H. apply forallb_forall. intros [c1 pt1] In1.
    apply forallb_forall. intros [c2 pt2] In2. cbn [fst snd].
    apply scan_order_real in In1. apply scan_order_real in In2.
    destruct (Color_eqb c1 c2 && PieceType_eqb pt1 pt2) eqn:E;
      [reflexivity|].
    cbn [orb]. apply Z.eqb_eq. apply Z.bits_inj'. intros n _.
    rewrite Z.land_spec, Z.bits_0.
    destruct (Z.testbit (boards_get b c1 pt1) n) eqn:B1; [|reflexivity].
    destruct (Z.testbit (boards_get b c2 pt2) n) eqn:B2; [|reflexivity].
    destruct (H n c1 pt1 c2 pt2 In1 In2 B1 B2) as [-> ->].
    assert (T : Color_eqb c2 c2 && PieceType_eqb pt2 pt2 = true).
    { apply andb_true_iff. split;
        [apply Color_eqb_spec|apply PieceType_eqb_eq]; reflexivity. }
    rewrite T in E. discriminate E.
Qed.

Lemma Apart_clearSquare (sq : Square) (b : Boards) :
  Apart b -> Apart (clearSquare sq b).
Proof.
  intros H s c1 pt1 c2 pt2 H1 H2 B1 B2.
  rewrite boards_get_clearSquare, Z.land_spec in B1, B2.
  apply andb_true_iff in B1 as [B1 _]. apply andb_true_iff in B2 as [B2 _].
  exact (H s c1 pt1 c2 pt2 H1 H2 B1 B2).
Qed.

Lemma Vacant_clearSquare_same (sq : Square) (b : Boards) :
  0 <= sq < 64 -> Vacant (clearSquare sq b) sq.
Proof.
  intros Hsq c pt _.
  rewrite boards_get_clearSquare, Z.land_spec, not64_testbit, squareBB_testbit.
  rewrite Z.eqb_refl.
  destruct (Z.leb_spec 0 sq); [|lia]. destruct (Z.ltb_spec sq 64); [|lia].
  cbn [andb negb]. apply andb_false_r.
Qed.

Lemma Vacant_clearSquare (sq s : Square) (b : Boards) :
  Vacant b s -> Vacant (clearSquare sq b) s.
Proof.
  intros H c pt Hpt.
  rewrite boards_get_clearSquare, Z.land_spec, (H c pt Hpt). reflexivity.
Qed.

Lemma Vacant_putPiece (sq s : Square) (pt : PieceType) (c : Color)
    (b : Boards) :
  boards_wfb b = true -> pt <> NO_PIECE_TYPE ->
  Vacant b s -> s <> sq -> Vacant (putPiece sq pt c b) s.
Proof.
  intros Hwf Hpt H Hne c' pt' Hpt'.
  rewrite (boards_get_putPiece sq pt c b c' pt' Hwf Hpt).
  destruct (Color_eqb c' c && PieceType_eqb pt' pt); [|exact (H c' pt' Hpt')].
  rewrite Z.lor_spec, (H c' pt' Hpt'), squareBB_testbit.
  destruct (Z.eqb_spec s sq); [contradiction|reflexivity].
Qed.

Lemma Apart_putPiece (sq : Square) (pt : PieceType) (c : Color)
    (b : Boards) :
  boards_wfb b = true -> pt <> NO_PIECE_TYPE ->
  Apart b -> Vacant b sq -> Apart (putPiece sq pt c b).
Proof.
  intros Hwf Hpt Hap Hvac s c1 pt1 c2 pt2 H1 H2 B1 B2.
  rewrite (boards_get_putPiece sq pt c b c1 pt1 Hwf Hpt) in B1.
  rewrite (boards_get_putPiece sq pt c b c2 pt2 Hwf Hpt) in B2.
  assert (G : forall c' pt',
            pt' <> NO_PIECE_TYPE ->
            Z.testbit (if Color_eqb c' c && PieceType_eqb pt' pt
                       then Z.lor (boards_get b c' pt') (squareBB sq)
                       else boards_get b c' pt') s = true ->
            Z.testbit (boards_get b c' pt') s = true \/
            (s = sq /\ c' = c /\ pt' = pt)).
  { intros c' pt' Hr B.
    destruct (Color_eqb c' c && PieceType_eqb pt' pt) eqn:E; [|left; exact B].
    apply andb_true_iff in E as [Ec Ep].
    apply Color_eqb_spec in Ec. apply PieceType_eqb_eq in Ep.
    rewrite Z.lor_spec in B. apply orb_true_iff in B as [B|B];
      [left; exact B|right].
    rewrite squareBB_testbit in B.
    apply andb_true_iff in B as [B _]. apply andb_true_iff in B as [B _].
    apply Z.eqb_eq in B. repeat split; assumption. }
  destruct (G c1 pt1 H1 B1) as [O1|(E1 & -> & ->)];
    destruct (G c2 pt2 H2 B2) as [O2|(E2 & -> & ->)].
  - exact (Hap s c1 pt1 c2 pt2 H1 H2 O1 O2).
  - subst s. rewrite (Hvac c1 pt1 H1) in O1. discriminate O1.
  - subst s. rewrite (Hvac c2 pt2 H2) in O2. discriminate O2.
  - split; reflexivity.
Qed.

Lemma Vacant_pieceOn (b : Boards) (sq : Square) :
  0 <= sq < 64 -> pieceOn b sq = NO_PIECE -> Vacant b sq.
Proof.
  intros Hsq H c pt Hpt. unfold pieceOn in H.
  apply first_piece_on_empty in H. rewrite Forall_forall in H.
  specialize (H (c, pt) (proj2 (scan_order_real c pt) Hpt)).
  cbn [fst snd] in H.
  destruct (Z.testbit (boards_get b c pt) sq) eqn:B; [|reflexivity].
  assert (T : Z.testbit (Z.land (boards_get b c pt) (squareBB sq)) sq = true).
  { rewrite Z.land_spec, B, squareBB_testbit, Z.eqb_refl.
    destruct (Z.leb_spec 0 sq); [|lia]. destruct (Z.ltb_spec sq 64); [|lia].
    reflexivity. }
  rewrite H, Z.bits_0 in T. discriminate T.
Qed.

Lemma promotedPieceOf_real (p : PromotionType) :
  promotedPieceOf p <> NO_PIECE_TYPE.
Proof. destruct p; discriminate. Qed.

Lemma castlingRookTo_range (us : Color) (m : Move) :
  0 <= castlingRookTo us m < 64.
Proof.
  unfold castlingRookTo, F1, F8, D1, D8.
  destruct (to m >? from m), us; lia.
Qed.

(** One move keeps the pieces apart. *)
Lemma makeMove_keeps_apart (pos : Position) (m : Move) :
  wf_position pos -> Apart (pieceBitboards pos) ->
  makeMove_defined pos m = true -> castling_room pos m = true ->
  Apart (pieceBitboards (makeMove pos m)).
Proof.
  intros Hwf Hap Hdef Hroom.
  pose proof (from_range m) as Hf. pose proof (to_range m) as Ht.
  rewrite makeMove_boards. cbv zeta.
  set (b1 := clearSquare (from m) (pieceBitboards pos)).
  assert (W1 : boards_wfb b1 = true) by (apply clearSquare_wf; exact Hwf).
  assert (A1 : Apart b1) by (apply Apart_clearSquare; exact Hap).
  set (b2 := if negb (getPieceAt pos (to m) =? NO_PIECE)
             then clearSquare (to m) b1 else b1).
  assert (W2 : boards_wfb b2 = true).
  { subst b2. destruct (negb _); [apply clearSquare_wf|]; exact W1. }
  assert (A2 : Apart b2).
  { subst b2. destruct (negb _); [apply Apart_clearSquare|]; exact A1. }
  assert (V2 : Vacant b2 (to m)).
  { subst b2. destruct (Z.eqb_spec (getPieceAt pos (to m)) NO_PIECE) as [E|N];
      cbn [negb].
    - apply Vacant_clearSquare. apply Vacant_pieceOn; [exact Ht|].
      rewrite <- getPieceAt_pieceOn. exact E.
    - apply Vacant_clearSquare_same. exact Ht. }
  assert (Keep : forall s, Vacant (pieceBitboards pos) s -> Vacant b2 s).
  { intros s Hs. subst b2 b1.
    destruct (negb _); repeat apply Vacant_clearSquare; exact Hs. }
  unfold makeMove_defined in Hdef.
  apply andb_true_iff in Hdef as [Hdef _].
  apply andb_true_iff in Hdef as [Hdef _].
  unfold castling_room in Hroom.
  destruct (isCastling m).
  - apply andb_true_iff in Hroom as [Hne Hfree].
    apply negb_true_iff in Hne. apply Z.eqb_neq in Hne.
    apply Z.eqb_eq in Hfree.
    pose proof (castlingRookTo_range (sideToMove pos) m) as Hr.
    assert (VR : Vacant b2 (castlingRookTo (sideToMove pos) m)).
    { apply Keep. apply Vacant_pieceOn; [exact Hr|].
      rewrite <- getPieceAt_pieceOn. exact Hfree. }
    assert (AK : Apart (putPiece (to m) KING (sideToMove pos) b2))
      by (apply Apart_putPiece; [exact W2|discriminate|exact A2|exact V2]).
    assert (VK : Vacant (putPiece (to m) KING (sideToMove pos) b2)
                        (castlingRookTo (sideToMove pos) m))
      by (apply Vacant_putPiece;
          [exact W2|discriminate|exact VR|intros E; apply Hne; symmetry; exact E]).
    assert (WK : boards_wfb (putPiece (to m) KING (sideToMove pos) b2) = true)
      by (apply putPiece_wf; exact W2).
    unfold castlingRookTo in VK.
    destruct (to m >? from m);
      (apply Apart_putPiece;
       [apply clearSquare_wf; exact WK | discriminate
       |apply Apart_clearSquare; exact AK
       |apply Vacant_clearSquare; exact VK]).
  - destruct (isEnPassant m).
    + apply Apart_clearSquare.
      apply Apart_putPiece; [exact W2|discriminate|exact A2|exact V2].
    + destruct (isPromotion m).
      * apply Apart_putPiece;
          [exact W2|apply promotedPieceOf_real|exact A2|exact V2].
      * apply Apart_putPiece; [exact W2| |exact A2|exact V2].
        apply negb_true_iff in Hdef. apply Z.eqb_neq in Hdef.
        rewrite getPieceAt_pieceOn in *.
        destruct (pieceOn_cases (pieceBitboards pos) (from m))
          as [E|(c & pt & Hpt & E)]; [contradiction|].
        rewrite E. apply typeOf_makePiece_real. exact Hpt.
Qed.

(** X10.  [makeMove] keeps the pieces apart.  Along a line of moves
    each of which, where it is played, [makeMove] is defined on (a
    normal move starts on an occupied square, the pawn captured en
    passant stands on the board, the counters have room) and, if it
    castles, finds the rook's destination empty and other than the
    king's, the twelve bitboards stay pairwise disjoint: no square
    comes to hold two pieces. *)
Theorem makeMove_keeps_disjoint (pos : Position) (line : list Move) :
  wf_position pos ->
  boards_disjoint (pieceBitboards pos) = true ->
  playable pos line = true ->
  wf_position (fold_left makeMove line pos) /\
  boards_disjoint (pieceBitboards (fold_left makeMove line pos)) = true.
Proof.
  revert pos. induction line as [|m line IH]; intros pos Hwf Hd Hp.
  - split; assumption.
  - cbn [fold_left]. cbn [playable] in Hp.
    apply andb_true_iff in Hp as [Hp Hrest].
    apply andb_true_iff in Hp as [Hdef Hroom].
    apply IH; [apply makeMove_keeps_wf; exact Hwf| |exact Hrest].
    apply boards_disjoint_Apart. apply makeMove_keeps_apart; try assumption.
    apply boards_disjoint_Apart. exact Hd.
Qed.

Lemma makeMove_keeps_disjoint_witness :
  wf_position
    (fold_left makeMove [Move2 12 28; Move2 52 36; Move2 6 21] startpos) /\
  boards_disjoint
    (pieceBitboards
       (fold_left makeMove [Move2 12 28; Move2 52 36; Move2 6 21] startpos))
  = true.
Proof.
  apply (makeMove_keeps_disjoint startpos
           [Move2 12 28; Move2 52 36; Move2 6 21]).
  - exact startpos_wf_position.
  - vm_compute. reflexivity.
  - vm_compute. reflexivity.
Defined.

(** ** Attack tables *)

Lemma tables_check_all :
  forallb (fun a => forallb (tables_check a) (Z_range 64 0)) (Z_range 64 0)
  = true.
Proof. vm_compute. reflexivity. Qed.

Lemma pawn_tables_check_all :
  forallb pawn_tables_check (Z_range 64 0) = true.
Proof. vm_compute. reflexivity. Qed.

Lemma tables_check_at (a b : Square) :
  0 <= a < 64 -> 0 <= b < 64 -> tables_check a b = true.
Proof.
  intros Ha Hb. pose proof tables_check_all as H.
  rewrite forallb_forall in H.
  specialize (H a (Z_range_In 64 0 a ltac:(simpl; lia))).
  rewrite forallb_forall in H.
  exact (H b (Z_range_In 64 0 b ltac:(simpl; lia))).
Qed.

Lemma knight_table_bit (a b : Square) :
  0 <= a < 64 -> 0 <= b < 64 ->
  Z.testbit (Gen.knightAttacks a) b = knight_jump a b.
Proof.
  intros Ha Hb. pose proof (tables_check_at a b Ha Hb) as H.
  unfold tables_check in H.
  apply andb_prop in H as [H _]. apply andb_prop in H as [H _].
  apply Bool.eqb_prop in H. exact H.
Qed.

Lemma king_table_bit (a b : Square) :
  0 <= a < 64 -> 0 <= b < 64 ->
  Z.testbit (Gen.kingAttacks a) b = king_step a b.
Proof.
  intros Ha Hb. pose proof (tables_check_at a b Ha Hb) as H.
  unfold tables_check in H.
  apply andb_prop in H as [H _]. apply andb_prop in H as [_ H].
  apply Bool.eqb_prop in H. exact H.
Qed.

Lemma pawn_table_bit (c : Color) (a b : Square) :
  0 <= a < 64 -> 0 <= b < 64 ->
  Z.testbit (Gen.pawnAttacks c a) b = pawn_capture c a b.
Proof.
  intros Ha Hb. pose proof (tables_check_at a b Ha Hb) as H.
  unfold tables_check in H. apply andb_prop in H as [_ H].
  rewrite forallb_forall in H.
  apply Bool.eqb_prop, H. destruct c; simpl; auto.
Qed.

(** X16.  The attack tables of the move generator, bit by bit: a
    knight's entry holds the squares one rank and two files, or two
    ranks and one file away; a king's entry the neighbouring squares;
    a pawn's entry the squares one rank ahead (up for White, down for
    Black) and one file aside. *)
Theorem attack_tables_geometry (a b : Square) :
  0 <= a < 64 -> 0 <= b < 64 ->
  Z.testbit (Gen.knightAttacks a) b = knight_jump a b /\
  Z.testbit (Gen.kingAttacks a) b = king_step a b /\
  forall c, Z.testbit (Gen.pawnAttacks c a) b = pawn_capture c a b.
Proof.
  intros Ha Hb.
  split; [apply knight_table_bit; assumption|].
  split; [apply king_table_bit; assumption|].
  intros c. apply pawn_table_bit; assumption.
Qed.

Lemma attack_tables_geometry_witness :
  Z.testbit (Gen.knightAttacks 6) 21 = knight_jump 6 21 /\
  Z.testbit (Gen.kingAttacks 6) 21 = king_step 6 21 /\
  forall c, Z.testbit (Gen.pawnAttacks c 6) 21 = pawn_capture c 6 21.
Proof.
  apply (attack_tables_geometry 6 21); vm_compute; split; discriminate || reflexivity.
Defined.

Lemma pawn_tables_at (c : Color) (sq : Square) :
  0 <= sq < 64 -> pawn_tables_check sq = true ->
  AttackTable.pawnAttacks c sq = Gen.pawnAttacks c sq /\
  Attacks.pawnAttacksBB (squareBB sq) c = Gen.pawnAttacks c sq.
Proof.
  intros Hsq H.
  unfold pawn_tables_check in H. rewrite forallb_forall in H.
  assert (Hc : In c [WHITE; BLACK]) by (destruct c; simpl; auto).
  specialize (H c Hc). apply andb_prop in H as [H1 H2].
  apply Z.eqb_eq in H1, H2. auto.
Qed.

Lemma pawnAttacksBB_square (c : Color) (sq : Square) :
  0 <= sq < 64 ->
  Attacks.pawnAttacksBB (squareBB sq) c = Gen.pawnAttacks c sq.
Proof.
  intros Hsq. pose proof pawn_tables_check_all as H.
  rewrite forallb_forall in H.
  specialize (H sq (Z_range_In 64 0 sq ltac:(simpl; lia))).
  exact (proj2 (pawn_tables_at c sq Hsq H)).
Qed.

(** X17.  The three computations of a pawn's attacks agree on every
    square of the board and for both colours: the table of
    [bitboard_attacks.cpp] (built from ranks and files), the table of
    [move_generator.cpp] (built from shifts of the square's bit) and
    [pawnAttacksBB] applied to the single square. *)
Theorem pawn_attacks_agree (c : Color) (sq : Square) :
  0 <= sq < 64 ->
  AttackTable.pawnAttacks c sq = Gen.pawnAttacks c sq /\
  Attacks.pawnAttacksBB (squareBB sq) c = Gen.pawnAttacks c sq.
Proof.
  intros Hsq. pose proof pawn_tables_check_all as H.
  rewrite forallb_forall in H.
  specialize (H sq (Z_range_In 64 0 sq ltac:(simpl; lia))).
  exact (pawn_tables_at c sq Hsq H).
Qed.

Lemma pawn_attacks_agree_witness :
  AttackTable.pawnAttacks BLACK 39 = Gen.pawnAttacks BLACK 39 /\
  Attacks.pawnAttacksBB (squareBB 39) BLACK = Gen.pawnAttacks BLACK 39.
Proof.
  apply (pawn_attacks_agree BLACK 39); vm_compute; split; discriminate || reflexivity.
Defined.

(** ** Sliding attacks *)

Lemma on_board_iff (r f : Z) :
  on_board r f = true <-> 0 <= r < 8 /\ 0 <= f < 8.
Proof.
  unfold on_board. rewrite !andb_true_iff.
  rewrite Z.geb_le, Z.geb_le, !Z.ltb_lt. lia.
Qed.

Lemma occupied_test (occ : Bitboard) (s : Square) :
  0 <= s < 64 ->
  negb (Z.land occ (squareBB s) =? 0) = Z.testbit occ s.
Proof.
  intros Hs.
  destruct (Z.testbit occ s) eqn:Eb.
  - destruct (Z.eqb_spec (Z.land occ (squareBB s)) 0) as [E|_]; [|reflexivity].
    assert (T : Z.testbit (Z.land occ (squareBB s)) s = true).
    { rewrite Z.land_spec, Eb, squareBB_testbit, Z.eqb_refl.
      destruct (Z.leb_spec 0 s); [|lia]. destruct (Z.ltb_spec s 64); [|lia].
      reflexivity. }
    rewrite E, Z.bits_0 in T. discriminate T.
  - destruct (Z.eqb_spec (Z.land occ (squareBB s)) 0) as [_|N]; [reflexivity|].
    exfalso. apply N. apply Z.bits_inj'. intros n Hn.
    rewrite Z.land_spec, Z.bits_0, squareBB_testbit.
    destruct (Z.eqb_spec n s) as [->|_]; [rewrite Eb|rewrite andb_false_r];
      reflexivity.
Qed.

(** One ray loop, bit by bit: the squares walked up to and including
    the first occupied one are added to [attacks]. *)
Lemma ray_walk_spec (dr df : Z) (occupied : Bitboard) (n : nat) :
  forall (r f : Z) (attacks : Bitboard) (i : Z),
    (forall j, 0 <= j < Z.of_nat n ->
               on_board (r + j * dr) (f + j * df) = true) ->
    (Z.testbit (ray_walk n r f dr df occupied attacks) i = true <->
     Z.testbit attacks i = true \/
     exists k, 0 <= k < Z.of_nat n /\
               i = makeSquare (f + k * df) (r + k * dr) /\
               forall j, 0 <= j < k ->
                 Z.testbit occupied (makeSquare (f + j * df) (r + j * dr))
                 = false).
Proof.
  induction n as [|m IH]; intros r f attacks i Hon; cbn [ray_walk].
  - split; [auto|]. intros [H|(k & Hk & _)]; [exact H|simpl in Hk; lia].
  - rewrite Nat2Z.inj_succ in *.
    assert (H0 : 0 <= makeSquare f r < 64).
    { specialize (Hon 0 ltac:(lia)). rewrite !Z.mul_0_l, !Z.add_0_r in Hon.
      apply on_board_iff in Hon. unfold makeSquare. lia. }
    rewrite (occupied_test occupied _ H0).
    assert (Hhere : Z.testbit (Z.lor attacks (squareBB (makeSquare f r))) i = true <->
                    Z.testbit attacks i = true \/ i = makeSquare f r).
    { rewrite Z.lor_spec, squareBB_testbit, orb_true_iff, !andb_true_iff.
      rewrite Z.eqb_eq, Z.leb_le, Z.ltb_lt. split; [tauto|].
      intros [H|H]; [left; exact H|right; subst i; lia]. }
    destruct (Z.testbit occupied (makeSquare f r)) eqn:Eocc.
    + rewrite Hhere. split.
      * intros [H|H]; [left; exact H|right].
        exists 0. rewrite !Z.mul_0_l, !Z.add_0_r.
        split; [lia|]. split; [exact H|]. intros j Hj. lia.
      * intros [H|(k & Hk & Hi & Hfree)]; [left; exact H|right].
        destruct (Z.eq_dec k 0) as [->|Hnz].
        -- rewrite !Z.mul_0_l, !Z.add_0_r in Hi. exact Hi.
        -- specialize (Hfree 0 ltac:(lia)).
           rewrite !Z.mul_0_l, !Z.add_0_r, Eocc in Hfree. discriminate Hfree.
    + rewrite IH.
      2:{ intros j Hj. specialize (Hon (j + 1) ltac:(lia)).
          replace (r + dr + j * dr) with (r + (j + 1) * dr) by lia.
          replace (f + df + j * df) with (f + (j + 1) * df) by lia.
          exact Hon. }
      rewrite Hhere. split.
      * intros [[H|H]|(k & Hk & Hi & Hfree)].
        -- left. exact H.
        -- right. exists 0. rewrite !Z.mul_0_l, !Z.add_0_r.
           split; [lia|]. split; [exact H|]. intros j Hj. lia.
        -- right. exists (k + 1). split; [lia|]. split.
           ++ rewrite Hi. f_equal; lia.
           ++ intros j Hj. destruct (Z.eq_dec j 0) as [->|Hnz].
              ** rewrite !Z.mul_0_l, !Z.add_0_r. exact Eocc.
              ** specialize (Hfree (j - 1) ltac:(lia)).
                 replace (f + df + (j - 1) * df) with (f + j * df) in Hfree by lia.
                 replace (r + dr + (j - 1) * dr) with (r + j * dr) in Hfree by lia.
                 exact Hfree.
      * intros [H|(k & Hk & Hi & Hfree)]; [left; left; exact H|].
        destruct (Z.eq_dec k 0) as [->|Hnz].
        -- left. right. rewrite !Z.mul_0_l, !Z.add_0_r in Hi. exact Hi.
        -- right. exists (k - 1). split; [lia|]. split.
           ++ rewrite Hi. f_equal; lia.
           ++ intros j Hj. specialize (Hfree (j + 1) ltac:(lia)).
              replace (f + (j + 1) * df) with (f + df + j * df) in Hfree by lia.
              replace (r + (j + 1) * dr) with (r + dr + j * dr) in Hfree by lia.
              exact Hfree.
Qed.

Lemma square_coords (sq : Square) :
  0 <= sq < 64 ->
  0 <= rankOf sq < 8 /\ 0 <= fileOf sq < 8 /\
  sq = rankOf sq * 8 + fileOf sq.
Proof.
  intros H. pose proof (square_split sq (proj1 H)) as E.
  unfold rankOf, fileOf in *.
  rewrite Z.shiftr_div_pow2 in * by lia.
  change 7 with (Z.ones 3) in *. rewrite Z.land_ones in * by lia.
  change (2 ^ 3) with 8 in *.
  pose proof (Z.mod_pos_bound sq 8 ltac:(lia)).
  pose proof (Z.div_mod sq 8 ltac:(lia)). lia.
Qed.

Ltac ray_on_board :=
  let j := fresh "j" in
  let Hj := fresh "Hj" in
  intros j Hj; apply on_board_iff; unfold ray_steps in *; lia.

Ltac slide_forward dr df :=
  match goal with
  | H : exists k, _ |- _ =>
      let k := fresh "k" in
      let Hk := fresh "Hk" in
      let Hi := fresh "Hi" in
      let Hfree := fresh "Hfree" in
      destruct H as (k & Hk & Hi & Hfree);
      exists dr, df, (k + 1);
      split; [simpl; tauto|];
      split; [lia|];
      split; [apply on_board_iff; unfold ray_steps in *; lia|];
      split; [rewrite Hi; unfold step_from; f_equal; lia|];
      let j := fresh "j" in
      let Hj := fresh "Hj" in
      intros j Hj; specialize (Hfree (j - 1) ltac:(lia));
      unfold step_from;
      match type of Hfree with
      | Z.testbit _ (makeSquare ?a ?b) = false =>
          match goal with
          | |- Z.testbit _ (makeSquare ?c ?d) = false =>
              replace c with a by lia; replace d with b by lia; exact Hfree
          end
      end
  end.

Ltac slide_backward k Hk Hon Ht Hfree :=
  exists (k - 1);
  split; [apply on_board_iff in Hon; unfold ray_steps; lia|];
  split; [rewrite Ht; unfold step_from; f_equal; lia|];
  let j := fresh "j" in
  let Hj := fresh "Hj" in
  intros j Hj; specialize (Hfree (j + 1) ltac:(lia));
  unfold step_from in Hfree;
  match type of Hfree with
  | Z.testbit _ (makeSquare ?a ?b) = false =>
      match goal with
      | |- Z.testbit _ (makeSquare ?c ?d) = false =>
          replace c with a by lia; replace d with b by lia; exact Hfree
      end
  end.

Lemma rook_rays_slides (sq : Square) (occ : Bitboard) (t : Square) :
  0 <= sq < 64 ->
  (Z.testbit (rook_rays sq occ) t = true <-> slides rook_directions sq occ t).
Proof.
  intros Hsq. destruct (square_coords sq Hsq) as (Hr & Hf & _).
  unfold rook_rays.
  set (rank := rankOf sq) in *. set (file := fileOf sq) in *.
  rewrite ray_walk_spec by ray_on_board.
  rewrite ray_walk_spec by ray_on_board.
  rewrite ray_walk_spec by ray_on_board.
  rewrite ray_walk_spec by ray_on_board.
  rewrite Z.bits_0. unfold slides. fold rank. fold file.
  split.
  - intros [[[[H|H]|H]|H]|H]; [discriminate H| | | |].
    + slide_forward 1 0.
    + slide_forward (-1) 0.
    + slide_forward 0 1.
    + slide_forward 0 (-1).
  - intros (dr & df & k & Hin & Hk & Hon & Ht & Hfree).
    cbn [rook_directions In] in Hin.
    destruct Hin as [E|[E|[E|[E|[]]]]]; injection E as <- <-.
    + left. left. left. right. slide_backward k Hk Hon Ht Hfree.
    + left. left. right. slide_backward k Hk Hon Ht Hfree.
    + left. right. slide_backward k Hk Hon Ht Hfree.
    + right. slide_backward k Hk Hon Ht Hfree.
Qed.

Lemma bishop_rays_slides (sq : Square) (occ : Bitboard) (t : Square) :
  0 <= sq < 64 ->
  (Z.testbit (bishop_rays sq occ) t = true <->
   slides bishop_directions sq occ t).
Proof.
  intros Hsq. destruct (square_coords sq Hsq) as (Hr & Hf & _).
  unfold bishop_rays.
  set (rank := rankOf sq) in *. set (file := fileOf sq) in *.
  rewrite ray_walk_spec by ray_on_board.
  rewrite ray_walk_spec by ray_on_board.
  rewrite ray_walk_spec by ray_on_board.
  rewrite ray_walk_spec by ray_on_board.
  rewrite Z.bits_0. unfold slides. fold rank. fold file.
  split.
  - intros [[[[H|H]|H]|H]|H]; [discriminate H| | | |].
    + slide_forward 1 1.
    + slide_forward (-1) 1.
    + slide_forward (-1) (-1).
    + slide_forward 1 (-1).
  - intros (dr & df & k & Hin & Hk & Hon & Ht & Hfree).
    cbn [bishop_directions In] in Hin.
    destruct Hin as [E|[E|[E|[E|[]]]]]; injection E as <- <-.
    + left. left. left. right. slide_backward k Hk Hon Ht Hfree.
    + left. left. right. slide_backward k Hk Hon Ht Hfree.
    + left. right. slide_backward k Hk Hon Ht Hfree.
    + right. slide_backward k Hk Hon Ht Hfree.
Qed.

Lemma slides_app (d1 d2 : list (Z * Z)) (a : Square) (occ : Bitboard)
    (t : Square) :
  slides (d1 ++ d2) a occ t <-> slides d1 a occ t \/ slides d2 a occ t.
Proof.
  unfold slides. split.
  - intros (dr & df & k & Hin & H). apply in_app_or in Hin as [Hin|Hin];
      [left|right]; exists dr, df, k; auto.
  - intros [(dr & df & k & Hin & H)|(dr & df & k & Hin & H)];
      exists dr, df, k; split; auto; apply in_or_app; auto.
Qed.

(** X18.  The ray loops compute sliding attacks.  For a square of the
    board and any occupancy, the bit of [t] is set in
    [rookAttacksBB sq occupied] exactly when [t] lies some steps away
    along the rank or file of [sq] with every square passed on the
    way unoccupied; likewise [bishopAttacksBB] along the diagonals and
    [queenAttacksBB] along both. *)
Theorem slider_attacks (sq : Square) (occ : Bitboard) (t : Square) :
  0 <= sq < 64 ->
  (Z.testbit (Attacks.rookAttacksBB sq occ) t = true <->
   slides rook_directions sq occ t) /\
  (Z.testbit (Attacks.bishopAttacksBB sq occ) t = true <->
   slides bishop_directions sq occ t) /\
  (Z.testbit (Attacks.queenAttacksBB sq occ) t = true <->
   slides (bishop_directions ++ rook_directions) sq occ t).
Proof.
  intros Hsq. unfold Attacks.queenAttacksBB.
  unfold Attacks.rookAttacksBB, Attacks.bishopAttacksBB.
  split; [apply rook_rays_slides; exact Hsq|].
  split; [apply bishop_rays_slides; exact Hsq|].
  rewrite Z.lor_spec, orb_true_iff, slides_app.
  rewrite (rook_rays_slides sq occ t Hsq), (bishop_rays_slides sq occ t Hsq).
  reflexivity.
Qed.

Lemma slider_attacks_witness :
  (Z.testbit (Attacks.rookAttacksBB 0 0xFFFF00000000FFFF) 1 = true <->
   slides rook_directions 0 0xFFFF00000000FFFF 1) /\
  (Z.testbit (Attacks.bishopAttacksBB 0 0xFFFF00000000FFFF) 1 = true <->
   slides bishop_directions 0 0xFFFF00000000FFFF 1) /\
  (Z.testbit (Attacks.queenAttacksBB 0 0xFFFF00000000FFFF) 1 = true <->
   slides (bishop_directions ++ rook_directions) 0 0xFFFF00000000FFFF 1).
Proof.
  apply (slider_attacks 0 0xFFFF00000000FFFF 1).
  vm_compute. split; discriminate || reflexivity.
Defined.

(** ** [isSquareAttacked] *)

Lemma nonzero_land_iff (a b : Z) :
  0 <= a ->
  (nonzero (Z.land a b) = true <->
   exists p, Z.testbit a p = true /\ Z.testbit b p = true).
Proof.
  intros Ha. unfold nonzero. rewrite negb_true_iff, Z.eqb_neq. split.
  - intros Hnz.
    assert (Hpos : 0 < Z.land a b).
    { pose proof (land_le_l a b Ha). lia. }
    exists (Z.log2 (Z.land a b)).
    apply andb_prop. rewrite <- Z.land_spec. apply Z.bit_log2. exact Hpos.
  - intros (p & H1 & H2) E.
    assert (T : Z.testbit (Z.land a b) p = true)
      by (rewrite Z.land_spec, H1, H2; reflexivity).
    rewrite E, Z.bits_0 in T. discriminate T.
Qed.

Lemma testbit_square (b : Bitboard) (p : Z) :
  0 <= b < two64 -> Z.testbit b p = true -> 0 <= p < 64.
Proof.
  intros Hb Ht. split; [|exact (testbit_lt_64 b p Hb Ht)].
  destruct (Z.ltb_spec p 0) as [Hneg|]; [|assumption].
  rewrite Z.testbit_neg_r in Ht by exact Hneg. discriminate Ht.
Qed.

Lemma distance_sym (a b : Square) :
  rankDistance a b = rankDistance b a /\ fileDistance a b = fileDistance b a.
Proof. unfold rankDistance, fileDistance. lia. Qed.

Lemma knight_jump_sym (a b : Square) : knight_jump a b = knight_jump b a.
Proof.
  unfold knight_jump. destruct (distance_sym a b) as [-> ->]. reflexivity.
Qed.

Lemma king_step_sym (a b : Square) : king_step a b = king_step b a.
Proof.
  unfold king_step. destruct (distance_sym a b) as [-> ->].
  rewrite (Z.eqb_sym a b). reflexivity.
Qed.

Lemma pawn_capture_sym (c : Color) (a b : Square) :
  pawn_capture (opp c) a b = pawn_capture c b a.
Proof.
  unfold pawn_capture. destruct (distance_sym a b) as [_ ->].
  f_equal. destruct c; cbn [opp];
    destruct (Z.eqb_spec (rankOf b) (rankOf a + -1)),
             (Z.eqb_spec (rankOf a) (rankOf b + 1)),
             (Z.eqb_spec (rankOf b) (rankOf a + 1)),
             (Z.eqb_spec (rankOf a) (rankOf b + -1));
    try reflexivity; lia.
Qed.

Lemma step_from_coords (a : Square) (dr df k : Z) :
  on_board (rankOf a + k * dr) (fileOf a + k * df) = true ->
  rankOf (step_from a dr df k) = rankOf a + k * dr /\
  fileOf (step_from a dr df k) = fileOf a + k * df /\
  0 <= step_from a dr df k < 64.
Proof.
  intros H. apply on_board_iff in H as [Hr Hf].
  destruct (makeSquare_file_rank _ _ Hf Hr) as (A & B & C).
  unfold step_from. auto.
Qed.

Ltac slide_back a dr df k Hon Hfree :=
  let Hc := fresh "Hc" in
  pose proof (step_from_coords a dr df k Hon) as Hc;
  destruct Hc as (Hcr & Hcf & Hcb);
  exists (- dr), (- df), k;
  split; [simpl; tauto|];
  split; [assumption|];
  split; [rewrite Hcr, Hcf; apply on_board_iff; lia|];
  split;
  [unfold step_from at 1; rewrite Hcr, Hcf; unfold makeSquare; lia|];
  let j := fresh "j" in
  let Hj := fresh "Hj" in
  intros j Hj; specialize (Hfree (k - j) ltac:(lia));
  unfold step_from at 1; rewrite Hcr, Hcf;
  unfold step_from in Hfree;
  match type of Hfree with
  | Z.testbit _ (makeSquare ?x ?y) = false =>
      match goal with
      | |- Z.testbit _ (makeSquare ?c ?d) = false =>
          replace c with x by lia; replace d with y by lia; exact Hfree
      end
  end.

Lemma slides_rook_sym (a t : Square) (occ : Bitboard) :
  0 <= a < 64 -> slides rook_directions a occ t ->
  slides rook_directions t occ a.
Proof.
  intros Ha (dr & df & k & Hin & Hk & Hon & Ht & Hfree).
  destruct (square_coords a Ha) as (Hr & Hf & Ea).
  subst t. unfold slides.
  cbn [rook_directions In] in Hin.
  destruct Hin as [E|[E|[E|[E|[]]]]]; injection E as <- <-;
    [slide_back a 1 0 k Hon Hfree | slide_back a (-1) 0 k Hon Hfree
    |slide_back a 0 1 k Hon Hfree | slide_back a 0 (-1) k Hon Hfree].
Qed.

Lemma slides_bishop_sym (a t : Square) (occ : Bitboard) :
  0 <= a < 64 -> slides bishop_directions a occ t ->
  slides bishop_directions t occ a.
Proof.
  intros Ha (dr & df & k & Hin & Hk & Hon & Ht & Hfree).
  destruct (square_coords a Ha) as (Hr & Hf & Ea).
  subst t. unfold slides.
  cbn [bishop_directions In] in Hin.
  destruct Hin as [E|[E|[E|[E|[]]]]]; injection E as <- <-;
    [slide_back a 1 1 k Hon Hfree | slide_back a (-1) 1 k Hon Hfree
    |slide_back a (-1) (-1) k Hon Hfree | slide_back a 1 (-1) k Hon Hfree].
Qed.


Lemma bool_eq_iff (x y : bool) : (x = true <-> y = true) -> x = y.
Proof. destruct x, y; intros [H1 H2]; auto; try (symmetry; auto). Qed.

Lemma rook_attack_sym (a b : Square) (occ : Bitboard) :
  0 <= a < 64 -> 0 <= b < 64 ->
  Z.testbit (rook_rays a occ) b = Z.testbit (rook_rays b occ) a.
Proof.
  intros Ha Hb. apply bool_eq_iff.
  rewrite (rook_rays_slides a occ b Ha), (rook_rays_slides b occ a Hb).
  split; apply slides_rook_sym; assumption.
Qed.

Lemma bishop_attack_sym (a b : Square) (occ : Bitboard) :
  0 <= a < 64 -> 0 <= b < 64 ->
  Z.testbit (bishop_rays a occ) b = Z.testbit (bishop_rays b occ) a.
Proof.
  intros Ha Hb. apply bool_eq_iff.
  rewrite (bishop_rays_slides a occ b Ha), (bishop_rays_slides b occ a Hb).
  split; apply slides_bishop_sym; assumption.
Qed.

Lemma knight_attack_sym (a b : Square) :
  0 <= a < 64 -> 0 <= b < 64 ->
  Z.testbit (Gen.knightAttacks a) b = Z.testbit (Gen.knightAttacks b) a.
Proof.
  intros Ha Hb.
  rewrite (knight_table_bit a b Ha Hb), (knight_table_bit b a Hb Ha).
  apply knight_jump_sym.
Qed.

Lemma king_attack_sym (a b : Square) :
  0 <= a < 64 -> 0 <= b < 64 ->
  Z.testbit (Gen.kingAttacks a) b = Z.testbit (Gen.kingAttacks b) a.
Proof.
  intros Ha Hb.
  rewrite (king_table_bit a b Ha Hb), (king_table_bit b a Hb Ha).
  apply king_step_sym.
Qed.

Lemma pawn_attack_sym (c : Color) (a b : Square) :
  0 <= a < 64 -> 0 <= b < 64 ->
  Z.testbit (Attacks.pawnAttacksBB (squareBB a) (opp c)) b =
  Z.testbit (Gen.pawnAttacks c b) a.
Proof.
  intros Ha Hb.
  rewrite (pawnAttacksBB_square (opp c) a Ha).
  rewrite (pawn_table_bit (opp c) a b Ha Hb), (pawn_table_bit c b a Hb Ha).
  apply pawn_capture_sym.
Qed.

(** The five tests of [isSquareAttacked], in order. *)
Lemma isSquareAttacked_checks (pos : Position) (sq : Square) (by_ : Color) :
  isSquareAttacked pos sq by_ = true <->
  nonzero (Z.land (Attacks.pawnAttacksBB (squareBB sq) (opp by_))
                  (getPieceBitboard pos PAWN by_)) = true \/
  nonzero (Z.land (Attacks.knightAttacksBB sq)
                  (getPieceBitboard pos KNIGHT by_)) = true \/
  nonzero (Z.land (Attacks.bishopAttacksBB sq (getOccupiedBitboard pos))
                  (Z.lor (getPieceBitboard pos BISHOP by_)
                         (getPieceBitboard pos QUEEN by_))) = true \/
  nonzero (Z.land (Attacks.rookAttacksBB sq (getOccupiedBitboard pos))
                  (Z.lor (getPieceBitboard pos ROOK by_)
                         (getPieceBitboard pos QUEEN by_))) = true \/
  nonzero (Z.land (Attacks.kingAttacksBB sq)
                  (getPieceBitboard pos KING by_)) = true.
Proof.
  unfold isSquareAttacked. cbv zeta.
  assert (E : match by_ with
              | WHITE =>
                  nonzero (Z.land (Z.lor (shift Direction.SOUTH_WEST (squareBB sq))
                                         (shift Direction.SOUTH_EAST (squareBB sq)))
                                  (getPieceBitboard pos PAWN by_))
              | BLACK =>
                  nonzero (Z.land (Z.lor (shift Direction.NORTH_WEST (squareBB sq))
                                         (shift Direction.NORTH_EAST (squareBB sq)))
                                  (getPieceBitboard pos PAWN by_))
              end =
              nonzero (Z.land (Attacks.pawnAttacksBB (squareBB sq) (opp by_))
                              (getPieceBitboard pos PAWN by_)))
    by (destruct by_; reflexivity).
  rewrite E.
  repeat match goal with
         | |- context [if ?c then _ else _] => destruct c
         end; intuition congruence.
Qed.

Lemma land_pieces_iff (attacks pieces : Z) :
  0 <= pieces < two64 ->
  (nonzero (Z.land attacks pieces) = true <->
   exists p, 0 <= p < 64 /\ Z.testbit pieces p = true /\
             Z.testbit attacks p = true).
Proof.
  intros Hp. rewrite Z.land_comm, (nonzero_land_iff pieces attacks (proj1 Hp)).
  split.
  - intros (p & H1 & H2). exists p.
    split; [exact (testbit_square pieces p Hp H1)|auto].
  - intros (p & _ & H1 & H2). exists p. auto.
Qed.

(** X19.  [isSquareAttacked] agrees with the attack sets of the move
    generator.  On a position of 64-bit bitboards, a square of the
    board is reported as attacked by a colour exactly when some piece
    of that colour stands on a square from which, on the position's
    occupancy, the generator's attack set for that piece reaches the
    square. *)
Theorem isSquareAttacked_iff (pos : Position) (sq : Square) (by_ : Color) :
  wf_bitboards pos -> 0 <= sq < 64 ->
  (isSquareAttacked pos sq by_ = true <->
   exists pt p,
     In pt all_piece_types /\
     Z.testbit (getPieceBitboard pos pt by_) p = true /\
     Z.testbit (attacksFrom by_ pt p (getOccupiedBitboard pos)) sq = true).
Proof.
  intros Hwf Hsq.
  set (occ := getOccupiedBitboard pos).
  assert (Hr : forall pt, 0 <= getPieceBitboard pos pt by_ < two64)
    by (intros pt; apply wf_bitboards_get; exact Hwf).
  rewrite isSquareAttacked_checks. fold occ.
  rewrite !land_pieces_iff by (try apply in_range_lor; apply Hr).
  unfold Attacks.knightAttacksBB, Attacks.kingAttacksBB,
    Attacks.bishopAttacksBB, Attacks.rookAttacksBB.
  change Attacks.knightAttacks with Gen.knightAttacks.
  change Attacks.kingAttacks with Gen.kingAttacks.
  split.
  - intros [(p & Hp & Hb & Ha)|[(p & Hp & Hb & Ha)|[(p & Hp & Hb & Ha)|
            [(p & Hp & Hb & Ha)|(p & Hp & Hb & Ha)]]]].
    + exists PAWN, p. split; [simpl; auto|]. split; [exact Hb|].
      cbn [attacksFrom]. rewrite <- (pawn_attack_sym by_ sq p Hsq Hp). exact Ha.
    + exists KNIGHT, p. split; [simpl; auto|]. split; [exact Hb|].
      cbn [attacksFrom Gen.getAttacks].
      rewrite <- (knight_attack_sym sq p Hsq Hp). exact Ha.
    + rewrite Z.lor_spec in Hb. apply orb_prop in Hb as [Hb|Hb].
      * exists BISHOP, p. split; [simpl; auto|]. split; [exact Hb|].
        cbn [attacksFrom Gen.getAttacks]. unfold Gen.getBishopAttacks.
        rewrite <- (bishop_attack_sym sq p occ Hsq Hp). exact Ha.
      * exists QUEEN, p. split; [simpl; auto 6|]. split; [exact Hb|].
        cbn [attacksFrom Gen.getAttacks].
        unfold Gen.getBishopAttacks, Gen.getRookAttacks.
        rewrite Z.lor_spec, <- (bishop_attack_sym sq p occ Hsq Hp), Ha.
        reflexivity.
    + rewrite Z.lor_spec in Hb. apply orb_prop in Hb as [Hb|Hb].
      * exists ROOK, p. split; [simpl; auto|]. split; [exact Hb|].
        cbn [attacksFrom Gen.getAttacks]. unfold Gen.getRookAttacks.
        rewrite <- (rook_attack_sym sq p occ Hsq Hp). exact Ha.
      * exists QUEEN, p. split; [simpl; auto 6|]. split; [exact Hb|].
        cbn [attacksFrom Gen.getAttacks].
        unfold Gen.getBishopAttacks, Gen.getRookAttacks.
        rewrite Z.lor_spec, <- (rook_attack_sym sq p occ Hsq Hp), Ha.
        apply orb_true_r.
    + exists KING, p. split; [simpl; auto 7|]. split; [exact Hb|].
      cbn [attacksFrom]. rewrite <- (king_attack_sym sq p Hsq Hp). exact Ha.
  - intros (pt & p & Hin & Hb & Ha).
    pose proof (testbit_square _ p (Hr pt) Hb) as Hp.
    cbn [all_piece_types In] in Hin.
    destruct Hin as [<-|[<-|[<-|[<-|[<-|[<-|[]]]]]]];
      cbn [attacksFrom Gen.getAttacks] in Ha;
      unfold Gen.getBishopAttacks, Gen.getRookAttacks in Ha.
    + left. exists p. split; [exact Hp|]. split; [exact Hb|].
      rewrite (pawn_attack_sym by_ sq p Hsq Hp). exact Ha.
    + right; left. exists p. split; [exact Hp|]. split; [exact Hb|].
      rewrite (knight_attack_sym sq p Hsq Hp). exact Ha.
    + right; right; left. exists p. split; [exact Hp|].
      split; [rewrite Z.lor_spec, Hb; reflexivity|].
      rewrite (bishop_attack_sym sq p occ Hsq Hp). exact Ha.
    + right; right; right; left. exists p. split; [exact Hp|].
      split; [rewrite Z.lor_spec, Hb; reflexivity|].
      rewrite (rook_attack_sym sq p occ Hsq Hp). exact Ha.
    + rewrite Z.lor_spec in Ha. apply orb_prop in Ha as [Ha|Ha].
      * right; right; left. exists p. split; [exact Hp|].
        split; [rewrite Z.lor_spec, Hb; apply orb_true_r|].
        rewrite (bishop_attack_sym sq p occ Hsq Hp). exact Ha.
      * right; right; right; left. exists p. split; [exact Hp|].
        split; [rewrite Z.lor_spec, Hb; apply orb_true_r|].
        rewrite (rook_attack_sym sq p occ Hsq Hp). exact Ha.
    + right; right; right; right. exists p. split; [exact Hp|].
      split; [exact Hb|].
      rewrite (king_attack_sym sq p Hsq Hp). exact Ha.
Qed.

Lemma attack_sample_wf : wf_bitboards attack_sample.
Proof. vm_compute. reflexivity. Qed.

Lemma isSquareAttacked_iff_witness :
  isSquareAttacked attack_sample E8 WHITE = true <->
  exists pt p,
    In pt all_piece_types /\
    Z.testbit (getPieceBitboard attack_sample pt WHITE) p = true /\
    Z.testbit (attacksFrom WHITE pt p (getOccupiedBitboard attack_sample)) E8
    = true.
Proof.
  apply (isSquareAttacked_iff attack_sample E8 WHITE).
  - exact attack_sample_wf.
  - vm_compute. split; discriminate || reflexivity.
Defined.

(** ** What the generator emits *)

Lemma getColorBitboard_bit (pos : Position) (c : Color) (s : Z) :
  Z.testbit (getColorBitboard pos c) s = true <->
  exists pt, In pt all_piece_types /\
             Z.testbit (getPieceBitboard pos pt c) s = true.
Proof.
  unfold getColorBitboard, all_piece_types. cbn [fold_left].
  rewrite !Z.lor_spec, Z.bits_0, !orb_true_iff. split.
  - intros [[[[[[H|H]|H]|H]|H]|H]|H]; [discriminate H|..];
      eexists; (split; [|exact H]); simpl; auto 7.
  - intros (pt & Hin & H). cbn [In] in Hin.
    destruct Hin as [<-|[<-|[<-|[<-|[<-|[<-|[]]]]]]]; auto 7.
Qed.

Lemma getColorBitboard_range (pos : Position) (c : Color) :
  wf_bitboards pos -> 0 <= getColorBitboard pos c < two64.
Proof.
  intros Hwf. unfold getColorBitboard, all_piece_types. cbn [fold_left].
  repeat apply in_range_lor; try (apply wf_bitboards_get; exact Hwf).
  vm_compute. split; discriminate || reflexivity.
Qed.

Lemma generator_ready_Ready (pos : Position) :
  generator_ready pos = true -> Ready pos.
Proof.
  unfold generator_ready. cbv zeta. intros H.
  repeat (apply andb_prop in H as [H ?]).
  rename H into Hwf.
  match goal with H : (Z.land (getColorBitboard _ _) _ =? 0) = true |- _ =>
    apply Z.eqb_eq in H; rename H into Hapart end.
  match goal with H : nonzero _ = true |- _ =>
    apply negb_true_iff, Z.eqb_neq in H; rename H into Hking end.
  match goal with H : (Z.land (getPieceBitboard _ _ _) _ =? 0) = true |- _ =>
    apply Z.eqb_eq in H; rename H into Hpawns end.
  constructor.
  - exact Hwf.
  - intros s Hs. unfold ownSquare.
    rewrite Z.land_comm in Hapart. exact (land_zero_bits _ _ s Hapart Hs).
  - exact Hking.
  - intros f Hf.
    pose proof (testbit_square _ f (wf_bitboards_get pos PAWN _ Hwf) Hf) as Hr.
    pose proof (land_zero_bits _ _ f Hpawns Hf) as Hl.
    destruct (sideToMove pos) eqn:Es.
    + destruct (Z.ltb_spec f 56) as [|Hge]; [assumption|exfalso].
      change 0xFF00000000000000 with (Z.shiftl 255 56) in Hl.
      cbn [last_rank] in Hl.
      change 0xFF00000000000000 with (Z.shiftl 255 56) in Hl.
      rewrite Z.shiftl_spec in Hl by lia.
      change 255 with (Z.ones 8) in Hl.
      rewrite Z.ones_spec_low in Hl by lia. discriminate Hl.
    + destruct (Z.leb_spec 8 f) as [|Hlt]; [assumption|exfalso].
      cbn [last_rank] in Hl. change 255 with (Z.ones 8) in Hl.
      rewrite Z.ones_spec_low in Hl by lia. discriminate Hl.
  - intros Hc.
    match goal with H : negb _ || _ = true |- _ =>
      rewrite Hc in H; cbn [negb orb] in H; rename H into Hhome end.
    unfold ownSquare. apply getColorBitboard_bit.
    exists KING. split; [simpl; auto 7|exact Hhome].
  - intros Hep.
    match goal with H : (enPassantSquare pos =? NO_SQUARE) || _ = true |- _ =>
      rename H into He end.
    apply orb_prop in He as [He|He];
      [apply Z.eqb_eq in He; contradiction|].
    apply negb_true_iff in He. exact He.
Qed.

(** The conclusion, for a move built from two squares of the board. *)
Lemma sound_move (pos : Position) (f t : Square) (ty : MoveType)
    (pr : PromotionType) :
  0 <= f < 64 -> 0 <= t < 64 ->
  ownSquare pos f = true -> ownSquare pos t = false ->
  ownSquare pos (from (Move4 f t ty pr)) = true /\
  ownSquare pos (to (Move4 f t ty pr)) = false.
Proof.
  intros Hf Ht Hof Hot.
  destruct (Move4_fields f t ty pr Hf Ht) as (-> & -> & _). auto.
Qed.

Lemma sound_promotions (pos : Position) (f t : Square) :
  0 <= f < 64 -> 0 <= t < 64 ->
  ownSquare pos f = true -> ownSquare pos t = false ->
  Forall (fun m => ownSquare pos (from m) = true /\
                   ownSquare pos (to m) = false)
         (Gen.promotions f t).
Proof.
  intros Hf Ht Hof Hot. unfold Gen.promotions.
  repeat constructor; apply sound_move; assumption.
Qed.

Lemma own_piece_square (pos : Position) (pt : PieceType) (f : Z) :
  In pt all_piece_types ->
  Z.testbit (getPieceBitboard pos pt (sideToMove pos)) f = true ->
  ownSquare pos f = true.
Proof.
  intros Hin H. unfold ownSquare. apply getColorBitboard_bit.
  exists pt. auto.
Qed.

Lemma unoccupied_not_own (pos : Position) (s : Z) :
  Z.testbit (getOccupiedBitboard pos) s = false -> ownSquare pos s = false.
Proof.
  unfold ownSquare. rewrite <- (occupied_either_way pos (sideToMove pos)).
  rewrite Z.lor_spec. intros H. apply orb_false_elim in H as [H _]. exact H.
Qed.

Lemma rank_2_bits (us : Color) (f : Z) :
  0 <= f < 64 ->
  nonzero (Z.land (squareBB f)
             (match us with WHITE => 0xFF00 | BLACK => 0x00FF000000000000 end))
  = true ->
  match us with WHITE => f < 16 | BLACK => 48 <= f end.
Proof.
  intros Hf H. destruct us.
  - rewrite Z.land_comm in H. apply land_squareBB_nonzero in H as [Hbit _].
    destruct (Z.ltb_spec f 16) as [|Hge]; [assumption|].
    rewrite (testbit_above 16 0xFF00 f) in Hbit
      by (try lia; vm_compute; split; discriminate || reflexivity).
    discriminate Hbit.
  - apply on_black_rank_7. exact H.
Qed.

Lemma pawnMovesFrom_sound (pos : Position) (f : Square) :
  Ready pos ->
  Z.testbit (getPieceBitboard pos PAWN (sideToMove pos)) f = true ->
  Forall (fun m => ownSquare pos (from m) = true /\
                   ownSquare pos (to m) = false)
         (Gen.pawnMovesFrom pos (sideToMove pos)
            (getColorBitboard pos (opp (sideToMove pos)))
            (getOccupiedBitboard pos) f).
Proof.
  intros R Hpawn.
  pose proof (ready_wf pos R) as Hwf.
  pose proof (testbit_square _ f (wf_bitboards_get pos PAWN _ Hwf) Hpawn) as Hf.
  pose proof (own_piece_square pos PAWN f ltac:(simpl; auto) Hpawn) as Hown.
  pose proof (ready_pawns pos R f Hpawn) as Hlast.
  destruct (attack_tables_at f Hf) as [Hw [Hb _]].
  assert (Hatt : forall t, Z.testbit (Gen.pawnAttacks (sideToMove pos) f) t = true ->
                           0 <= t < 64).
  { intros t Ht. destruct (sideToMove pos);
      [apply (attack_table_bits _ _ _ Hw) in Ht
      |apply (attack_table_bits _ _ _ Hb) in Ht]; tauto. }
  unfold Gen.pawnMovesFrom. cbv zeta.
  set (us := sideToMove pos) in *.
  set (occ := getOccupiedBitboard pos) in *.
  set (push := match us with WHITE => 8 | BLACK => -8 end).
  assert (Hpush : 0 <= f + push < 64) by (unfold push; destruct us; lia).
  apply Forall_app. split; [|apply Forall_app; split].
  - destruct (negb (nonzero (Z.land occ (squareBB (f + push))))) eqn:Efree;
      [|constructor].
    assert (Hto : ownSquare pos (f + push) = false).
    { apply unoccupied_not_own. fold occ.
      rewrite <- (occupied_test occ _ Hpush). unfold nonzero in Efree.
      rewrite negb_involutive in Efree.
      apply Z.eqb_eq in Efree. rewrite Efree. reflexivity. }
    destruct (nonzero (Z.land (squareBB f) _)).
    + apply sound_promotions; assumption.
    + constructor; [apply (sound_move pos f (f + push)); assumption|].
      destruct (nonzero (Z.land (squareBB f) _)) eqn:Hrank;
        cbn [andb]; [|constructor].
      set (dbl := match us with WHITE => 16 | BLACK => -16 end) in *.
      destruct (negb (nonzero (Z.land occ (squareBB (f + dbl))))) eqn:Efree2;
        [|constructor].
      constructor; [|constructor].
      apply rank_2_bits in Hrank; [|exact Hf].
      assert (Hdbl : 0 <= f + dbl < 64) by (unfold dbl; destruct us; lia).
      apply (sound_move pos f (f + dbl)); try assumption.
      apply unoccupied_not_own. fold occ.
      rewrite <- (occupied_test occ _ Hdbl). unfold nonzero in Efree2.
      rewrite negb_involutive in Efree2.
      apply Z.eqb_eq in Efree2. rewrite Efree2. reflexivity.
  - apply Forall_flat_map. apply Forall_forall. intros t Ht.
    apply squares_of_spec in Ht as [_ Ht].
    rewrite Z.land_spec in Ht. apply andb_prop in Ht as [Ha Hthem].
    pose proof (Hatt t Ha) as Hr.
    pose proof (ready_apart pos R t Hthem) as Hnot.
    destruct (nonzero _).
    + apply sound_promotions; assumption.
    + constructor; [|constructor]. apply (sound_move pos f t); assumption.
  - destruct (negb (enPassantSquare pos =? NO_SQUARE)) eqn:Eep;
      cbn [andb]; [|constructor].
    destruct (nonzero _) eqn:Hnz; [|constructor].
    apply land_squareBB_nonzero in Hnz as [_ Hr].
    constructor; [|constructor].
    apply (sound_move pos f (enPassantSquare pos)); try assumption.
    apply (ready_en_passant pos R).
    apply negb_true_iff, Z.eqb_neq in Eep. exact Eep.
Qed.

Lemma pieceMoves_sound (PT : PieceType) (pos : Position) :
  Ready pos -> In PT all_piece_types ->
  Forall (fun m => ownSquare pos (from m) = true /\
                   ownSquare pos (to m) = false)
         (Gen.generatePieceMoves PT pos (sideToMove pos)
            (getColorBitboard pos (sideToMove pos))
            (getOccupiedBitboard pos)).
Proof.
  intros R HPT. pose proof (ready_wf pos R) as Hwf.
  unfold Gen.generatePieceMoves.
  apply Forall_flat_map. apply Forall_forall. intros f Hf.
  apply squares_of_spec in Hf as [_ Hbit].
  pose proof (testbit_square _ f (wf_bitboards_get pos PT _ Hwf) Hbit) as Hr.
  cbv zeta. apply Forall_map. apply Forall_forall. intros t Ht.
  apply squares_of_spec in Ht as [_ Ht].
  rewrite Z.land_spec in Ht. apply andb_prop in Ht as [Ha Hn].
  apply getAttacks_bits in Ha as [Htr _]; [|exact Hr].
  rewrite not64_testbit in Hn.
  apply andb_prop in Hn as [Hn _]. apply andb_prop in Hn as [Hn _].
  apply negb_true_iff in Hn.
  apply (sound_move pos f t); try assumption.
  exact (own_piece_square pos PT f HPT Hbit).
Qed.

Lemma lsb_testbit (b : Bitboard) :
  0 <= b -> b <> 0 -> Z.testbit b (lsb b) = true.
Proof.
  intros Hb Hnz. destruct b as [|p|p]; [contradiction| |lia].
  apply pos_ctz_testbit.
Qed.

Lemma kingMoves_sound (pos : Position) :
  Ready pos ->
  Forall (fun m => ownSquare pos (from m) = true /\
                   ownSquare pos (to m) = false)
         (Gen.generateKingMoves pos (sideToMove pos)
            (getColorBitboard pos (sideToMove pos))
            (getOccupiedBitboard pos)).
Proof.
  intros R. pose proof (ready_wf pos R) as Hwf.
  unfold Gen.generateKingMoves. cbv zeta.
  pose proof (wf_bitboards_get pos KING (sideToMove pos) Hwf) as Hkr.
  pose proof (lsb_range _ Hkr) as Hk.
  pose proof (lsb_testbit _ (proj1 Hkr) (ready_king pos R)) as Hbit.
  destruct (attack_tables_at _ Hk) as [_ [_ [_ Hking]]].
  apply Forall_map. apply Forall_forall. intros t Ht.
  apply squares_of_spec in Ht as [_ Ht].
  rewrite Z.land_spec in Ht. apply andb_prop in Ht as [Ha Hn].
  apply (attack_table_bits _ _ _ Hking) in Ha as [Htr _].
  rewrite not64_testbit in Hn.
  apply andb_prop in Hn as [Hn _]. apply andb_prop in Hn as [Hn _].
  apply negb_true_iff in Hn.
  apply (sound_move pos _ t); try assumption.
  exact (own_piece_square pos KING _ ltac:(simpl; auto 7) Hbit).
Qed.

Lemma empty_squares_bit (occ : Bitboard) (mask : Z) (s : Square) :
  negb (nonzero (Z.land occ mask)) = true ->
  Z.testbit mask s = true -> Z.testbit occ s = false.
Proof.
  unfold nonzero. rewrite negb_involutive, Z.eqb_eq. intros E Hm.
  rewrite Z.land_comm in E. exact (land_zero_bits _ _ s E Hm).
Qed.

Lemma castlingMoves_sound (pos : Position) :
  Ready pos ->
  Forall (fun m => ownSquare pos (from m) = true /\
                   ownSquare pos (to m) = false)
         (Gen.generateCastlingMoves pos (sideToMove pos)
            (getOccupiedBitboard pos)).
Proof.
  intros R. pose proof (ready_castling pos R) as Hhome.
  apply Forall_forall. intros m Hm.
  unfold Gen.generateCastlingMoves in Hm.
  destruct (isInCheck pos); [contradiction|].
  unfold holdsCastlingRight, kingHome in Hhome.
  destruct (sideToMove pos); apply In_two_optional in Hm;
    destruct Hm as [[Hc ->]|[Hc ->]];
    repeat (apply andb_prop in Hc as [Hc ?]);
    (split;
     [apply Hhome; rewrite Hc, ?orb_true_r; reflexivity
     |apply unoccupied_not_own;
      match goal with
      | H : negb (nonzero (Z.land _ _)) = true |- _ =>
          apply (empty_squares_bit _ _ _ H)
      end; reflexivity]).
Qed.

(** X20.  What the generator emits on a position that meets the
    conditions of [generator_ready]: every pseudo-legal move starts on
    a square of the side to move and ends on a square that is not one
    of its own. *)
Theorem generated_moves_sound (pos : Position) (m : Move) :
  generator_ready pos = true ->
  In m (generatePseudoLegalMoves pos) ->
  ownSquare pos (from m) = true /\ ownSquare pos (to m) = false.
Proof.
  intros Hready. apply generator_ready_Ready in Hready.
  unfold generatePseudoLegalMoves, Gen.generateAllMoves. cbv zeta.
  rewrite occupied_either_way, !in_app_iff.
  intros [H|[H|[H|[H|[H|[H|H]]]]]]; revert m H; apply Forall_forall.
  - unfold Gen.generatePawnMoves. apply Forall_flat_map.
    apply Forall_forall. intros f Hf.
    apply squares_of_spec in Hf as [_ Hf].
    apply pawnMovesFrom_sound; assumption.
  - apply pieceMoves_sound; [exact Hready|simpl; auto].
  - apply pieceMoves_sound; [exact Hready|simpl; auto].
  - apply pieceMoves_sound; [exact Hready|simpl; auto].
  - apply pieceMoves_sound; [exact Hready|simpl; auto 6].
  - apply kingMoves_sound. exact Hready.
  - apply castlingMoves_sound. exact Hready.
Qed.

Lemma startpos_ready : generator_ready startpos = true.
Proof. vm_compute. reflexivity. Qed.

Lemma startpos_knight_move : In (Move2 6 21) (generatePseudoLegalMoves startpos).
Proof.
  assert (H : existsb (Move_eqb (Move2 6 21)) (generatePseudoLegalMoves startpos)
              = true) by (vm_compute; reflexivity).
  apply existsb_exists in H as (x & Hin & Hx).
  unfold Move_eqb in Hx. apply Z.eqb_eq in Hx.
  destruct x as [d]. cbn [data] in Hx. subst d. exact Hin.
Qed.

Lemma generated_moves_sound_witness :
  ownSquare startpos (from (Move2 6 21)) = true /\
  ownSquare startpos (to (Move2 6 21)) = false.
Proof.
  apply (generated_moves_sound startpos (Move2 6 21)).
  - exact startpos_ready.
  - exact startpos_knight_move.
Defined.

Lemma not64_nonneg (b : Z) : 0 <= not64 b.
Proof.
  unfold not64, wrap64. apply Z.mod_pos_bound. reflexivity.
Qed.

(** X21.  The generator misses no move of a knight, bishop, rook or
    queen: on 64-bit bitboards, if such a piece of the side to move
    stands on [f], its attack set on the position's occupancy holds
    [t], and [t] is not one of the mover's own squares, then the
    normal move from [f] to [t] is among the pseudo-legal moves. *)
Theorem piece_moves_complete (pos : Position) (PT : PieceType)
    (f t : Square) :
  wf_bitboards pos ->
  In PT [KNIGHT; BISHOP; ROOK; QUEEN] ->
  Z.testbit (getPieceBitboard pos PT (sideToMove pos)) f = true ->
  Z.testbit (Gen.getAttacks PT f (getOccupiedBitboard pos)) t = true ->
  ownSquare pos t = false ->
  In (Move2 f t) (generatePseudoLegalMoves pos).
Proof.
  intros Hwf HPT Hf Ht Hown.
  pose proof (wf_bitboards_get pos PT (sideToMove pos) Hwf) as Hr.
  pose proof (testbit_square _ f Hr Hf) as Hfr.
  pose proof (getAttacks_bits PT f _ t Hfr Ht) as [Htr _].
  assert (Hin : In (Move2 f t)
                   (Gen.generatePieceMoves PT pos (sideToMove pos)
                      (getColorBitboard pos (sideToMove pos))
                      (getOccupiedBitboard pos))).
  { unfold Gen.generatePieceMoves. apply in_flat_map.
    exists f. split; [apply squares_of_iff; [lia|exact Hf]|].
    cbv zeta. apply in_map. apply squares_of_iff.
    - apply Z.land_nonneg. right. apply not64_nonneg.
    - rewrite Z.land_spec, Ht, not64_testbit.
      unfold ownSquare in Hown. rewrite Hown.
      destruct (Z.leb_spec 0 t); [|lia]. destruct (Z.ltb_spec t 64); [|lia].
      reflexivity. }
  unfold generatePseudoLegalMoves, Gen.generateAllMoves. cbv zeta.
  rewrite occupied_either_way, !in_app_iff.
  cbn [In] in HPT. destruct HPT as [<-|[<-|[<-|[<-|[]]]]]; auto 7.
Qed.

Lemma piece_moves_complete_witness :
  In (Move2 6 21) (generatePseudoLegalMoves startpos).
Proof.
  apply (piece_moves_complete startpos KNIGHT 6 21).
  - exact startpos_wf.
  - simpl. auto.
  - vm_compute. reflexivity.
  - vm_compute. reflexivity.
  - vm_compute. reflexivity.
Defined.

(** ** The search *)

(** X22.  With at least one legal move and a depth of at least 1,
    [findBestMove] returns one of the moves of [generateLegalMoves],
    for every evaluator and every conforming [std::sort]. *)
Theorem findBestMove_is_legal
    (evaluate : Position -> Z)
    (std_sort : (Move -> Move -> bool) -> list Move -> list Move)
    (pos : Position) (depth : nat) :
  sort_contract std_sort ->
  (1 <= depth)%nat ->
  generateLegalMoves pos <> [] ->
  In (findBestMove evaluate std_sort pos depth) (generateLegalMoves pos).
Proof.
  intros Hsort Hd Hne. destruct depth as [|d]; [lia|].
  unfold findBestMove. cbn [search].
  destruct (generateLegalMoves pos) as [|m0 rest] eqn:Hl; [contradiction|].
  destruct (Hsort (captureFirst pos) (m0 :: rest)
              (captureFirst_strict_weak_order pos)) as [Hperm _].
  destruct (search_loop_move (search evaluate std_sort d) pos
              (std_sort (captureFirst pos) (m0 :: rest))
              (- INT_MAX) INT_MAX (mkSearchResult m0 (- INT_MAX)))
    as [H|H].
  - rewrite H. left. reflexivity.
  - exact (Permutation_in _ (Permutation_sym Hperm) H).
Qed.

Lemma startpos_has_moves : generateLegalMoves startpos <> [].
Proof. vm_compute. discriminate. Qed.

Lemma findBestMove_is_legal_witness :
  In (findBestMove material_eval (@insertion_sort Move) startpos 2)
     (generateLegalMoves startpos).
Proof.
  apply (findBestMove_is_legal material_eval (@insertion_sort Move) startpos 2).
  - exact insertion_sort_contract.
  - apply le_S, le_n.
  - exact startpos_has_moves.
Defined.

Section AlphaBeta.

Variable evaluate : Position -> Z.
Variable std_sort : (Move -> Move -> bool) -> list Move -> list Move.
Hypothesis std_sort_ok : sort_contract std_sort.
Hypothesis evaluate_bounded : forall p, - INT_MAX < evaluate p < INT_MAX.

Lemma maxOver_ge (value : Move -> Z) (l : list Move) :
  forall init, init <= maxOver value l init.
Proof.
  induction l as [|m l IH]; intros init; unfold maxOver in *; cbn [fold_left].
  - lia.
  - specialize (IH (Z.max init (value m))). lia.
Qed.

Lemma maxOver_max (value : Move -> Z) (l : list Move) :
  forall a b, maxOver value l (Z.max a b) = Z.max a (maxOver value l b).
Proof.
  induction l as [|m l IH]; intros a b; unfold maxOver in *; cbn [fold_left].
  - reflexivity.
  - rewrite <- IH. f_equal. lia.
Qed.

Lemma maxOver_perm (value : Move -> Z) (l l' : list Move) :
  Permutation l l' -> forall init, maxOver value l init = maxOver value l' init.
Proof.
  induction 1 as [|x l l' _ IH|x y l|l l' l'' _ IH1 _ IH2]; intros init;
    unfold maxOver in *; cbn [fold_left].
  - reflexivity.
  - apply IH.
  - f_equal. lia.
  - rewrite IH1. apply IH2.
Qed.

Lemma maxOver_bounds (value : Move -> Z) (lo hi : Z) (l : list Move) :
  (forall m, In m l -> lo < value m < hi) ->
  forall init, lo < init < hi -> lo < maxOver value l init < hi.
Proof.
  induction l as [|m l IH]; intros Hv init Hi; unfold maxOver in *;
    cbn [fold_left].
  - exact Hi.
  - apply IH.
    + intros x Hx. apply Hv. right. exact Hx.
    + specialize (Hv m (or_introl eq_refl)). lia.
Qed.

Lemma negamax_bounded (depth : nat) :
  forall pos,
    Z.of_nat depth <= INT_MAX ->
    - INT_MAX < negamax evaluate depth pos < INT_MAX.
Proof.
  induction depth as [|d IH]; intros pos Hd; cbn [negamax].
  - apply evaluate_bounded.
  - assert (Hd' : Z.of_nat d <= INT_MAX) by lia.
    cbv zeta.
    destruct (generateLegalMoves pos) as [|m0 rest].
    + destruct (isInCheck pos); unfold INT_MAX in *; lia.
    + apply (maxOver_bounds (fun m => - negamax evaluate d (makeMove pos m))).
      * intros m _. specialize (IH (makeMove pos m) Hd'). lia.
      * specialize (IH (makeMove pos m0) Hd'). lia.
Qed.

Lemma search_loop_informs (d : nat) (pos : Position) :
  (forall p a b,
     - INT_MAX <= a -> a < b -> b <= INT_MAX ->
     informs a b (score (search evaluate std_sort d p a b))
             (negamax evaluate d p)) ->
  forall (l : list Move) (alpha0 beta a : Z) (best : SearchResult) (M : Z),
    - INT_MAX <= alpha0 -> a < beta -> beta <= INT_MAX ->
    a = Z.max alpha0 (score best) ->
    M <= score best ->
    (alpha0 < score best -> score best <= M) ->
    informs alpha0 beta
      (score (search_loop (search evaluate std_sort d) pos l a beta best))
      (maxOver (fun m => - negamax evaluate d (makeMove pos m)) l M).
Proof.
  intros Hrec. induction l as [|m l IH];
    intros alpha0 beta a best M Hlo Hab Hhi Ha HM1 HM2.
  - cbn [search_loop]. unfold maxOver, informs. cbn [fold_left]. lia.
  - cbn [search_loop]. cbv zeta.
    set (child := makeMove pos m).
    assert (Hc : informs (- beta) (- a)
                   (score (search evaluate std_sort d child (- beta) (- a)))
                   (negamax evaluate d child))
      by (apply Hrec; lia).
    set (gc := score (search evaluate std_sort d child (- beta) (- a))) in *.
    set (vc := negamax evaluate d child) in *.
    set (s := - gc).
    assert (Hbest : score (if s >? score best then mkSearchResult m s else best)
                    = Z.max (score best) s).
    { destruct (Z.gtb_spec s (score best)); cbn [score]; lia. }
    change (maxOver (fun m0 => - negamax evaluate d (makeMove pos m0)) (m :: l) M)
      with (maxOver (fun m0 => - negamax evaluate d (makeMove pos m0)) l
              (Z.max M (- vc))).
    unfold informs in Hc.
    destruct (Z.geb_spec (Z.max a s) beta) as [Hcut|Hgo].
    + rewrite Hbest.
      pose proof (maxOver_ge (fun m0 => - negamax evaluate d (makeMove pos m0))
                    l (Z.max M (- vc))) as Hge.
      unfold informs. lia.
    + apply IH; try assumption; try lia; rewrite Hbest; lia.
Qed.

Lemma search_informs (depth : nat) :
  Z.of_nat depth <= INT_MAX ->
  forall pos alpha beta,
    - INT_MAX <= alpha -> alpha < beta -> beta <= INT_MAX ->
    informs alpha beta (score (search evaluate std_sort depth pos alpha beta))
            (negamax evaluate depth pos).
Proof.
  induction depth as [|d IH]; intros Hd pos alpha beta Hlo Hab Hhi.
  - cbn [search negamax score]. unfold informs. lia.
  - assert (Hd' : Z.of_nat d <= INT_MAX) by lia.
    specialize (IH Hd').
    cbn [search negamax]. cbv zeta.
    destruct (generateLegalMoves pos) as [|m0 rest] eqn:Hl.
    + destruct (isInCheck pos); cbn [score]; unfold informs; lia.
    + destruct (std_sort_ok (captureFirst pos) (m0 :: rest)
                  (captureFirst_strict_weak_order pos)) as [Hperm _].
      set (value := fun m => - negamax evaluate d (makeMove pos m)).
      pose proof (search_loop_informs d pos IH
                    (std_sort (captureFirst pos) (m0 :: rest))
                    alpha beta alpha (mkSearchResult m0 (- INT_MAX))
                    (- INT_MAX) Hlo Hab Hhi) as H.
      cbn [score] in H.
      specialize (H ltac:(lia) ltac:(lia) ltac:(lia)).
      fold value in H.
      rewrite <- (maxOver_perm value _ _ Hperm) in H.
      assert (E : maxOver value (m0 :: rest) (- INT_MAX) =
                  fold_left (fun best m => Z.max best (value m)) rest (value m0)).
      { unfold maxOver. cbn [fold_left]. f_equal.
        pose proof (negamax_bounded d (makeMove pos m0) Hd'). unfold value. lia. }
      rewrite E in H. exact H.
Qed.

End AlphaBeta.

(** X23.  Pruning and move ordering do not change the score.  For an
    evaluator whose values lie strictly between [-INT_MAX] and
    [INT_MAX], every conforming [std::sort] and every depth, the score
    found by [search] on the full window is the plain negamax value
    of the position at that depth; on a narrower window the score is
    that value when it falls inside the window, and a bound of it
    otherwise. *)
Theorem search_score_is_negamax
    (evaluate : Position -> Z)
    (std_sort : (Move -> Move -> bool) -> list Move -> list Move)
    (depth : nat) (pos : Position) :
  sort_contract std_sort ->
  (forall p, - INT_MAX < evaluate p < INT_MAX) ->
  Z.of_nat depth <= INT_MAX ->
  score (search evaluate std_sort depth pos (- INT_MAX) INT_MAX) =
  negamax evaluate depth pos /\
  forall alpha beta,
    - INT_MAX <= alpha -> alpha < beta -> beta <= INT_MAX ->
    informs alpha beta
      (score (search evaluate std_sort depth pos alpha beta))
      (negamax evaluate depth pos).
Proof.
  intros Hsort Hev Hd. split.
  - pose proof (search_informs evaluate std_sort Hsort Hev depth Hd pos
                  (- INT_MAX) INT_MAX) as H.
    pose proof (negamax_bounded evaluate Hev depth pos Hd) as Hb.
    unfold informs, INT_MAX in *.
    destruct H as (H1 & H2 & H3); lia.
  - apply search_informs; assumption.
Qed.

Lemma bounded_material_eval_range (p : Position) :
  - INT_MAX < bounded_material_eval p < INT_MAX.
Proof. unfold bounded_material_eval, INT_MAX. lia. Qed.

Lemma search_score_is_negamax_witness :
  score (search bounded_material_eval (@insertion_sort Move) 2 startpos
           (- INT_MAX) INT_MAX) =
  negamax bounded_material_eval 2 startpos /\
  forall alpha beta,
    - INT_MAX <= alpha -> alpha < beta -> beta <= INT_MAX ->
    informs alpha beta
      (score (search bounded_material_eval (@insertion_sort Move) 2 startpos
                alpha beta))
      (negamax bounded_material_eval 2 startpos).
Proof.
  apply (search_score_is_negamax bounded_material_eval (@insertion_sort Move)
           2 startpos).
  - exact insertion_sort_contract.
  - exact bounded_material_eval_range.
  - vm_compute. discriminate.
Defined.

(** ** PGN text *)

Lemma strip_step_cases (b p : Z) (res : list ascii) (c : ascii) :
  (isBracket c = true /\
   exists b' p', strip_step (b, p, res) c = (b', p', res)) \/
  (isBracket c = false /\
   strip_step (b, p, res) c =
   (b, p, if (b =? 0) && (p =? 0) then res ++ [c] else res)).
Proof.
  unfold isBracket, strip_step.
  destruct (Ascii.eqb c "{"); [left; split; [reflexivity|eauto]|].
  destruct (Ascii.eqb c "}"); [left; split; [reflexivity|eauto]|].
  destruct (Ascii.eqb c "("); [left; split; [reflexivity|eauto]|].
  destruct (Ascii.eqb c ")"); [left; split; [reflexivity|eauto]|].
  right. split; [reflexivity|].
  destruct ((b =? 0) && (p =? 0)); reflexivity.
Qed.

Ltac strip_cases b p res c :=
  let H := fresh "H" in
  pose proof (strip_step_cases b p res c) as H; unfold chars in *;
  destruct H as [(_ & ? & ? & ->)|(? & ->)].

Lemma strip_fold_no_bracket (text : list ascii) :
  forall b p res,
    Forall (fun c => isBracket c = false) res ->
    Forall (fun c => isBracket c = false)
           (snd (fold_left strip_step text (b, p, res))).
Proof.
  induction text as [|c text IH]; intros b p res Hres; [exact Hres|].
  cbn [fold_left].
  strip_cases b p res c.
  - apply IH. exact Hres.
  - apply IH. destruct ((b =? 0) && (p =? 0)); [|exact Hres].
    apply Forall_app. split; [exact Hres|]. constructor; [assumption|constructor].
Qed.

Lemma strip_fold_plain (text : list ascii) :
  Forall (fun c => isBracket c = false) text ->
  forall res,
    fold_left strip_step text (0, 0, res) = (0, 0, res ++ text).
Proof.
  induction text as [|c text IH]; intros Hplain res.
  - rewrite app_nil_r. reflexivity.
  - cbn [fold_left].
    pose proof (Forall_inv Hplain) as Hc. cbv beta in Hc.
    pose proof (strip_step_cases 0 0 res c) as H. unfold chars in *.
    destruct H as [(Hb & _)|(_ & ->)]; [congruence|].
    cbn [Z.eqb andb]. rewrite (IH (Forall_inv_tail Hplain)).
    rewrite <- app_assoc. reflexivity.
Qed.

Lemma strip_fold_sub (text : list ascii) :
  forall b p res,
    exists kept,
      snd (fold_left strip_step text (b, p, res)) = res ++ kept /\
      (List.length kept <= List.length text)%nat.
Proof.
  induction text as [|c text IH]; intros b p res.
  - exists []. rewrite app_nil_r. split; [reflexivity|apply le_n].
  - cbn [fold_left].
    strip_cases b p res c.
    + match goal with
      | |- context [fold_left strip_step text (?b', ?p', res)] =>
          destruct (IH b' p' res) as (kept & E & Hl)
      end.
      exists kept. split; [exact E|]. cbn [List.length]. lia.
    + destruct ((b =? 0) && (p =? 0)).
      * destruct (IH b p (res ++ [c])) as (kept & E & Hl).
        exists (c :: kept). rewrite E, <- app_assoc.
        split; [reflexivity|]. cbn [List.length]. lia.
      * destruct (IH b p res) as (kept & E & Hl).
        exists kept. split; [exact E|]. cbn [List.length]. lia.
Qed.

(** X24.  [removeCommentsAndVariations] returns a text without braces
    and parentheses that is no longer than the input, and returns a
    text that has none of them unchanged. *)
Theorem removeCommentsAndVariations_plain (text : chars) :
  Forall (fun c => isBracket c = false) (removeCommentsAndVariations text) /\
  (List.length (removeCommentsAndVariations text) <= List.length text)%nat /\
  (Forall (fun c => isBracket c = false) text ->
   removeCommentsAndVariations text = text).
Proof.
  unfold removeCommentsAndVariations. split; [|split].
  - apply strip_fold_no_bracket. constructor.
  - destruct (strip_fold_sub text 0 0 []) as (kept & E & Hl).
    unfold chars in *. rewrite E. exact Hl.
  - intros Hplain. pose proof (strip_fold_plain text Hplain []) as E.
    unfold chars in *. rewrite E. reflexivity.
Qed.

(** A closing brace with no opening one before it takes the brace level
    below zero: the text after it is dropped, up to the next opening
    brace. *)
Example removeCommentsAndVariations_stray_brace :
  string_of_list_ascii
    (removeCommentsAndVariations (list_ascii_of_string "e4 } e5 Nf3 { Nc6"))
  = "e4  Nc6" /\
  string_of_list_ascii
    (removeCommentsAndVariations (list_ascii_of_string "e4 {good} e5 (d5) Nf3"))
  = "e4  e5  Nf3".
Proof. split; reflexivity. Qed.


Lemma find_char_bound (c : ascii) (l : chars) (n : nat) :
  find_char c l = Some n -> (n < List.length l)%nat.
Proof.
  revert n. induction l as [|d r IH]; intros n H; cbn [find_char] in H;
    [discriminate H|].
  destruct (Ascii.eqb d c).
  - injection H as <-. cbn [List.length]. lia.
  - destruct (find_char c r) as [k|]; [|discriminate H].
    injection H as <-. specialize (IH k eq_refl). cbn [List.length]. lia.
Qed.





Lemma san_resolve_legal (pos : Position) (to_ : Square) (str : chars)
    (isCapture isPromo : bool) (promotion : PromotionType) :
  isNull (san_resolve pos to_ str isCapture isPromo promotion) = false ->
  In (san_resolve pos to_ str isCapture isPromo promotion)
     (generateLegalMoves pos) /\
  to (san_resolve pos to_ str isCapture isPromo promotion) = to_.
Proof.
  unfold san_resolve.
  match goal with
  | |- context [match ?p with Some _ => _ | None => _ end] =>
      destruct p as [[pieceType str']|]
  end; [|intros H; discriminate H].
  set (cands := filter (san_candidate pos to_ pieceType isCapture isPromo promotion)
                       (generateLegalMoves pos)).
  assert (Hc : forall m, In m cands ->
                         In m (generateLegalMoves pos) /\ to m = to_).
  { intros m Hm. apply filter_In in Hm as [Hl Hs]. split; [exact Hl|].
    unfold san_candidate in Hs.
    destruct (Z.eqb_spec (to m) to_) as [E|_]; [exact E|discriminate Hs]. }
  assert (Hc' : forall l,
                  (forall m, In m l -> In m cands) ->
                  isNull (match l with [m] => m | _ => NULL_MOVE end) = false ->
                  In (match l with [m] => m | _ => NULL_MOVE end)
                     (generateLegalMoves pos) /\
                  to (match l with [m] => m | _ => NULL_MOVE end) = to_).
  { intros [|m [|m' l]] Hsub Hn; try discriminate Hn.
    apply Hc, Hsub. left. reflexivity. }
  destruct ((1 <? Z.of_nat (List.length cands)) &&
            negb (Nat.eqb (List.length str') 0)).
  - apply Hc'. intros m Hm. apply filter_In in Hm as [Hm _]. exact Hm.
  - apply Hc'. auto.
Qed.

Lemma isCastlingText_false (s : string) :
  isCastlingText s = false ->
  (String.eqb s "O-O" || String.eqb s "0-0") = false /\
  (String.eqb s "O-O-O" || String.eqb s "0-0-0") = false.
Proof.
  unfold isCastlingText. intros H.
  destruct (String.eqb s "O-O"), (String.eqb s "0-0"),
           (String.eqb s "O-O-O"), (String.eqb s "0-0-0");
    try discriminate H; split; reflexivity.
Qed.

Lemma parse_castling_text (pos : Position) (s : string) :
  isCastlingText s = true ->
  isCastling (parseAlgebraicMoveImpl pos s) = true /\
  from (parseAlgebraicMoveImpl pos s) = kingHome (sideToMove pos).
Proof.
  unfold isCastlingText, parseAlgebraicMoveImpl. intros H.
  destruct (String.eqb_spec s "O-O") as [E|N1];
    [subst s; destruct (sideToMove pos); split; reflexivity|].
  destruct (String.eqb_spec s "0-0") as [E|N2];
    [subst s; destruct (sideToMove pos); split; reflexivity|].
  destruct (String.eqb_spec s "O-O-O") as [E|N3];
    [subst s; destruct (sideToMove pos); split; reflexivity|].
  destruct (String.eqb_spec s "0-0-0") as [E|N4];
    [subst s; destruct (sideToMove pos); split; reflexivity|].
  discriminate H.
Qed.

Lemma parse_other_text (pos : Position) (s : string) :
  isCastlingText s = false ->
  isNull (parseAlgebraicMoveImpl pos s) = false ->
  In (parseAlgebraicMoveImpl pos s) (generateLegalMoves pos).
Proof.
  intros Hc. apply isCastlingText_false in Hc as [H1 H2].
  unfold parseAlgebraicMoveImpl. cbv zeta. rewrite H1, H2.
  destruct (Nat.eqb (List.length (list_ascii_of_string s)) 0);
    [intros H; discriminate H|].
  repeat match goal with
         | |- isNull (match ?x with Some _ => _ | None => _ end) = false -> _ =>
             destruct x; [|intros H; discriminate H]
         | |- isNull (if ?c then NULL_MOVE else _) = false -> _ =>
             destruct c; [intros H; discriminate H|]
         end.
  intros H. apply san_resolve_legal. exact H.
Qed.

Lemma parseAlgebraicMoveImpl_cases (pos : Position) (s : string) :
  isCastling (parseAlgebraicMoveImpl pos s) = true \/
  (isNull (parseAlgebraicMoveImpl pos s) = false ->
   In (parseAlgebraicMoveImpl pos s) (generateLegalMoves pos)).
Proof.
  destruct (isCastlingText s) eqn:E.
  - left. apply parse_castling_text. exact E.
  - right. apply parse_other_text. exact E.
Qed.

(** X26.  What [parseAlgebraicMoveImpl] can return besides the null
    move.  For the four castling texts it is a castling move from the
    home square of the king of the side to move, returned without
    consulting the generator.  For any other text it is one of the
    moves of [generateLegalMoves]. *)
Theorem parseAlgebraicMoveImpl_result (pos : Position) (s : string) :
  isNull (parseAlgebraicMoveImpl pos s) = false ->
  (isCastlingText s = true /\
   isCastling (parseAlgebraicMoveImpl pos s) = true /\
   from (parseAlgebraicMoveImpl pos s) = kingHome (sideToMove pos)) \/
  (isCastlingText s = false /\
   In (parseAlgebraicMoveImpl pos s) (generateLegalMoves pos)).
Proof.
  intros Hnull. destruct (isCastlingText s) eqn:E.
  - left. split; [reflexivity|]. apply parse_castling_text. exact E.
  - right. split; [reflexivity|]. apply parse_other_text; assumption.
Qed.

Lemma parseAlgebraicMoveImpl_result_witness :
  (isCastlingText "Nf3" = true /\
   isCastling (parseAlgebraicMoveImpl startpos "Nf3") = true /\
   from (parseAlgebraicMoveImpl startpos "Nf3") = kingHome (sideToMove startpos)) \/
  (isCastlingText "Nf3" = false /\
   In (parseAlgebraicMoveImpl startpos "Nf3") (generateLegalMoves startpos)).
Proof.
  apply (parseAlgebraicMoveImpl_result startpos "Nf3").
  vm_compute. reflexivity.
Defined.

Lemma interpretTokens_replays (tokens : list chars) :
  forall pos moves err,
    exists played,
      fst (interpretTokens tokens pos moves err) = moves ++ played /\
      Replays pos played /\
      Forall (fun m => isNull m = false) played /\
      (snd (interpretTokens tokens pos moves err) = err \/
       exists token,
         In token tokens /\
         snd (interpretTokens tokens pos moves err) =
         ("Invalid move: " ++ string_of_list_ascii token)%string).
Proof.
  induction tokens as [|token rest IH]; intros pos moves err;
    cbn [interpretTokens].
  - exists []. rewrite app_nil_r. cbn [fst snd].
    split; [reflexivity|]. split; [constructor|]. split; [constructor|].
    left. reflexivity.
  - destruct (skipToken token) eqn:Hskip.
    + destruct (IH pos moves err) as (played & E & R & N & Herr).
      exists played. split; [exact E|]. split; [exact R|]. split; [exact N|].
      destruct Herr as [Herr|(t & Ht & Herr)]; [left; exact Herr|right].
      exists t. split; [right; exact Ht|exact Herr].
    + set (m := parseAlgebraicMoveImpl pos (string_of_list_ascii token)).
      destruct (isNull m) eqn:Hnull; cbn [negb].
      * exists []. rewrite app_nil_r. cbn [fst snd].
        split; [reflexivity|]. split; [constructor|]. split; [constructor|].
        right. exists token. split; [left; reflexivity|reflexivity].
      * destruct (IH (makeMove pos m) (moves ++ [m]) err)
          as (played & E & R & N & Herr).
        exists (m :: played). rewrite E, <- app_assoc.
        split; [reflexivity|]. split.
        -- constructor; [|exact R].
           destruct (parseAlgebraicMoveImpl_cases pos (string_of_list_ascii token))
             as [Hc|Hl]; [left; exact Hc|right; apply Hl; exact Hnull].
        -- split; [constructor; assumption|].
           destruct Herr as [Herr|(t & Ht & Herr)]; [left; exact Herr|right].
           exists t. split; [right; exact Ht|exact Herr].
Qed.

(** X27.  The moves that [parseMoveText] returns can be replayed: none
    is the null move, and each is, in the position reached by the
    moves before it, a move of castling type or one of the moves of
    [generateLegalMoves].  [lastError] is left as it was or names a
    token of the text. *)
Theorem parseMoveText_replays (moveText initialFEN lastError : string) :
  Replays (initialPosition initialFEN)
          (fst (parseMoveText moveText initialFEN lastError)) /\
  Forall (fun m => isNull m = false)
         (fst (parseMoveText moveText initialFEN lastError)) /\
  (snd (parseMoveText moveText initialFEN lastError) = lastError \/
   exists token,
     In token (moveTextTokens moveText) /\
     snd (parseMoveText moveText initialFEN lastError) =
     ("Invalid move: " ++ token_text token)%string).
Proof.
  unfold parseMoveText. cbv zeta.
  fold (initialPosition initialFEN). fold (moveTextTokens moveText).
  destruct (interpretTokens_replays (moveTextTokens moveText)
              (initialPosition initialFEN) [] lastError)
    as (played & E & R & N & Herr).
  cbn [app] in E. rewrite E. auto.
Qed.

(** ** The evaluator *)

Lemma popcount_range (b : Bitboard) :
  0 <= b < two64 -> 0 <= popcount b <= 64.
Proof.
  intros Hb. rewrite popcount_squares.
  pose proof (squares_of_length b Hb). unfold Square in *. lia.
Qed.

Lemma popcount_land_l (a b : Z) :
  0 <= a < two64 -> 0 <= popcount (Z.land a b) <= 64.
Proof.
  intros Ha. apply popcount_range.
  pose proof (land_le_l a b (proj1 Ha)). lia.
Qed.

Lemma popcount_land_r (a b : Z) :
  0 <= b < two64 -> 0 <= popcount (Z.land a b) <= 64.
Proof. rewrite Z.land_comm. apply popcount_land_l. Qed.

(** A loop that moves the score by at most [B] a turn moves it by at
    most [B] times the number of turns. *)
Lemma fold_step_bound {A : Type} (step : Z -> A -> Z) (B : Z) (l : list A) :
  (forall s x, In x l -> s - B <= step s x <= s + B) ->
  forall init,
    init - Z.of_nat (List.length l) * B <= fold_left step l init
    <= init + Z.of_nat (List.length l) * B.
Proof.
  induction l as [|x l IH]; intros Hstep init.
  - cbn [fold_left List.length]. lia.
  - cbn [fold_left List.length]. rewrite Nat2Z.inj_succ.
    specialize (IH (fun s y Hy => Hstep s y (or_intror Hy)) (step init x)).
    specialize (Hstep init x (or_introl eq_refl)).
    rewrite Z.mul_succ_l. lia.
Qed.

Lemma fold_step_bound_le {A : Type} (step : Z -> A -> Z) (B n : Z)
    (l : list A) :
  0 <= B -> Z.of_nat (List.length l) <= n ->
  (forall s x, In x l -> s - B <= step s x <= s + B) ->
  forall init,
    init - n * B <= fold_left step l init <= init + n * B.
Proof.
  intros HB Hn Hstep init.
  pose proof (fold_step_bound step B l Hstep init).
  assert (Z.of_nat (List.length l) * B <= n * B) by nia. lia.
Qed.

Lemma squares_of_count (b : Bitboard) :
  0 <= b < two64 -> Z.of_nat (List.length (squares_of b)) <= 64.
Proof. intros Hb. pose proof (squares_of_length b Hb). lia. Qed.

Lemma material_bound (pos : Position) :
  wf_bitboards pos ->
  -137600 <= Evaluator.getMaterialBalance pos <= 137600.
Proof.
  intros Hwf. unfold Evaluator.getMaterialBalance. cbv zeta.
  pose proof (fun pt c => popcount_range _ (wf_bitboards_get pos pt c Hwf)) as P.
  pose proof (P PAWN WHITE). pose proof (P PAWN BLACK).
  pose proof (P KNIGHT WHITE). pose proof (P KNIGHT BLACK).
  pose proof (P BISHOP WHITE). pose proof (P BISHOP BLACK).
  pose proof (P ROOK WHITE). pose proof (P ROOK BLACK).
  pose proof (P QUEEN WHITE). pose proof (P QUEEN BLACK).
  unfold PieceValue.PAWN, PieceValue.KNIGHT, PieceValue.BISHOP,
    PieceValue.ROOK, PieceValue.QUEEN. lia.
Qed.

Lemma tables_in_range : forallb table_in_range all_tables = true.
Proof. vm_compute. reflexivity. Qed.

Lemma table_at_bound (table : list Z) (sq : Square) :
  In table all_tables -> -50 <= Evaluator.table_at table sq <= 50.
Proof.
  intros Hin. pose proof tables_in_range as H.
  rewrite forallb_forall in H. specialize (H table Hin).
  unfold table_in_range in H. rewrite forallb_forall in H.
  unfold Evaluator.table_at.
  destruct ((0 <=? sq) && (sq <? 64)); [|lia].
  destruct (nth_in_or_default (Z.to_nat sq) table 0) as [Hn|E]; [|rewrite E; lia].
  specialize (H _ Hn). lia.
Qed.

Lemma getPieceSquareValue_bound (pt : PieceType) (sq : Square) (c : Color)
    (endgame : bool) :
  -50 <= Evaluator.getPieceSquareValue pt sq c endgame <= 50.
Proof.
  unfold Evaluator.getPieceSquareValue. cbv zeta.
  destruct pt; try destruct endgame; try lia;
    apply table_at_bound; unfold all_tables; simpl; auto 8.
Qed.

Lemma pieceSquareColorScore_bound (pos : Position) (endgame : bool)
    (c : Color) :
  wf_bitboards pos ->
  -19200 <= Evaluator.pieceSquareColorScore pos endgame c <= 19200.
Proof.
  intros Hwf. unfold Evaluator.pieceSquareColorScore.
  pose proof (fold_step_bound_le
                (fun colorScore pt =>
                   fold_left
                     (fun s sq => s + Evaluator.getPieceSquareValue pt sq c endgame)
                     (squares_of (getPieceBitboard pos pt c)) colorScore)
                3200 6 all_piece_types ltac:(lia) ltac:(simpl; lia)) as H.
  cbv beta in H.
  assert (Hstep : forall s pt, In pt all_piece_types ->
            s - 3200 <=
            fold_left (fun s0 sq => s0 + Evaluator.getPieceSquareValue pt sq c endgame)
                      (squares_of (getPieceBitboard pos pt c)) s
            <= s + 3200).
  { intros s pt _.
    pose proof (fold_step_bound_le
                  (fun s0 sq => s0 + Evaluator.getPieceSquareValue pt sq c endgame)
                  50 64 (squares_of (getPieceBitboard pos pt c)) ltac:(lia)
                  (squares_of_count _ (wf_bitboards_get pos pt c Hwf))) as G.
    cbv beta in G.
    specialize (G (fun s0 sq _ =>
                     ltac:(pose proof (getPieceSquareValue_bound pt sq c endgame);
                           lia)) s).
    lia. }
  specialize (H Hstep 0). lia.
Qed.

Lemma getPieceSquareScore_bound (pos : Position) :
  wf_bitboards pos ->
  -38400 <= Evaluator.getPieceSquareScore pos <= 38400.
Proof.
  intros Hwf. unfold Evaluator.getPieceSquareScore. cbv zeta.
  cbn [fold_left].
  pose proof (pieceSquareColorScore_bound pos (isEndgame pos) WHITE Hwf).
  pose proof (pieceSquareColorScore_bound pos (isEndgame pos) BLACK Hwf).
  lia.
Qed.

Lemma doubled_step_bound (whitePawns blackPawns : Bitboard) (s file : Z) :
  0 <= whitePawns < two64 -> 0 <= blackPawns < two64 ->
  s - 630 <= Evaluator.doubled_step whitePawns blackPawns s file <= s + 630.
Proof.
  intros Hw Hb. unfold Evaluator.doubled_step. cbv zeta.
  pose proof (popcount_land_l whitePawns (Evaluator.fileMask file) Hw).
  pose proof (popcount_land_l blackPawns (Evaluator.fileMask file) Hb).
  destruct (Z.gtb_spec (popcount (Z.land whitePawns (Evaluator.fileMask file))) 1);
    destruct (Z.gtb_spec (popcount (Z.land blackPawns (Evaluator.fileMask file))) 1);
    lia.
Qed.

Lemma isolated_step_bound (whitePawns blackPawns : Bitboard) (s file : Z) :
  s - 15 <= Evaluator.isolated_step whitePawns blackPawns s file <= s + 15.
Proof.
  unfold Evaluator.isolated_step. cbv zeta.
  repeat match goal with
         | |- context [if ?c then _ else _] => destruct c
         end; lia.
Qed.

Lemma passed_step_range (theirPawns : Bitboard) (us : Color)
    (passed : Bitboard) (sq : Square) :
  0 <= passed < two64 ->
  0 <= Evaluator.passed_step theirPawns us passed sq < two64.
Proof.
  intros Hp. unfold Evaluator.passed_step. cbv zeta.
  destruct (negb _); [|exact Hp].
  apply in_range_lor; [exact Hp|apply squareBB_range].
Qed.

Lemma getPassedPawns_range (ourPawns theirPawns : Bitboard) (us : Color) :
  0 <= Evaluator.getPassedPawns ourPawns theirPawns us < two64.
Proof.
  unfold Evaluator.getPassedPawns.
  assert (G : forall l acc, 0 <= acc < two64 ->
            0 <= fold_left (Evaluator.passed_step theirPawns us) l acc < two64).
  { induction l as [|x l IH]; intros acc Ha; [exact Ha|].
    cbn [fold_left]. apply IH. apply passed_step_range. exact Ha. }
  apply G. unfold two64. lia.
Qed.

Lemma passed_bonus_range (rank : Z) :
  0 <= rank < 8 -> 10 <= 10 + rank * rank * 5 <= 255.
Proof. intros H. assert (0 <= rank * rank <= 49) by nia. lia. Qed.

Lemma evaluatePawnStructure_bound (pos : Position) :
  wf_bitboards pos ->
  -37800 <= Evaluator.evaluatePawnStructure pos <= 37800.
Proof.
  intros Hwf. unfold Evaluator.evaluatePawnStructure. cbv zeta.
  pose proof (wf_bitboards_get pos PAWN WHITE Hwf) as Hw.
  pose proof (wf_bitboards_get pos PAWN BLACK Hwf) as Hb.
  set (whitePawns := getPieceBitboard pos PAWN WHITE) in *.
  set (blackPawns := getPieceBitboard pos PAWN BLACK) in *.
  pose proof (fold_step_bound_le
                (Evaluator.doubled_step whitePawns blackPawns) 630 8 files_0_7
                ltac:(lia) ltac:(simpl; lia)
                (fun s f _ => doubled_step_bound whitePawns blackPawns s f Hw Hb)
                0) as H1.
  set (s1 := fold_left (Evaluator.doubled_step whitePawns blackPawns) files_0_7 0) in *.
  pose proof (fold_step_bound_le
                (Evaluator.isolated_step whitePawns blackPawns) 15 8 files_0_7
                ltac:(lia) ltac:(simpl; lia)
                (fun s f _ => isolated_step_bound whitePawns blackPawns s f)
                s1) as H2.
  set (s2 := fold_left (Evaluator.isolated_step whitePawns blackPawns) files_0_7 s1) in *.
  pose proof (getPassedPawns_range whitePawns blackPawns WHITE) as Rw.
  pose proof (getPassedPawns_range blackPawns whitePawns BLACK) as Rb.
  set (whitePassed := Evaluator.getPassedPawns whitePawns blackPawns WHITE) in *.
  set (blackPassed := Evaluator.getPassedPawns blackPawns whitePawns BLACK) in *.
  pose proof (fold_step_bound_le
                (fun score sq => let rank := rankOf sq in
                                 score + (10 + rank * rank * 5))
                255 64 (squares_of whitePassed)
                ltac:(lia) (squares_of_count _ Rw)) as H3.
  cbv beta zeta in H3.
  assert (S3 : forall s x, In x (squares_of whitePassed) ->
            s - 255 <= s + (10 + rankOf x * rankOf x * 5) <= s + 255).
  { intros s x Hx.
    pose proof (square_coords x (squares_of_range _ x Rw Hx)) as (Hr & _).
    pose proof (passed_bonus_range (rankOf x) Hr). lia. }
  specialize (H3 S3 s2).
  set (s3 := fold_left (fun score sq => score + (10 + rankOf sq * rankOf sq * 5))
                       (squares_of whitePassed) s2) in *.
  pose proof (fold_step_bound_le
                (fun score sq => let rank := 7 - rankOf sq in
                                 score - (10 + rank * rank * 5))
                255 64 (squares_of blackPassed)
                ltac:(lia) (squares_of_count _ Rb)) as H4.
  cbv beta zeta in H4.
  assert (S4 : forall s x, In x (squares_of blackPassed) ->
            s - 255 <= s - (10 + (7 - rankOf x) * (7 - rankOf x) * 5) <= s + 255).
  { intros s x Hx.
    pose proof (square_coords x (squares_of_range _ x Rb Hx)) as (Hr & _).
    pose proof (passed_bonus_range (7 - rankOf x) ltac:(lia)). lia. }
  specialize (H4 S4 s3). lia.
Qed.

Lemma not64_range (b : Z) : 0 <= not64 b < two64.
Proof. unfold not64, wrap64. apply Z.mod_pos_bound. reflexivity. Qed.

Lemma mobility_loop_bound (k : Z) (sign : Z) (attacks : Square -> Bitboard)
    (mask : Bitboard) (l : list Square) (init : Z) :
  0 <= k -> (sign = 1 \/ sign = -1) ->
  Z.of_nat (List.length l) <= 64 ->
  init - 64 * (64 * k) <=
  fold_left (fun score sq =>
               score + sign * (popcount (Z.land (attacks sq) (not64 mask)) * k))
            l init
  <= init + 64 * (64 * k).
Proof.
  intros Hk Hs Hl.
  apply (fold_step_bound_le
           (fun score sq =>
              score + sign * (popcount (Z.land (attacks sq) (not64 mask)) * k))
           (64 * k) 64 l); [lia|exact Hl|].
  intros s x _.
  pose proof (popcount_land_r (attacks x) (not64 mask) (not64_range mask)).
  destruct Hs as [-> | ->]; nia.
Qed.

Lemma evaluateMobility_bound (pos : Position) :
  wf_bitboards pos ->
  -57344 <= Evaluator.evaluateMobility pos <= 57344.
Proof.
  intros Hwf. unfold Evaluator.evaluateMobility. cbv zeta.
  pose proof (squares_of_count _ (wf_bitboards_get pos KNIGHT WHITE Hwf)) as L1.
  pose proof (squares_of_count _ (wf_bitboards_get pos KNIGHT BLACK Hwf)) as L2.
  pose proof (squares_of_count _ (wf_bitboards_get pos BISHOP WHITE Hwf)) as L3.
  pose proof (squares_of_count _ (wf_bitboards_get pos BISHOP BLACK Hwf)) as L4.
  set (occupied := getOccupiedBitboard pos).
  pose proof (mobility_loop_bound 4 1 Attacks.knightAttacksBB
                (getColorBitboard pos WHITE) _ 0
                ltac:(lia) ltac:(left; reflexivity) L1) as H1.
  match type of H1 with _ <= ?f <= _ => set (s1 := f) in * end.
  pose proof (mobility_loop_bound 4 (-1) Attacks.knightAttacksBB
                (getColorBitboard pos BLACK) _ s1
                ltac:(lia) ltac:(right; reflexivity) L2) as H2.
  match type of H2 with _ <= ?f <= _ => set (s2 := f) in * end.
  pose proof (mobility_loop_bound 3 1
                (fun sq => Attacks.bishopAttacksBB sq occupied)
                (getColorBitboard pos WHITE) _ s2
                ltac:(lia) ltac:(left; reflexivity) L3) as H3.
  match type of H3 with _ <= ?f <= _ => set (s3 := f) in * end.
  pose proof (mobility_loop_bound 3 (-1)
                (fun sq => Attacks.bishopAttacksBB sq occupied)
                (getColorBitboard pos BLACK) _ s3
                ltac:(lia) ltac:(right; reflexivity) L4) as H4.
  match type of H4 with _ <= ?f <= _ => set (s4 := f) in * end.
  assert (E : forall (w : Bitboard) (l : list Square) (init k : Z)
                     (attacks : Square -> Bitboard),
             (fold_left (fun score sq =>
                score + popcount (Z.land (attacks sq) (not64 w)) * k) l init =
              fold_left (fun score sq =>
                score + 1 * (popcount (Z.land (attacks sq) (not64 w)) * k)) l init) /\
             (fold_left (fun score sq =>
                score - popcount (Z.land (attacks sq) (not64 w)) * k) l init =
              fold_left (fun score sq =>
                score + -1 * (popcount (Z.land (attacks sq) (not64 w)) * k)) l init)).
  { intros w l. induction l as [|x l IH]; intros init k attacks;
      [split; reflexivity|].
    cbn [fold_left]. destruct (IH (init + popcount (Z.land (attacks x) (not64 w)) * k)
                                   k attacks) as [IH1 _].
    destruct (IH (init - popcount (Z.land (attacks x) (not64 w)) * k)
                 k attacks) as [_ IH2].
    split.
    - rewrite IH1. f_equal; lia.
    - rewrite IH2. f_equal; lia. }
  rewrite (proj1 (E (getColorBitboard pos WHITE) _ 0 4 Attacks.knightAttacksBB)).
  fold s1.
  rewrite (proj2 (E (getColorBitboard pos BLACK) _ s1 4 Attacks.knightAttacksBB)).
  fold s2.
  rewrite (proj1 (E (getColorBitboard pos WHITE) _ s2 3
                    (fun sq => Attacks.bishopAttacksBB sq occupied))).
  fold s3.
  rewrite (proj2 (E (getColorBitboard pos BLACK) _ s3 3
                    (fun sq => Attacks.bishopAttacksBB sq occupied))).
  fold s4. lia.
Qed.

Lemma Z_range_length (n : nat) (start : Z) :
  List.length (Z_range n start) = n.
Proof.
  revert start. induction n as [|k IH]; intros start; [reflexivity|].
  cbn [Z_range List.length]. rewrite IH. reflexivity.
Qed.

Lemma fileOf_range (sq : Z) : 0 <= fileOf sq <= 7.
Proof.
  unfold fileOf. rewrite Z.land_comm.
  pose proof (land_le_l 7 sq ltac:(lia)). lia.
Qed.

Lemma evaluateKingSafety_bound (pos : Position) (color : Color) :
  wf_bitboards pos ->
  -60 <= Evaluator.evaluateKingSafety pos color <= 640.
Proof.
  intros Hwf. unfold Evaluator.evaluateKingSafety. cbv zeta.
  set (kingSquare := lsb (getPieceBitboard pos KING color)).
  pose proof (fileOf_range kingSquare) as Hf.
  pose proof (popcount_land_r (Attacks.kingAttacksBB kingSquare)
                (getPieceBitboard pos PAWN color)
                (wf_bitboards_get pos PAWN color Hwf)) as Hp.
  set (first := Z.max 0 (fileOf kingSquare - 1)).
  set (last := Z.min 7 (fileOf kingSquare + 1)).
  assert (G : forall l init,
            init - Z.of_nat (List.length l) * 20 <=
            fold_left
              (fun s f =>
                 if negb (nonzero (Z.land (getPieceBitboard pos PAWN color)
                                          (Evaluator.fileMask f)))
                 then s - 20 else s) l init <= init).
  { induction l as [|x l IH]; intros init; [cbn [fold_left List.length]; lia|].
    cbn [fold_left List.length]. rewrite Nat2Z.inj_succ.
    destruct (negb _).
    - specialize (IH (init - 20)). lia.
    - specialize (IH init). lia. }
  specialize (G (Z_range (Z.to_nat (last - first + 1)) first)
                (0 + popcount (Z.land (Attacks.kingAttacksBB kingSquare)
                                      (getPieceBitboard pos PAWN color)) * 10)).
  rewrite Z_range_length in G.
  assert (Z.of_nat (Z.to_nat (last - first + 1)) <= 3) by (subst first last; lia).
  lia.
Qed.

Lemma center_fold_range (pos : Position) (l : list Square) :
  forall st : Bitboard * Bitboard,
    0 <= fst st < two64 -> 0 <= snd st < two64 ->
    let r :=
      fold_left
        (fun (st : Bitboard * Bitboard) sq =>
           let '(w, b) := st in
           (if isSquareAttacked pos sq WHITE then Z.lor w (squareBB sq) else w,
            if isSquareAttacked pos sq BLACK then Z.lor b (squareBB sq) else b))
        l st in
    0 <= fst r < two64 /\ 0 <= snd r < two64.
Proof.
  induction l as [|x l IH]; intros [w b] Hw Hb; cbn [fst snd] in *.
  - cbn [fold_left fst snd]. split; assumption.
  - cbn [fold_left]. apply IH; cbn [fst snd].
    + destruct (isSquareAttacked pos x WHITE); [|exact Hw].
      apply in_range_lor; [exact Hw|apply squareBB_range].
    + destruct (isSquareAttacked pos x BLACK); [|exact Hb].
      apply in_range_lor; [exact Hb|apply squareBB_range].
Qed.

Lemma evaluateCenterControl_bound (pos : Position) :
  wf_bitboards pos ->
  -3200 <= Evaluator.evaluateCenterControl pos <= 3200.
Proof.
  intros Hwf. unfold Evaluator.evaluateCenterControl.
  pose proof (center_fold_range pos Evaluator.centerSquares (0, 0)
                ltac:(cbn; unfold two64; lia) ltac:(cbn; unfold two64; lia)) as R.
  cbv zeta in R. unfold Bitboard, Square in *.
  match type of R with
  | context [fst ?t] => destruct t as [whiteControl blackControl]
  end.
  cbn [fst snd] in R. destruct R as [Rw Rb]. cbv zeta.
  pose proof (popcount_range _ Rw). pose proof (popcount_range _ Rb).
  match goal with
  | |- context [Z.land ?c (getColorBitboard pos WHITE)] =>
      pose proof (popcount_land_r c _ (getColorBitboard_range pos WHITE Hwf));
      pose proof (popcount_land_r c _ (getColorBitboard_range pos BLACK Hwf))
  end.
  lia.
Qed.

Lemma evaluate_score_bound (pos : Position) :
  wf_bitboards pos ->
  -275044 <= Evaluator.evaluate pos <= 275044.
Proof.
  intros Hwf. unfold Evaluator.evaluate. cbv zeta.
  pose proof (material_bound pos Hwf).
  pose proof (getPieceSquareScore_bound pos Hwf).
  pose proof (evaluatePawnStructure_bound pos Hwf).
  pose proof (evaluateMobility_bound pos Hwf).
  pose proof (evaluateKingSafety_bound pos WHITE Hwf).
  pose proof (evaluateKingSafety_bound pos BLACK Hwf).
  pose proof (evaluateCenterControl_bound pos Hwf).
  destruct (sideToMove pos); lia.
Qed.

Lemma squareBB_makeSquare_bit (f r p : Z) :
  0 <= f < 8 -> 0 <= r < 8 -> 0 <= p < 64 ->
  (Z.testbit (squareBB (makeSquare f r)) p = true <->
   fileOf p = f /\ rankOf p = r).
Proof.
  intros Hf Hr Hp. rewrite squareBB_testbit.
  destruct (makeSquare_file_rank f r Hf Hr) as (Ef & Er & _).
  destruct (square_coords p Hp) as (_ & _ & Ep).
  rewrite !andb_true_iff, Z.eqb_eq, Z.leb_le, Z.ltb_lt. split.
  - intros [[-> _] _]. split; assumption.
  - intros [E1 E2]. rewrite E1, E2 in Ep. unfold makeSquare. lia.
Qed.

Lemma front_span_range (n : nat) (dr file : Z) :
  forall r acc,
    0 <= acc < two64 ->
    0 <= Evaluator.front_span n r dr file acc < two64.
Proof.
  induction n as [|k IH]; intros r acc Ha; [exact Ha|].
  cbn [Evaluator.front_span]. cbv zeta. apply IH.
  destruct (file >? 0), (file <? 7);
    repeat first [exact Ha | apply squareBB_range | apply in_range_lor].
Qed.

Lemma front_span_bit (n : nat) (dr file : Z) (p : Square) :
  0 <= file < 8 -> 0 <= p < 64 ->
  forall r acc,
    (forall i, 0 <= i < Z.of_nat n -> 0 <= r + i * dr < 8) ->
    (Z.testbit (Evaluator.front_span n r dr file acc) p = true <->
     Z.testbit acc p = true \/
     (file - 1 <= fileOf p <= file + 1 /\
      exists i, 0 <= i < Z.of_nat n /\ rankOf p = r + i * dr)).
Proof.
  intros Hfile Hp. induction n as [|k IH]; intros r acc Hr.
  - cbn [Evaluator.front_span]. split; [auto|].
    intros [H|(_ & i & Hi & _)]; [exact H|]. simpl in Hi. lia.
  - cbn [Evaluator.front_span]. cbv zeta.
    assert (Hr0 : 0 <= r < 8) by (specialize (Hr 0); lia).
    rewrite IH.
    2:{ intros i Hi. specialize (Hr (i + 1)).
        replace (r + dr + i * dr) with (r + (i + 1) * dr) by lia.
        apply Hr. lia. }
    assert (Hrow :
      Z.testbit
        (if file <? 7
         then Z.lor (Z.lor (if file >? 0
                            then Z.lor acc (squareBB (makeSquare (file - 1) r))
                            else acc)
                           (squareBB (makeSquare file r)))
                    (squareBB (makeSquare (file + 1) r))
         else Z.lor (if file >? 0
                     then Z.lor acc (squareBB (makeSquare (file - 1) r))
                     else acc)
                    (squareBB (makeSquare file r))) p = true <->
      Z.testbit acc p = true \/
      (file - 1 <= fileOf p <= file + 1 /\ rankOf p = r)).
    { destruct (square_coords p Hp) as (_ & Hfp & _).
      destruct (Z.ltb_spec file 7), (Z.gtb_spec file 0);
        rewrite ?Z.lor_spec, ?orb_true_iff,
          ?squareBB_makeSquare_bit by lia; intuition lia. }
    rewrite Hrow. rewrite Nat2Z.inj_succ. split.
    + intros [[H|[Hf Hrk]]|(Hf & i & Hi & Hrk)].
      * left. exact H.
      * right. split; [exact Hf|]. exists 0. lia.
      * right. split; [exact Hf|]. exists (i + 1). lia.
    + intros [H|(Hf & i & Hi & Hrk)].
      * left. left. exact H.
      * destruct (Z.eq_dec i 0) as [->|Hne].
        -- left. right. split; [exact Hf|]. lia.
        -- right. split; [exact Hf|]. exists (i - 1). lia.
Qed.

(** The front span of a pawn holds the squares ahead of it. *)
Lemma frontSpan_ahead (us : Color) (sq p : Square) :
  0 <= sq < 64 -> 0 <= p < 64 ->
  (Z.testbit
     match us with
     | WHITE => Evaluator.front_span (Z.to_nat (7 - rankOf sq))
                  (rankOf sq + 1) 1 (fileOf sq) 0
     | BLACK => Evaluator.front_span (Z.to_nat (rankOf sq))
                  (rankOf sq - 1) (-1) (fileOf sq) 0
     end p = true <-> ahead us sq p).
Proof.
  intros Hsq Hp.
  destruct (square_coords sq Hsq) as (Hr & Hf & _).
  destruct (square_coords p Hp) as (Hrp & _ & _).
  unfold ahead. destruct us.
  - rewrite (front_span_bit _ 1 (fileOf sq) p Hf Hp)
      by (intros i Hi; rewrite Z2Nat.id in Hi by lia; lia).
    rewrite Z.bits_0, Z2Nat.id by lia. split.
    + intros [H|(Hfile & i & Hi & E)]; [discriminate H|]. lia.
    + intros [Hfile Hrank]. right. split; [exact Hfile|].
      exists (rankOf p - rankOf sq - 1). lia.
  - rewrite (front_span_bit _ (-1) (fileOf sq) p Hf Hp)
      by (intros i Hi; rewrite Z2Nat.id in Hi by lia; lia).
    rewrite Z.bits_0, Z2Nat.id by lia. split.
    + intros [H|(Hfile & i & Hi & E)]; [discriminate H|]. lia.
    + intros [Hfile Hrank]. right. split; [exact Hfile|].
      exists (rankOf sq - 1 - rankOf p). lia.
Qed.

Lemma passed_step_bit (theirPawns : Bitboard) (us : Color)
    (passed : Bitboard) (sq t : Square) :
  0 <= sq < 64 ->
  (Z.testbit (Evaluator.passed_step theirPawns us passed sq) t = true <->
   Z.testbit passed t = true \/
   (t = sq /\
    forall p, 0 <= p < 64 -> Z.testbit theirPawns p = true ->
              ~ ahead us sq p)).
Proof.
  intros Hsq. unfold Evaluator.passed_step. cbv zeta.
  set (frontSpan :=
         match us with
         | WHITE => Evaluator.front_span (Z.to_nat (7 - rankOf sq))
                      (rankOf sq + 1) 1 (fileOf sq) 0
         | BLACK => Evaluator.front_span (Z.to_nat (rankOf sq))
                      (rankOf sq - 1) (-1) (fileOf sq) 0
         end).
  assert (HF : forall p, 0 <= p < 64 ->
            (Z.testbit frontSpan p = true <-> ahead us sq p))
    by (intros p Hp; apply frontSpan_ahead; assumption).
  assert (RF : 0 <= frontSpan < two64)
    by (subst frontSpan; destruct us; apply front_span_range;
        unfold two64; lia).
  destruct (nonzero (Z.land frontSpan theirPawns)) eqn:Enz; cbn [negb].
  - apply nonzero_land_iff in Enz as (p & Hp1 & Hp2); [|lia].
    pose proof (testbit_square frontSpan p RF Hp1) as Hp.
    split; [auto|]. intros [H|[_ Hfree]]; [exact H|].
    exfalso. apply (Hfree p Hp Hp2). apply HF; assumption.
  - unfold nonzero in Enz. apply negb_false_iff in Enz.
    apply Z.eqb_eq in Enz.
    rewrite Z.lor_spec, orb_true_iff, squareBB_testbit.
    rewrite !andb_true_iff, Z.eqb_eq, Z.leb_le, Z.ltb_lt. split.
    + intros [H|[[-> _] _]]; [left; exact H|right].
      split; [reflexivity|]. intros p Hp Hth Hah.
      apply HF in Hah; [|exact Hp].
      pose proof (land_zero_bits _ _ p Enz Hah) as Hc.
      rewrite Hth in Hc. discriminate Hc.
    + intros [H|[-> _]]; [left; exact H|right]. lia.
Qed.

Lemma passed_fold_bit (theirPawns : Bitboard) (us : Color) (t : Square)
    (l : list Square) :
  (forall s, In s l -> 0 <= s < 64) ->
  forall acc,
    (Z.testbit (fold_left (Evaluator.passed_step theirPawns us) l acc) t
     = true <->
     Z.testbit acc t = true \/
     (In t l /\
      forall p, 0 <= p < 64 -> Z.testbit theirPawns p = true ->
                ~ ahead us t p)).
Proof.
  induction l as [|x l IH]; intros Hl acc.
  - cbn [fold_left]. split; [auto|]. intros [H|[[] _]]. exact H.
  - cbn [fold_left].
    rewrite (IH (fun s Hs => Hl s (or_intror Hs))).
    rewrite (passed_step_bit theirPawns us acc x t (Hl x (or_introl eq_refl))).
    split.
    + intros [[H|[-> Hfree]]|[Hin Hfree]].
      * left. exact H.
      * right. split; [left; reflexivity|exact Hfree].
      * right. split; [right; exact Hin|exact Hfree].
    + intros [H|[[->|Hin] Hfree]].
      * left. left. exact H.
      * left. right. split; [reflexivity|exact Hfree].
      * right. split; assumption.
Qed.

(** X28.  [getPassedPawns] returns the passed pawns: on a 64-bit
    bitboard of our pawns, a square is in the result exactly when one
    of our pawns stands on it and no pawn of the other side stands
    ahead of it, that is on its file or a neighbouring file, on a rank
    it has still to cross. *)
Theorem getPassedPawns_spec (ourPawns theirPawns : Bitboard) (us : Color)
    (t : Square) :
  0 <= ourPawns < two64 ->
  (Z.testbit (Evaluator.getPassedPawns ourPawns theirPawns us) t = true <->
   Z.testbit ourPawns t = true /\
   forall p, 0 <= p < 64 -> Z.testbit theirPawns p = true ->
             ~ ahead us t p).
Proof.
  intros Hours. unfold Evaluator.getPassedPawns.
  rewrite (passed_fold_bit theirPawns us t (squares_of ourPawns)
             (fun s Hs => squares_of_range ourPawns s Hours Hs) 0).
  rewrite Z.bits_0, (squares_of_iff ourPawns t (proj1 Hours)). split.
  - intros [H|H]; [discriminate H|exact H].
  - intros H. right. exact H.
Qed.

Lemma getPassedPawns_spec_witness :
  0 <= 0x0000001000000200 < two64 /\
  (Z.testbit (Evaluator.getPassedPawns 0x0000001000000200
                0x0040000800000000 WHITE) 9 = true <->
   Z.testbit 0x0000001000000200 9 = true /\
   forall p, 0 <= p < 64 -> Z.testbit 0x0040000800000000 p = true ->
             ~ ahead WHITE 9 p).
Proof.
  split; [unfold two64; lia|].
  apply (getPassedPawns_spec 0x0000001000000200 0x0040000800000000 WHITE 9).
  unfold two64. lia.
Defined.

(** *** The search with the evaluator of evaluator.cpp *)

Section SameOnWellFormed.

Variables evaluate1 evaluate2 : Position -> Z.
Variable std_sort : (Move -> Move -> bool) -> list Move -> list Move.
Hypothesis agree : forall p, wf_position p -> evaluate1 p = evaluate2 p.

Lemma search_loop_same (rec1 rec2 : Position -> Z -> Z -> SearchResult)
    (pos : Position) :
  wf_position pos ->
  (forall p a b, wf_position p -> rec1 p a b = rec2 p a b) ->
  forall moves alpha beta best,
    search_loop rec1 pos moves alpha beta best =
    search_loop rec2 pos moves alpha beta best.
Proof.
  intros Hwf Hrec. induction moves as [|m rest IH]; intros alpha beta best.
  - reflexivity.
  - cbn [search_loop]. cbv zeta.
    rewrite (Hrec (makeMove pos m) (- beta) (- alpha)
               (makeMove_keeps_wf pos m Hwf)).
    destruct (_ >=? beta); [reflexivity|]. apply IH.
Qed.

Lemma search_same (depth : nat) :
  forall pos alpha beta,
    wf_position pos ->
    search evaluate1 std_sort depth pos alpha beta =
    search evaluate2 std_sort depth pos alpha beta.
Proof.
  induction depth as [|d IH]; intros pos alpha beta Hwf.
  - cbn [search]. rewrite (agree pos Hwf). reflexivity.
  - cbn [search]. cbv zeta.
    destruct (generateLegalMoves pos) as [|m0 rest]; [reflexivity|].
    apply search_loop_same; [exact Hwf|].
    intros p a b Hp. apply IH. exact Hp.
Qed.

Lemma maxOver_same (f g : Move -> Z) (l : list Move) :
  (forall m, f m = g m) ->
  forall init,
    fold_left (fun best m => Z.max best (f m)) l init =
    fold_left (fun best m => Z.max best (g m)) l init.
Proof.
  intros E. induction l as [|x l IH]; intros init; [reflexivity|].
  cbn [fold_left]. rewrite E. apply IH.
Qed.

Lemma negamax_same (depth : nat) :
  forall pos,
    wf_position pos ->
    negamax evaluate1 depth pos = negamax evaluate2 depth pos.
Proof.
  induction depth as [|d IH]; intros pos Hwf.
  - cbn [negamax]. apply agree. exact Hwf.
  - cbn [negamax]. cbv zeta.
    destruct (generateLegalMoves pos) as [|m0 rest]; [reflexivity|].
    rewrite (IH (makeMove pos m0) (makeMove_keeps_wf pos m0 Hwf)).
    apply maxOver_same. intros m.
    rewrite (IH (makeMove pos m) (makeMove_keeps_wf pos m Hwf)).
    reflexivity.
Qed.

End SameOnWellFormed.

Lemma evaluate_on_wf_same (p : Position) :
  wf_position p -> Evaluator.evaluate p = evaluate_on_wf p.
Proof.
  unfold wf_position, evaluate_on_wf. intros ->. reflexivity.
Qed.

Lemma evaluate_on_wf_bounded (p : Position) :
  - INT_MAX < evaluate_on_wf p < INT_MAX.
Proof.
  unfold evaluate_on_wf.
  destruct (boards_wfb (pieceBitboards p)) eqn:E;
    [|unfold INT_MAX; lia].
  pose proof (evaluate_score_bound p (wf_position_bitboards p E)).
  unfold INT_MAX. lia.
Qed.

(** X29.  The bounds of the evaluation.  On 64-bit bitboards each term
    of [evaluate] stays within fixed bounds, whatever the number and
    the places of the pieces, and so does their sum: the score lies
    between -275044 and 275044, well inside the range of [int] and of
    the search window. *)
Theorem evaluate_bounds (pos : Position) :
  wf_bitboards pos ->
  (-137600 <= Evaluator.getMaterialBalance pos <= 137600) /\
  (-38400 <= Evaluator.getPieceSquareScore pos <= 38400) /\
  (-37800 <= Evaluator.evaluatePawnStructure pos <= 37800) /\
  (-57344 <= Evaluator.evaluateMobility pos <= 57344) /\
  (forall c, -60 <= Evaluator.evaluateKingSafety pos c <= 640) /\
  (-3200 <= Evaluator.evaluateCenterControl pos <= 3200) /\
  (-275044 <= Evaluator.evaluate pos <= 275044) /\
  (- INT_MAX < Evaluator.evaluate pos < INT_MAX).
Proof.
  intros Hwf.
  pose proof (material_bound pos Hwf) as H1.
  pose proof (getPieceSquareScore_bound pos Hwf) as H2.
  pose proof (evaluatePawnStructure_bound pos Hwf) as H3.
  pose proof (evaluateMobility_bound pos Hwf) as H4.
  pose proof (fun c => evaluateKingSafety_bound pos c Hwf) as H5.
  pose proof (evaluateCenterControl_bound pos Hwf) as H6.
  pose proof (H5 WHITE) as H5w. pose proof (H5 BLACK) as H5b.
  assert (H7 : -275044 <= Evaluator.evaluate pos <= 275044).
  { unfold Evaluator.evaluate. cbv zeta. destruct (sideToMove pos); lia. }
  repeat (split; [assumption|]). unfold INT_MAX. lia.
Qed.

Lemma evaluate_bounds_witness :
  (-137600 <= Evaluator.getMaterialBalance en_passant_position <= 137600) /\
  (-38400 <= Evaluator.getPieceSquareScore en_passant_position <= 38400) /\
  (-37800 <= Evaluator.evaluatePawnStructure en_passant_position <= 37800) /\
  (-57344 <= Evaluator.evaluateMobility en_passant_position <= 57344) /\
  (forall c, -60 <= Evaluator.evaluateKingSafety en_passant_position c <= 640) /\
  (-3200 <= Evaluator.evaluateCenterControl en_passant_position <= 3200) /\
  (-275044 <= Evaluator.evaluate en_passant_position <= 275044) /\
  (- INT_MAX < Evaluator.evaluate en_passant_position < INT_MAX).
Proof.
  apply (evaluate_bounds en_passant_position).
  vm_compute. reflexivity.
Defined.

(** Why a run may leave the defined ground: [makeMove] re-reads the
    type of a black piece through [typeOf], so the black king that
    steps from e8 to e7 is put down as a knight and Black has no king
    left for [lsb] to find. *)
Example black_king_move_leaves_no_king :
  In (Move2 E8 52) (generateLegalMoves black_castling_position) /\
  hasKing black_castling_position BLACK = true /\
  hasKing (makeMove black_castling_position (Move2 E8 52)) BLACK = false /\
  search_defined 1 black_castling_position = false.
Proof.
  split; [|split; [|split]]; try (vm_compute; reflexivity).
  assert (H : existsb (Move_eqb (Move2 E8 52))
                (generateLegalMoves black_castling_position) = true)
    by (vm_compute; reflexivity).
  apply existsb_exists in H as (x & Hin & Hx).
  unfold Move_eqb in Hx. apply Z.eqb_eq in Hx.
  destruct x as [d]. cbn [data] in Hx. subst d. exact Hin.
Qed.

(** X30.  The search of the analyzer finds the negamax value.  From a
    well-formed position whose tree of legal moves to the given depth
    is one the program is defined on ([search_defined]: the kings that
    [lsb] is applied to are there, no pawn stands on its last rank,
    the en-passant square is a square or none, every move made starts
    on an occupied square), with the evaluator of evaluator.cpp and
    every conforming [std::sort], the score that [search] returns on
    the full window is the plain negamax value of the position at that
    depth; on a narrower window it is that value when it falls inside
    the window, and a bound of it otherwise. *)
Theorem search_evaluator_is_negamax
    (std_sort : (Move -> Move -> bool) -> list Move -> list Move)
    (depth : nat) (pos : Position) :
  sort_contract std_sort ->
  wf_position pos ->
  search_defined depth pos = true ->
  Z.of_nat depth <= INT_MAX ->
  score (search Evaluator.evaluate std_sort depth pos (- INT_MAX) INT_MAX) =
  negamax Evaluator.evaluate depth pos /\
  forall alpha beta,
    - INT_MAX <= alpha -> alpha < beta -> beta <= INT_MAX ->
    informs alpha beta
      (score (search Evaluator.evaluate std_sort depth pos alpha beta))
      (negamax Evaluator.evaluate depth pos).
Proof.
  intros Hsort Hwf _ Hd.
  rewrite (negamax_same Evaluator.evaluate evaluate_on_wf
             evaluate_on_wf_same depth pos Hwf).
  assert (W : forall alpha beta,
            - INT_MAX <= alpha -> alpha < beta -> beta <= INT_MAX ->
            informs alpha beta
              (score (search Evaluator.evaluate std_sort depth pos alpha beta))
              (negamax evaluate_on_wf depth pos)).
  { intros alpha beta Ha Hab Hb.
    rewrite (search_same Evaluator.evaluate evaluate_on_wf std_sort
               evaluate_on_wf_same depth pos alpha beta Hwf).
    apply search_informs; assumption || exact evaluate_on_wf_bounded. }
  split; [|exact W].
  specialize (W (- INT_MAX) INT_MAX).
  pose proof (negamax_bounded evaluate_on_wf evaluate_on_wf_bounded
                depth pos Hd) as Hb.
  unfold informs, INT_MAX in *.
  destruct W as (W1 & W2 & W3); lia.
Qed.

Lemma search_evaluator_is_negamax_witness :
  score (search Evaluator.evaluate (@insertion_sort Move) 2
           startpos (- INT_MAX) INT_MAX) =
  negamax Evaluator.evaluate 2 startpos /\
  forall alpha beta,
    - INT_MAX <= alpha -> alpha < beta -> beta <= INT_MAX ->
    informs alpha beta
      (score (search Evaluator.evaluate (@insertion_sort Move) 2
                startpos alpha beta))
      (negamax Evaluator.evaluate 2 startpos).
Proof.
  apply (search_evaluator_is_negamax (@insertion_sort Move) 2 startpos).
  - exact insertion_sort_contract.
  - exact startpos_wf_position.
  - vm_compute. reflexivity.
  - vm_compute. discriminate.
Defined.
